(** * Nataf transformation and marginal log-densities

    A shallow embedding of

      - [modules/performUQ/UCSD_UQ/pdfs.py]  (classes [Uniform], [Halfnormal],
        [Normal], [TrunNormal], [TruncatedExponentialDist], [DiscreteDist])
        and
      - [modules/performUQ/common/ERAClasses/ERANataf.py]  (class [ERANataf]).

    Floating-point numbers are read as real numbers; the values a float can
    take besides a real ([inf], [-inf], [nan]) appear only where the code
    produces or tests them (the log-densities and the moments of a marginal).
    Routines of numpy and scipy are fields of the class [NumLib]: the
    development holds for every library, and [RealLib] is a library over the
    reals used to run the code on concrete inputs. *)

From Stdlib Require Import Reals Lra Lia ZArith.
From stdpp Require Import base list sets strings.

Open Scope R_scope.

(** ** Numbers, exceptions *)

(** The values of a float64 that the code distinguishes. *)
Inductive ExtR : Type :=
| Fin (r : R)
| PosInf
| NegInf
| NaN.

(** [np.isfinite]. *)
Definition isfinite (x : ExtR) : bool :=
  match x with Fin _ => true | _ => false end.

(** The real behind a finite float (used after [isfinite] has been tested). *)
Definition fin_val (x : ExtR) : R :=
  match x with Fin r => r | _ => 0 end.

(** [np.log] on a real argument: [-inf] at zero, [nan] below it. *)
Definition np_log (x : R) : ExtR :=
  if Rlt_dec 0 x then Fin (ln x)
  else if Req_dec_T x 0 then NegInf else NaN.

(** Python exceptions that the modelled code raises or lets through. *)
Inductive exn : Type :=
| RuntimeError (msg : string)
| IndexError
| ValueError
| ZeroDivisionError
| LinAlgError.

(** A computation that returns or raises. *)
Definition res (A : Type) : Type := exn + A.

Definition ret {A} (a : A) : res A := inr a.
Definition raise {A} (e : exn) : res A := inl e.
Definition bind {A B} (m : res A) (k : A -> res B) : res B :=
  match m with
  | inl e => inl e
  | inr a => k a
  end.

Notation "x <- m ;; k" := (bind m (fun x => k))
  (at level 100, m at next level, right associativity).

Definition raises {A} (m : res A) : Prop := exists e, m = inl e.
Definition returns {A} (m : res A) : Prop := exists a, m = inr a.

(** Boolean tests on reals. *)
Definition Reqb (x y : R) : bool := if Req_dec_T x y then true else false.
Definition Rleb (x y : R) : bool := if Rle_dec x y then true else false.
Definition Rltb (x y : R) : bool := if Rlt_dec x y then true else false.

(** ** pdfs.py *)

Module Pdfs.

(** *** class Uniform *)

Record Uniform : Type := mkUniform { lower : R; upper : R }.

(** [Uniform.__init__]: the two assignments. *)
Definition Uniform_init (lower upper : R) : res Uniform :=
  ret {| lower := lower; upper := upper |}.

(** [Uniform.log_pdf_eval].  [1 / (self.upper - self.lower)] divides two
    attributes of the object, Python numbers: a zero divisor raises. *)
Definition Uniform_log_pdf_eval (self : Uniform) (x : R) : res ExtR :=
  if Rleb ((x - upper self) * (x - lower self)) 0 then
    if Reqb (upper self - lower self) 0 then raise ZeroDivisionError
    else ret (np_log (1 / (upper self - lower self)))
  else ret NegInf.

(** *** class Halfnormal *)

Record Halfnormal : Type := mkHalfnormal { hn_sig : R }.

Definition Halfnormal_init (sig : R) : res Halfnormal :=
  ret {| hn_sig := sig |}.

(** [Halfnormal.log_pdf_eval].  The sum is finite when [np.log(self.sig)]
    is, and [nan] otherwise (a negative [sig]; a zero [sig] stops at the
    division). *)
Definition Halfnormal_log_pdf_eval (self : Halfnormal) (x : R) : res ExtR :=
  let sig := hn_sig self in
  if Rleb 0 x then
    if Reqb (2 * sig * sig) 0 then raise ZeroDivisionError
    else
      match np_log sig with
      | Fin l => ret (Fin (- l + 0.5 * ln (2 / PI) - (x * x) / (2 * sig * sig)))
      | _ => ret NaN
      end
  else ret NegInf.

(** *** class TrunNormal *)

Record TrunNormal : Type :=
  mkTrunNormal { tn_mu : R; tn_sig : R; tn_a : R; tn_b : R }.

Definition TrunNormal_init (mu sig a b : R) : res TrunNormal :=
  ret {| tn_mu := mu; tn_sig := sig; tn_a := a; tn_b := b |}.

(** *** class TruncatedExponentialDist *)

Section TruncatedExponential.

(** The frozen scipy distribution, and [stats.truncexpon(b, loc, scale)]
    that builds it. *)
Variable frozen : Type.
Variable stats_truncexpon : R -> R -> R -> res frozen.

Record TruncatedExponentialDist : Type := mkTruncExp {
  te_lower : R;
  te_upper : R;
  te_lamda : R;
  te_scale : R;
  te_loc : R;
  te_b : R;
  te_dist : frozen
}.

Definition TruncatedExponentialDist_init (lamda lower upper : R)
  : res TruncatedExponentialDist :=
  if Reqb lamda 0 then raise ZeroDivisionError
  else
    let scale := 1 / lamda in
    let loc := lower in
    if Reqb scale 0 then raise ZeroDivisionError
    else
      let b := (upper - lower) / scale in
      dist <- stats_truncexpon b loc scale ;;
      ret {| te_lower := lower; te_upper := upper; te_lamda := lamda;
             te_scale := scale; te_loc := loc; te_b := b; te_dist := dist |}.

End TruncatedExponential.

(** *** class Normal *)

Record Normal : Type := mkNormal { n_mu : R; n_sig : R }.

Definition Normal_init (mu sig : R) : res Normal :=
  ret {| n_mu := mu; n_sig := sig |}.

(** [Normal.log_pdf_eval], for Python numbers: [np.log(self.sig)] is [nan]
    below zero, and a zero [sig] stops at the division. *)
Definition Normal_log_pdf_eval (self : Normal) (x : R) : res ExtR :=
  if Reqb (n_sig self) 0 then raise ZeroDivisionError
  else
    match np_log (n_sig self) with
    | Fin l =>
        ret (Fin (- 0.5 * ln (2 * PI) - l
                  - 0.5 * ((x - n_mu self) / n_sig self) ^ 2))
    | _ => ret NaN
    end.

(** *** generate_rns *)

Section Sampling.

(** The arrays that [np.random.rand(N)] and [np.random.randn(N)] return. *)
Variable random_rand : nat -> list R.
Variable random_randn : nat -> list R.

Definition Uniform_generate_rns (self : Uniform) (N : nat) : list R :=
  map (fun r => (upper self - lower self) * r + lower self) (random_rand N).

Definition Halfnormal_generate_rns (self : Halfnormal) (N : nat) : list R :=
  map (fun z => hn_sig self * Rabs z) (random_randn N).

Definition Normal_generate_rns (self : Normal) (N : nat) : list R :=
  map (fun z => n_sig self * z + n_mu self) (random_randn N).

End Sampling.

End Pdfs.

(** ** numpy arrays *)

Abbreviation vec := (list R).
Abbreviation mat := (list (list R)).

(** A two-dimensional array: its shape and its rows. *)
Record array2 : Type := mkArr { dim0 : nat; dim1 : nat; rows : mat }.

(** An array by its number of dimensions; [Tensor] is any array of more
    than two. *)
Inductive ndarray : Type :=
| Scalar (x : R)
| Vec (v : vec)
| Mat (a : array2)
| Tensor.

Definition Rsum (l : vec) : R := fold_right Rplus 0 l.
Definition Rprod (l : vec) : R := fold_right Rmult 1 l.

(** The sum of [f 0], ..., [f (n - 1)]. *)
Fixpoint Rsum_n (n : nat) (f : nat -> R) : R :=
  match n with
  | O => 0
  | S k => Rsum_n k f + f k
  end.

Definition enumerate {A} (l : list A) : list (nat * A) :=
  zip (seq 0 (length l)) l.

(** Python's [range(a, b)]. *)
Definition range (a b : nat) : list nat := seq a (b - a).

(** [M[i, j]] read without a bounds check (used where the index is in range
    by construction). *)
Definition mat_at (M : mat) (i j : nat) : R := nth j (nth i M []) 0.

(** [M[i, j]] and [M[i, j] = v] with numpy's bounds check. *)
Definition mget (M : mat) (i j : nat) : res R :=
  match M !! i with
  | Some r => match r !! j with
              | Some x => ret x
              | None => raise IndexError
              end
  | None => raise IndexError
  end.

Definition mset (M : mat) (i j : nat) (v : R) : res mat :=
  match M !! i with
  | Some r => if (j <? length r)%nat then ret (<[i := <[j := v]> r]> M)
              else raise IndexError
  | None => raise IndexError
  end.

(** [np.zeros([n, m])], [np.identity(n)]. *)
Definition zeros (n m : nat) : array2 := mkArr n m (replicate n (replicate m 0)).

Definition identity (n : nat) : mat :=
  map (fun i => map (fun j => if (i =? j)%nat then 1 else 0) (seq 0 n)) (seq 0 n).

(** [X[:, i]], [Z[i, :]] and the assignments to them. *)
Definition col (a : array2) (i : nat) : vec := map (fun r => nth i r 0) (rows a).
Definition row (a : array2) (i : nat) : vec := nth i (rows a) [].

Definition set_row (a : array2) (i : nat) (v : vec) : array2 :=
  mkArr (dim0 a) (dim1 a) (<[i := v]> (rows a)).

Definition set_col (a : array2) (i : nat) (v : vec) : array2 :=
  mkArr (dim0 a) (dim1 a) (zip_with (fun r x => <[i := x]> r) (rows a) v).

(** [a.T]. *)
Definition transpose (a : array2) : array2 :=
  mkArr (dim1 a) (dim0 a) (map (col a) (seq 0 (dim1 a))).

Definition ndT (x : ndarray) : ndarray :=
  match x with
  | Mat a => Mat (transpose a)
  | _ => x
  end.

(** [np.array(X, ndmin=2)]; [None] when the result has more than two
    dimensions. *)
Definition array_ndmin2 (X : ndarray) : option array2 :=
  match X with
  | Scalar x => Some (mkArr 1 1 [[x]])
  | Vec v => Some (mkArr 1 (length v) [v])
  | Mat a => Some a
  | Tensor => None
  end.

(** [np.squeeze]: the axes of length one are dropped. *)
Definition squeeze2 (a : array2) : ndarray :=
  if (dim0 a =? 1)%nat && (dim1 a =? 1)%nat then Scalar (mat_at (rows a) 0 0)
  else if (dim0 a =? 1)%nat then Vec (row a 0)
  else if (dim1 a =? 1)%nat then Vec (col a 0)
  else Mat a.

Definition squeeze (x : ndarray) : ndarray :=
  match x with
  | Scalar x => Scalar x
  | Vec v => if (length v =? 1)%nat then Scalar (nth 0 v 0) else Vec v
  | Mat a => squeeze2 a
  | Tensor => Tensor
  end.

(** The inner product of two vectors. *)
Definition vdot (a b : vec) : R := Rsum (zip_with Rmult a b).

(** [A @ U] and [np.dot(A, U)] for a matrix [A] and a two-dimensional [U]
    whose first dimension is the number of columns of [A]. *)
Definition matmul (A : mat) (U : array2) : array2 :=
  mkArr (length A) (dim1 U)
        (map (fun a => map (fun k => vdot a (col U k)) (seq 0 (dim1 U))) A).

(** [A @ u] for a vector. *)
Definition matvec (A : mat) (u : vec) : vec := map (fun a => vdot a u) A.

(** [np.tile(v, n)], [np.tile(v, [n, 1])], [np.reshape(l, [r, c])],
    [a.flatten()] and [a.flatten(order='F')]. *)
Definition tile (v : vec) (n : nat) : vec := concat (replicate n v).
Definition tile_rows (v : vec) (n : nat) : array2 :=
  mkArr n (length v) (replicate n v).
Definition reshape2 (l : vec) (r c : nat) : array2 :=
  mkArr r c (map (fun i => take c (drop (i * c) l)) (seq 0 r)).
Definition flatten (a : array2) : vec := concat (rows a).
Definition flatten_F (a : array2) : vec := concat (rows (transpose a)).

(** [np.linalg.norm] of a two-dimensional array (Frobenius). *)
Definition norm_fro (M : mat) : R := sqrt (Rsum (map (fun x => x * x) (concat M))).

Definition mat_sub (M N : mat) : mat := zip_with (zip_with Rminus) M N.

(** The quadratic form of a square matrix at a vector, and positive
    definiteness: the form is positive at every vector that is not zero. *)
Definition quad_form (C : mat) (x : nat -> R) : R :=
  Rsum_n (length C)
    (fun i => Rsum_n (length C) (fun j => x i * mat_at C i j * x j)).

Definition positive_definite (C : mat) : Prop :=
  forall x : nat -> R,
    (exists i, (i < length C)%nat /\ x i <> 0) -> 0 < quad_form C x.

(** [np.finfo(float).eps] and [np.finfo(np.double).tiny]. *)
Definition float_eps : R := / 2 ^ 52.
Definition realmin : R := / 2 ^ 1022.

(** ** pdfs.py: the classes on arrays *)

Module PdfsArrays.

(** Subtraction of floats. *)
Definition ext_sub (a b : ExtR) : ExtR :=
  match a, b with
  | Fin x, Fin y => Fin (x - y)
  | NaN, _ | _, NaN => NaN
  | PosInf, PosInf | NegInf, NegInf => NaN
  | PosInf, _ | _, NegInf => PosInf
  | NegInf, _ | _, PosInf => NegInf
  end.

(** [np.cumsum]. *)
Fixpoint cumsum_from (acc : R) (l : vec) : vec :=
  match l with
  | [] => []
  | x :: l' => (acc + x) :: cumsum_from (acc + x) l'
  end.

Definition cumsum (l : vec) : vec := cumsum_from 0 l.

(** [np.where(a <= c)[0]]: the indices of the entries that are at most
    [c], in increasing order. *)
Definition where_le (a : vec) (c : R) : list nat :=
  map fst (filter (fun kx => Rleb kx.2 c = true) (enumerate a)).

(** *** class DiscreteDist *)

(** The attributes that the methods modelled read; the random generator
    [self.rng] is left out. *)
Record DiscreteDist : Type := mkDiscrete {
  dd_values : vec;
  dd_weights : vec;
  dd_probabilities : vec;
  dd_log_probabilities : list ExtR
}.

(** [DiscreteDist.__init__], on arrays of floats.  The division is the one
    of the reals, which is numpy's when [np.sum(self.weights)] is not zero;
    for a zero sum numpy fills [self.probabilities] with [nan] and [inf],
    which this model does not give: what is proved of the values of the
    probabilities assumes a positive sum. *)
Definition DiscreteDist_init (values weights : vec) : res DiscreteDist :=
  ret {| dd_values := values;
         dd_weights := weights;
         dd_probabilities := map (fun w => w / Rsum weights) weights;
         dd_log_probabilities :=
           map (fun w => ext_sub (np_log w) (np_log (Rsum weights))) weights |}.

Section DiscreteU2X.

(** [stats.norm.cdf]. *)
Variable norm_cdf : R -> R.

(** The array [cumsum_prob] of [U2X]: the cumulative sums, a zero put in
    front and the last one dropped. *)
Definition cumsum_prob (self : DiscreteDist) : vec :=
  removelast (0 :: cumsum (dd_probabilities self)).

(** The loop of [DiscreteDist.U2X]: [[-1]] on an empty array of indices and
    an index past the end of [self.values] raise [IndexError]. *)
Fixpoint U2X_loop (self : DiscreteDist) (cp : vec) (u : vec) : res vec :=
  match u with
  | [] => ret []
  | u_comp :: u' =>
      let cdf_val := norm_cdf u_comp in
      match last (where_le cp cdf_val) with
      | None => raise IndexError
      | Some k =>
          match dd_values self !! k with
          | None => raise IndexError
          | Some v =>
              rest <- U2X_loop self cp u' ;;
              ret (v :: rest)
          end
      end
  end.

(** [DiscreteDist.U2X], on an array of floats. *)
Definition DiscreteDist_U2X (self : DiscreteDist) (u : vec) : res vec :=
  U2X_loop self (cumsum_prob self) u.

End DiscreteU2X.

End PdfsArrays.

(** ** ERANataf.py *)

Module Nataf.

(** Modelled from the spec: class [ERADist] (ERAClasses/ERADist.py) is not
    among the source files.  A marginal is what [ERANataf] reads of it: the
    attribute [Name], the moments [mean()] and [std()], and the functions
    [cdf], [icdf] and [pdf], applied to an array entry by entry. *)
Record ERADist : Type := mkDist {
  Name : string;
  mean : ExtR;
  std : ExtR;
  cdf : R -> R;
  icdf : R -> R;
  pdf : R -> R
}.

(** The routines of numpy and scipy that [ERANataf] calls. *)
Class NumLib : Type := {
  (** [np.linalg.cholesky]; [None] stands for [LinAlgError]. *)
  cholesky : mat -> option mat;
  (** [np.linalg.solve(A, b)]. *)
  solve : mat -> ndarray -> res ndarray;
  (** [np.polynomial.legendre.leggauss]: points and weights. *)
  leggauss : nat -> vec * vec;
  (** [stats.norm.cdf], [stats.norm.ppf], [stats.norm.pdf]. *)
  norm_cdf : R -> R;
  norm_ppf : R -> R;
  norm_pdf : R -> R;
  (** [optimize.brentq(f, a, b, full_output=True)]: the root and
      [r.converged], or the exception of the routine (SciPy raises when
      [f] has one sign at both ends, and under its default [disp=True] also
      when the iteration does not converge; the constructor nevertheless
      branches on [r.converged], and that branch is modelled as written). *)
  brentq : (R -> R) -> R -> R -> res (R * bool);
  (** [optimize.fsolve(func, x0, full_output=True)]: [sol[0]] and the flag
      [sol[2]]. *)
  fsolve : (R -> R) -> R -> R * Z;
  (** The k-th value that [np.random.rand()] returns. *)
  rand : nat -> R;
  (** [np.random.randn(d, n)] when k values have been drawn. *)
  randn : nat -> nat -> nat -> mat;
  (** [stats.multivariate_normal.pdf] and [.cdf] at the rows of [U]. *)
  mvn_pdf : array2 -> vec -> mat -> ndarray;
  mvn_cdf : array2 -> vec -> mat -> ndarray
}.

(** The object that [__init__] leaves behind. *)
Record ERANataf : Type := mkNataf {
  Marginals : list ERADist;
  Rho_X : mat;
  Rho_Z : mat;
  A : mat
}.

(** The messages of the errors raised. *)
Definition msg_moments : string :=
  "The marginal distributions need to have finite mean and variance".
Definition msg_X_not_pd : string :=
  "The given correlation matrix is not positive definite--> Nataf transformation is not applicable.".
Definition msg_X_not_symmetric : string :=
  "The given correlation matrix is not symmetric --> Nataf transformation is not applicable.".
Definition msg_X_diagonal : string :=
  "Not all diagonal entries of the given correlation matrix are equal to one --> Nataf transformation is not applicable.".
Definition msg_no_solution : string :=
  "brentq and fsolve could not converge to a solution of the Nataf integral equation".
Definition msg_Z_not_pd : string :=
  "Transformed correlation matrix is not positive definite --> Nataf transformation is not applicable.".
Definition msg_discrete : string :=
  "At least one of the marginal distributions is a discrete distribution,the transformation X2U is therefore not possible.".
Definition msg_ndim (name : string) : string :=
  name +:+ " must have not more than two dimensions. ".
Definition msg_ndim_pdf : string :=
  "X must have not more than two dimensions.".
Definition msg_shape (name : string) : string :=
  name +:+ " must be an array of size [n,d], where d is the number of dimensions of the joint distribution.".

(** The errors on the correlation matrix given to the constructor. *)
Definition invalid_correlation (e : exn) : Prop :=
  e = RuntimeError msg_X_not_pd \/
  e = RuntimeError msg_X_not_symmetric \/
  e = RuntimeError msg_X_diagonal.

(** The error of [X2U] and [pdf] on a discrete marginal. *)
Definition unsupported_operation (e : exn) : Prop :=
  e = RuntimeError msg_discrete.

(** A call of a root finder while the matrix is filled: the values of the
    variables [i] and [j] at the call and, for [fsolve], the seed. *)
Inductive solver_call : Type :=
| CallBrentq (i j : nat)
| CallFsolve (i j : nat) (x0 : R)
| CallRestart (i j : nat) (x0 : R).

Definition is_restart (c : solver_call) : bool :=
  match c with CallRestart _ _ _ => true | _ => false end.

Definition call_pair (c : solver_call) : nat * nat :=
  match c with
  | CallBrentq i j | CallFsolve i j _ | CallRestart i j _ => (i, j)
  end.

(** What changes while the matrix is filled: [self.Rho_Z], the number of
    values drawn from [np.random.rand] and (not in the source) the calls of
    the root finders, the latest first. *)
Record fill_state : Type := mkFill {
  fRho_Z : mat;
  rng : nat;
  calls : list solver_call
}.

(** A list of calls without a random restart. *)
Definition clean (cs : list solver_call) : Prop :=
  Forall (fun c => is_restart c = false) cs.

(** The entries other than [(i, j)] and [(j, i)] are the same in [Z] and
    [Z']. *)
Definition frame (i j : nat) (Z Z' : mat) : Prop :=
  forall a b, ~ (a = i /\ b = j) -> ~ (a = j /\ b = i) ->
              mat_at Z' a b = mat_at Z a b.

(** The entries [(a, b)] and [(b, a)] are the same in [Z] and [Z']. *)
Definition same_pair (a b : nat) (Z Z' : mat) : Prop :=
  mat_at Z' a b = mat_at Z a b /\ mat_at Z' b a = mat_at Z b a.

(** Every call in the list is for a pair whose correlation in [C] is not
    zero. *)
Definition calls_for_nonzero (C : mat) (cs : list solver_call) : Prop :=
  Forall (fun c => mat_at C (call_pair c).1 (call_pair c).2 <> 0) cs.

Definition with_Rho_Z (st : fill_state) (Z : mat) : fill_state :=
  {| fRho_Z := Z; rng := rng st; calls := calls st |}.

Definition log_call (st : fill_state) (c : solver_call) : fill_state :=
  {| fRho_Z := fRho_Z st; rng := rng st; calls := c :: calls st |}.

(** What one pass through the loop body does when the run stays clean: the
    variable [i] keeps its value, only the entries [(i, j)] and [(j, i)]
    may change, and the state before was clean. *)
Definition body_effect (i j : nat) (st : fill_state) (out : nat * fill_state)
  : Prop :=
  out.1 = i /\ frame i j (fRho_Z st) (fRho_Z out.2) /\ clean (calls st).

Definition is_name (n : string) (m : ERADist) : bool := String.eqb (Name m) n.

(** The test of the branch that copies the correlation: both marginals are
    named [standardnormal], or both are named [normal]. *)
Definition both_normal (mi mj : ERADist) : bool :=
  (is_name "standardnormal" mi && is_name "standardnormal" mj)
  || (is_name "normal" mi && is_name "normal" mj).

(** [staticmethod bivariateNormalPdf]. *)
Definition bivariateNormalPdf (x1 x2 rho : R) : R :=
  1 / (2 * PI * sqrt (1 - rho ^ 2))
  * exp (-1 / (2 * (1 - rho ^ 2)) * (x1 ^ 2 - 2 * rho * x1 * x2 + x2 ^ 2)).

Section Construction.

Context {lib : NumLib}.

(** *** The quadrature arrays *)

Definition quad_n : nat := 1024.
Definition zmax : R := 8.
Definition zmin : R := - zmax.

Definition points : vec :=
  map (fun p => - (0.5 * (p + 1) * (zmax - zmin) + zmin)) (leggauss quad_n).1.
Definition weights : vec :=
  map (fun w => w * (0.5 * (zmax - zmin))) (leggauss quad_n).2.

Definition xi : vec := flatten_F (tile_rows points quad_n).
Definition eta : vec := tile points quad_n.

Definition first : array2 := reshape2 (tile weights quad_n) quad_n quad_n.
Definition second : array2 := transpose first.
Definition weights2d : mat :=
  zip_with (zip_with Rmult) (rows first) (rows second).
Definition w2d : vec := concat weights2d.

(** [(m.icdf(stats.norm.cdf(z)) - m.mean()) / m.std()]. *)
Definition standardized (m : ERADist) (z : vec) : vec :=
  map (fun t => (icdf m (norm_cdf t) - fin_val (mean m)) / fin_val (std m)) z.

(** [coef = tmp_f_xi * tmp_f_eta * w2d]. *)
Definition coef (mi mj : ERADist) : vec :=
  let tmp_f_xi := standardized mj eta in
  let tmp_f_eta := standardized mi xi in
  zip_with Rmult (zip_with Rmult tmp_f_xi tmp_f_eta) w2d.

(** The closure [fun]: [target] is [self.Rho_X[i, j]] for the value that the
    variable [i] has when [fun] is called. *)
Definition nataf_fun (c : vec) (target : R) (rho0 : R) : R :=
  Rsum (zip_with Rmult c
          (zip_with (fun x1 x2 => bivariateNormalPdf x1 x2 rho0) xi eta))
  - target.

(** *** Filling [self.Rho_Z] *)

Variable M : list ERADist.
Variable Correlation : mat.

Definition n_dist : nat := length M.

Definition marginal (i : nat) : res ERADist :=
  match M !! i with
  | Some m => ret m
  | None => raise IndexError
  end.

(** [self.Rho_Z[i, j] = v] followed by
    [self.Rho_Z[j, i] = self.Rho_Z[i, j]]. *)
Definition set_pair (Z : mat) (i j : nat) (v : R) : res mat :=
  Z1 <- mset Z i j v ;;
  x <- mget Z1 i j ;;
  mset Z1 j i x.

(** [for i in range(10)]: the loop of random seeds.  It assigns the
    variable [i] of the enclosing loops; [fun] then reads
    [self.Rho_X[i, j]] at that [i].  The result is the value of [i] and of
    [sol] when the loop is left. *)
Fixpoint restart_loop (j : nat) (c : vec) (ks : list nat)
    (i : nat) (sol : R * Z) (st : fill_state)
  : res (nat * (R * Z) * fill_state) :=
  match ks with
  | [] => ret (i, sol, st)
  | k :: ks' =>
      let init := 2 * rand (rng st) - 1 in
      target <- mget Correlation k j ;;
      let sol' := fsolve (nataf_fun c target) init in
      let st' := {| fRho_Z := fRho_Z st; rng := S (rng st);
                    calls := CallRestart k j init :: calls st |} in
      if (sol'.2 =? 1)%Z then ret (k, sol', st')
      else restart_loop j c ks' k sol' st'
  end.

(** The part of the loop body under [#  solving Nataf]. *)
Definition solve_pair (i j : nat) (mi mj : ERADist) (rij : R)
    (st : fill_state) : res (nat * fill_state) :=
  let c := coef mi mj in
  let f := nataf_fun c rij in
  r <- brentq f (-1 + float_eps) (1 - float_eps) ;;
  let st := log_call st (CallBrentq i j) in
  if r.2 then
    Z' <- set_pair (fRho_Z st) i j r.1 ;;
    ret (i, with_Rho_Z st Z')
  else
    let sol := fsolve f rij in
    let st := log_call st (CallFsolve i j rij) in
    if (sol.2 =? 1)%Z then
      Z' <- set_pair (fRho_Z st) i j sol.1 ;;
      ret (i, with_Rho_Z st Z')
    else
      let sol := fsolve f (- rij) in
      let st := log_call st (CallFsolve i j (- rij)) in
      if (sol.2 =? 1)%Z then
        Z' <- set_pair (fRho_Z st) i j sol.1 ;;
        ret (i, with_Rho_Z st Z')
      else
        out <- restart_loop j c (range 0 10) i sol st ;;
        let i := out.1.1 in
        let sol := out.1.2 in
        let st := out.2 in
        if (sol.2 =? 1)%Z then
          Z' <- set_pair (fRho_Z st) i j sol.1 ;;
          ret (i, with_Rho_Z st Z')
        else raise (RuntimeError msg_no_solution).

(** The body of [for j in range(i + 1, n_dist)]; it returns the value of
    the variable [i] at its end. *)
Definition fill_body (i j : nat) (st : fill_state) : res (nat * fill_state) :=
  rij <- mget Correlation i j ;;
  if Reqb rij 0 then ret (i, st)
  else
    mi <- marginal i ;;
    mj <- marginal j ;;
    if both_normal mi mj then
      Z1 <- mset (fRho_Z st) i j rij ;;
      rji <- mget Correlation j i ;;
      Z2 <- mset Z1 j i rji ;;
      ret (i, with_Rho_Z st Z2)
    else if is_name "normal" mi && is_name "lognormal" mj then
      let Vj := fin_val (std mj) / fin_val (mean mj) in
      Z' <- set_pair (fRho_Z st) i j (rij * Vj / sqrt (ln (1 + Vj ^ 2))) ;;
      ret (i, with_Rho_Z st Z')
    else if is_name "lognormal" mi && is_name "normal" mj then
      let Vi := fin_val (std mi) / fin_val (mean mi) in
      Z' <- set_pair (fRho_Z st) i j (rij * Vi / sqrt (ln (1 + Vi ^ 2))) ;;
      ret (i, with_Rho_Z st Z')
    else if is_name "lognormal" mi && is_name "lognormal" mj then
      let Vi := fin_val (std mi) / fin_val (mean mi) in
      let Vj := fin_val (std mj) / fin_val (mean mj) in
      Z' <- set_pair (fRho_Z st) i j
              (ln (1 + rij * Vi * Vj)
               / sqrt (ln (1 + Vi ^ 2) * ln (1 + Vj ^ 2))) ;;
      ret (i, with_Rho_Z st Z')
    else solve_pair i j mi mj rij st.

(** [for j in range(i + 1, n_dist)], over the values [js] that remain. *)
Fixpoint inner_loop (js : list nat) (i : nat) (st : fill_state)
  : res (nat * fill_state) :=
  match js with
  | [] => ret (i, st)
  | j :: js' =>
      out <- fill_body i j st ;;
      inner_loop js' out.1 out.2
  end.

(** [for i in range(n_dist)], over the values [rest] that remain. *)
Fixpoint outer_loop (rest : list nat) (st : fill_state) : res fill_state :=
  match rest with
  | [] => ret st
  | i :: rest' =>
      out <- inner_loop (range (i + 1) n_dist) i st ;;
      outer_loop rest' out.2
  end.

(** *** The checks of the constructor *)

Definition finite_moments : bool :=
  forallb (fun m => isfinite (mean m) && isfinite (std m)) M.

(** [np.all(self.Rho_X - self.Rho_X.T == 0)]. *)
Definition all_symmetric (C : mat) : bool :=
  forallb (fun i =>
    forallb (fun j => Reqb (mat_at C i j - mat_at C j i) 0) (seq 0 (length C)))
    (seq 0 (length C)).

(** [np.all(np.diag(self.Rho_X) == 1)]. *)
Definition unit_diagonal (C : mat) : bool :=
  forallb (fun i => Reqb (mat_at C i i) 1) (seq 0 (length C)).

(** [np.linalg.norm(self.Rho_X - np.identity(n=n_dist)) > 10 ** (-5)]. *)
Definition far_from_identity : bool :=
  Rltb (/ 10 ^ 5) (norm_fro (mat_sub Correlation (identity n_dist))).

(** [__init__] up to the factorization of [self.Rho_Z]: the state after
    the fill, for the number [rng0] of random values drawn so far.
    [Correlation] is taken of the shape [d, d] that the docstring asks
    for. *)
Definition init_fill (rng0 : nat) : res fill_state :=
  if negb finite_moments then raise (RuntimeError msg_moments)
  else
    match cholesky Correlation with
    | None => raise (RuntimeError msg_X_not_pd)
    | Some _ =>
        if negb (all_symmetric Correlation) then
          raise (RuntimeError msg_X_not_symmetric)
        else if negb (unit_diagonal Correlation) then
          raise (RuntimeError msg_X_diagonal)
        else
          let st := {| fRho_Z := identity n_dist; rng := rng0; calls := [] |} in
          if far_from_identity then outer_loop (range 0 n_dist) st
          else ret st
    end.

(** [ERANataf.__init__], with the state in which the fill ended. *)
Definition construct (rng0 : nat) : res (ERANataf * fill_state) :=
  st <- init_fill rng0 ;;
  match cholesky (fRho_Z st) with
  | None => raise (RuntimeError msg_Z_not_pd)
  | Some L =>
      ret ({| Marginals := M; Rho_X := Correlation;
              Rho_Z := fRho_Z st; A := L |}, st)
  end.

(** [ERANataf(M, Correlation)]. *)
Definition ERANataf_init (rng0 : nat) : res ERANataf :=
  out <- construct rng0 ;;
  ret out.1.

End Construction.

Arguments coef : simpl never.
Arguments nataf_fun : simpl never.

Section Methods.

Context {lib : NumLib}.
Variable self : ERANataf.

Definition discrete_names : list string :=
  ["binomial"; "geometric"; "negativebinomial"; "poisson"].

Definition is_discrete (m : ERADist) : bool :=
  existsb (String.eqb (Name m)) discrete_names.

(** [# check if all marginal distributions are continuous]. *)
Definition check_continuous : res unit :=
  if existsb is_discrete (Marginals self) then
    raise (RuntimeError msg_discrete)
  else ret tt.

(** [# check of the dimensions of input X]: the array as the method goes on
    to use it, a single point given as a column turned into a row. *)
Definition check_dims (X : ndarray) (ndim_msg shape_msg : string)
  : res array2 :=
  let n_dim := length (Marginals self) in
  match array_ndmin2 X with
  | None => raise (RuntimeError ndim_msg)
  | Some X =>
      let X := if (dim1 X =? 1)%nat && negb (n_dim =? 1)%nat
               then transpose X else X in
      if negb (dim1 X =? n_dim)%nat then raise (RuntimeError shape_msg)
      else ret X
  end.

(** [Z[i, :] = stats.norm.ppf(self.Marginals[i].cdf(X[:, i]))] for every
    [i] in [range(n_dim)], from [Z0]. *)
Definition to_normal_rows (X Z0 : array2) : array2 :=
  fold_left
    (fun Z im => set_row Z im.1 (map (fun x => norm_ppf (cdf im.2 x)) (col X im.1)))
    (enumerate (Marginals self)) Z0.

(** [U[:, i] = stats.norm.ppf(self.Marginals[i].cdf(X[:, i]))], the loop
    of [pdf] and [cdf]. *)
Definition to_normal_cols (X U0 : array2) : array2 :=
  fold_left
    (fun U im => set_col U im.1 (map (fun x => norm_ppf (cdf im.2 x)) (col X im.1)))
    (enumerate (Marginals self)) U0.

(** [X[:, i] = self.Marginals[i].icdf(stats.norm.cdf(Z[i, :]))] for every
    [i] in [range(n_dim)], from [X0]. *)
Definition to_physical_cols (Z X0 : array2) : array2 :=
  fold_left
    (fun X im => set_col X im.1 (map (fun z => icdf im.2 (norm_cdf z)) (row Z im.1)))
    (enumerate (Marginals self)) X0.

(** The standard normal image of one point [x], coordinate by coordinate:
    [stats.norm.ppf(self.Marginals[i].cdf(x[i]))]. *)
Definition normal_image (x : vec) : vec :=
  map (fun im => norm_ppf (cdf im.2 (nth im.1 x 0))) (enumerate (Marginals self)).

(** [X[0, i]]: the first point, with numpy's bounds check. *)
Definition first_point (X : array2) (i : nat) : res R := mget (rows X) 0 i.

(** The diagonal matrix of a Jacobian: [entry i m] is [diag[i, i]]. *)
Fixpoint diag_loop (entry : nat -> ERADist -> res R)
    (ims : list (nat * ERADist)) (d : mat) : res mat :=
  match ims with
  | [] => ret d
  | im :: ims' =>
      v <- entry im.1 im.2 ;;
      d' <- mset d im.1 im.1 v ;;
      diag_loop entry ims' d'
  end.

(** [ERANataf.X2U]: the array returned and, for [Jacobian=True], the
    Jacobian. *)
Definition X2U (X : ndarray) (Jacobian : bool)
  : res (ndarray * option ndarray) :=
  let n_dim := length (Marginals self) in
  _ <- check_continuous ;;
  X <- check_dims X (msg_ndim "X") (msg_shape "X") ;;
  let Z := to_normal_rows X (zeros (dim1 X) (dim0 X)) in
  U0 <- solve (A self) (squeeze2 Z) ;;
  let U := ndT U0 in
  if Jacobian then
    d <- diag_loop
           (fun i m =>
              x <- first_point X i ;;
              z <- mget (rows Z) i 0 ;;
              ret (pdf m x / norm_pdf z))
           (enumerate (Marginals self)) (rows (zeros n_dim n_dim)) ;;
    Jac <- solve (A self) (Mat (mkArr n_dim n_dim d)) ;;
    ret (squeeze U, Some Jac)
  else ret (squeeze U, None).

(** [ERANataf.U2X]. *)
Definition U2X (U : ndarray) (Jacobian : bool)
  : res (ndarray * option ndarray) :=
  let n_dim := length (Marginals self) in
  U <- check_dims U (msg_ndim "U") (msg_shape "U") ;;
  let U := transpose U in
  let Z := matmul (A self) U in
  let X := to_physical_cols Z (zeros (dim1 U) (dim0 U)) in
  if Jacobian then
    d <- diag_loop
           (fun i m =>
              z <- mget (rows Z) i 0 ;;
              x <- first_point X i ;;
              ret (norm_pdf z / pdf m x))
           (enumerate (Marginals self)) (rows (zeros n_dim n_dim)) ;;
    let Jac := matmul d (mkArr n_dim n_dim (A self)) in
    ret (squeeze2 X, Some (Mat Jac))
  else ret (squeeze2 X, None).

(** [ERANataf.random] from the line after [U = np.random.randn(n_dim, n)]:
    what it does with the array [U] drawn, of shape [n_dim, n]. *)
Definition random_from (n : nat) (U : array2) : ndarray :=
  let n_dim := length (Marginals self) in
  let Z := matmul (A self) U in
  let jr := to_physical_cols Z (zeros n n_dim) in
  squeeze2 jr.

(** [ERANataf.random], when [k] random values have been drawn. *)
Definition random (n : nat) (k : nat) : ndarray :=
  let n_dim := length (Marginals self) in
  random_from n (mkArr n_dim n (randn k n_dim n)).

(** The first loop of [pdf]: the arrays [U], [phi] and [f]. *)
Definition pdf_arrays (X : array2) (init : array2 * array2 * array2)
  : array2 * array2 * array2 :=
  fold_left
    (fun acc im =>
       let U := set_col acc.1.1 im.1
                  (map (fun x => norm_ppf (cdf im.2 x)) (col X im.1)) in
       let phi := set_row acc.1.2 im.1 (map norm_pdf (col U im.1)) in
       let f := set_row acc.2 im.1 (map (pdf im.2) (col X im.1)) in
       (U, phi, f))
    (enumerate (Marginals self)) init.

(** [phi_n[i]], and [phi_n] itself when indexing raises [IndexError]. *)
Definition phi_n_at (phi_n : ndarray) (i : nat) : res R :=
  match phi_n with
  | Scalar x => ret x
  | Vec v => match v !! i with
             | Some x => ret x
             | None => raise ValueError
             end
  | _ => raise ValueError
  end.

(** [jointpdf[i] = (np.prod(f[:, i]) / (np.prod(phi[:, i]) + realmin)) * phi_n[i]]
    for the indices [idx]. *)
Fixpoint jointpdf_loop (f phi : array2) (phi_n : ndarray) (idx : list nat)
  : res vec :=
  match idx with
  | [] => ret []
  | i :: idx' =>
      p <- phi_n_at phi_n i ;;
      rest <- jointpdf_loop f phi phi_n idx' ;;
      ret (Rprod (col f i) / (Rprod (col phi i) + realmin) * p :: rest)
  end.

(** [ERANataf.pdf]. *)
Definition pdf_joint (X : ndarray) : res ndarray :=
  let n_dim := length (Marginals self) in
  _ <- check_continuous ;;
  X <- check_dims X msg_ndim_pdf (msg_shape "X") ;;
  let n_X := dim0 X in
  let arrays := pdf_arrays X (zeros n_X n_dim, zeros n_dim n_X, zeros n_dim n_X) in
  let U := arrays.1.1 in
  let phi := arrays.1.2 in
  let f := arrays.2 in
  let mu := replicate n_dim 0 in
  let phi_n := mvn_pdf U mu (Rho_Z self) in
  jointpdf <- jointpdf_loop f phi phi_n (seq 0 n_X) ;;
  if (length jointpdf =? 1)%nat then ret (Scalar (nth 0 jointpdf 0))
  else ret (Vec jointpdf).

(** [ERANataf.cdf]. *)
Definition cdf_joint (X : ndarray) : res ndarray :=
  let n_dim := length (Marginals self) in
  X <- check_dims X (msg_ndim "X") (msg_shape "X") ;;
  let n_X := dim0 X in
  let U := to_normal_cols X (zeros n_X n_dim) in
  let mu := replicate n_dim 0 in
  ret (mvn_cdf U mu (Rho_Z self)).

End Methods.

(** *** Further notions *)

(** A matrix that equals its transpose, entry by entry. *)
Definition symmetric (Z : mat) : Prop :=
  forall a b, mat_at Z a b = mat_at Z b a.

(** The shapes that the methods refuse for [d] marginals: a number when
    [d] is not 1, a one-dimensional array that has not [d] entries, and a
    two-dimensional array that has neither [d] columns nor the shape
    [d, 1] of one point given as a column. *)
Definition wrong_shape (d : nat) (X : ndarray) : Prop :=
  match X with
  | Scalar _ => d <> 1%nat
  | Vec v => length v <> d
  | Mat a => dim1 a <> d /\ ~ (dim1 a = 1%nat /\ dim0 a = d)
  | Tensor => False
  end.

(** [optimize.brentq] as the constructor calls it, without [disp=False]:
    under SciPy's default [disp=True] a search that does not converge
    raises [RuntimeError], so a call that returns has [r.converged] set. *)
Definition brentq_returns_converged (lib : NumLib) : Prop :=
  forall f a b x c, brentq f a b = ret (x, c) -> c = true.

Section Points.

Context {lib : NumLib}.
Variable self : ERANataf.

(** The image in physical space of one point [u] of standard normal
    space, coordinate by coordinate:
    [self.Marginals[i].icdf(stats.norm.cdf(self.A[i, :] @ u))]. *)
Definition physical_image (u : vec) : vec :=
  map (fun im => icdf im.2 (norm_cdf (vdot (nth im.1 (A self) []) u)))
      (enumerate (Marginals self)).

(** The body of the first loop of [pdf], as [pdf_arrays] has it. *)
Definition pdf_step (X : array2) (acc : array2 * array2 * array2)
    (im : nat * ERADist) : array2 * array2 * array2 :=
  let U := set_col acc.1.1 im.1
             (map (fun x => norm_ppf (cdf im.2 x)) (col X im.1)) in
  let phi := set_row acc.1.2 im.1 (map norm_pdf (col U im.1)) in
  let f := set_row acc.2 im.1 (map (pdf im.2) (col X im.1)) in
  (U, phi, f).

End Points.

End Nataf.

(** ** A library over the reals

    [np.linalg.cholesky] and [np.linalg.solve] computed in real arithmetic,
    the root finders and the random values given by a scenario.  It serves
    to run the constructor and the methods on concrete inputs. *)

Module RealLib.

Import Nataf.

Definition is_square (C : mat) : bool :=
  forallb (fun r => (length r =? length C)%nat) C.

(** The entries left of the diagonal of a row of the factor: [Ci] is the row
    of the matrix, [Ls] the rows of the factor still to be used, [j] the
    column reached, [acc] the entries found. *)
Fixpoint chol_row (Ci : vec) (Ls : mat) (j : nat) (acc : vec) : vec :=
  match Ls with
  | [] => acc
  | Lj :: Ls' =>
      chol_row Ci Ls' (S j) (acc ++ [(nth j Ci 0 - vdot acc Lj) / nth j Lj 0])
  end.

(** Cholesky-Banachiewicz, row by row: [Cs] are the rows still to factor,
    [L] the rows of the factor found; a pivot that is not positive stops the
    factorization. *)
Fixpoint chol_rows (d : nat) (Cs : mat) (L : mat) : option mat :=
  match Cs with
  | [] => Some L
  | Ci :: Cs' =>
      let i := length L in
      let acc := chol_row Ci L 0 [] in
      let p := nth i Ci 0 - vdot acc acc in
      if Rltb 0 p then
        chol_rows d Cs' (L ++ [acc ++ sqrt p :: replicate (d - S i) 0])
      else None
  end.

Definition cholesky_R (C : mat) : option mat :=
  if is_square C then chol_rows (length C) C [] else None.

(** What the rows [L] found so far are to the matrix [C] of [d] columns:
    rows of length [d], zero right of the diagonal, positive on it, and the
    products of the rows of [L] are the entries of [C] on and left of the
    diagonal. *)
Definition lower_ok (d : nat) (C L : mat) : Prop :=
  Forall (fun r => length r = d) L /\
  forall a, (a < length L)%nat ->
    (forall b, (a < b)%nat -> mat_at L a b = 0) /\
    0 < mat_at L a a /\
    forall b, (b <= a)%nat ->
      Rsum_n (S b) (fun k => mat_at L a k * mat_at L b k) = mat_at C a b.

(** Forward substitution for a lower-triangular system. *)
Fixpoint fwd_subst (L : mat) (b : vec) (acc : vec) : vec :=
  match L, b with
  | l :: L', bi :: b' =>
      fwd_subst L' b' (acc ++ [(bi - vdot acc l) / nth (length acc) l 0])
  | _, _ => acc
  end.

Definition nonzero_diagonal (L : mat) : bool :=
  forallb (fun i => negb (Reqb (mat_at L i i) 0)) (seq 0 (length L)).

(** [np.linalg.solve(L, b)] for the matrices that [ERANataf] passes, the
    lower-triangular [self.A]: a vector [b] is one right-hand side, a
    two-dimensional [b] has one in each column, and numpy refuses a [b]
    without dimensions or whose first dimension is not that of [L]. *)
Definition solve_R (L : mat) (b : ndarray) : res ndarray :=
  match b with
  | Scalar _ => raise ValueError
  | Vec v =>
      if negb (length v =? length L)%nat then raise ValueError
      else if negb (nonzero_diagonal L) then raise LinAlgError
      else ret (Vec (fwd_subst L v []))
  | Mat m =>
      if negb (dim0 m =? length L)%nat then raise ValueError
      else if negb (nonzero_diagonal L) then raise LinAlgError
      else ret (Mat (transpose
                  (mkArr (dim1 m) (dim0 m)
                     (map (fun k => fwd_subst L (col m k) []) (seq 0 (dim1 m))))))
  | Tensor => raise ValueError
  end.

(** A strictly increasing map of the reals onto (0, 1), its inverse and its
    derivative; they take the place of the standard normal distribution
    functions. *)
Definition sigmoid_cdf (z : R) : R := 1 / 2 + z / (2 * (1 + Rabs z)).
Definition sigmoid_ppf (p : R) : R := (2 * p - 1) / (1 - Rabs (2 * p - 1)).
Definition sigmoid_pdf (z : R) : R := 1 / (2 * (1 + Rabs z) ^ 2).

(** What a scenario fixes: the behaviour of the root finders and the values
    of [np.random.rand()]. *)
Record scenario : Type := mkScenario {
  s_brentq : (R -> R) -> R -> R -> res (R * bool);
  s_fsolve : (R -> R) -> R -> R * Z;
  s_rand : nat -> R
}.

Definition lib_of (s : scenario) : NumLib := {|
  cholesky := cholesky_R;
  solve := solve_R;
  leggauss := fun n => (replicate n 0, replicate n 0);
  norm_cdf := sigmoid_cdf;
  norm_ppf := sigmoid_ppf;
  norm_pdf := sigmoid_pdf;
  brentq := s_brentq s;
  fsolve := s_fsolve s;
  rand := s_rand s;
  randn := fun _ d n => replicate d (replicate n 0);
  mvn_pdf := fun U _ _ => Vec (replicate (dim0 U) 0);
  mvn_cdf := fun U _ _ => Vec (replicate (dim0 U) 0)
|}.

(** Brent's method converges at once. *)
Definition brent_converges : scenario := {|
  s_brentq := fun f a b => ret (0, true);
  s_fsolve := fun f x0 => (x0, 1%Z);
  s_rand := fun _ => 0
|}.

(** Brent's method converges to 0.6000000000001: a root within its
    tolerance of 0.6. *)
Definition brent_near_06 : scenario := {|
  s_brentq := fun f a b => ret (0.6000000000001, true);
  s_fsolve := fun f x0 => (x0, 1%Z);
  s_rand := fun _ => 0
|}.

(** Brent's method and [fsolve] from [rho] and [-rho] do not converge; the
    random seeds are -0.8 and then 0.3, and [fsolve] converges from 0.3
    only, to 0.6. *)
Definition restart_at_1 : scenario := {|
  s_brentq := fun f a b => ret (0, false);
  s_fsolve := fun f x0 => if Reqb x0 0.3 then (0.6, 1%Z) else (x0, 0%Z);
  s_rand := fun k => if (k =? 1)%nat then 0.65 else 0.1
|}.

(** Marginals for the concrete runs. *)
Definition uniform01 : ERADist := {|
  Name := "uniform";
  mean := Fin 0.5;
  std := Fin (sqrt (1 / 12));
  cdf := fun x => Rmax 0 (Rmin 1 x);
  icdf := fun p => p;
  pdf := fun x => if Rleb 0 x && Rleb x 1 then 1 else 0
|}.

Definition normal01 : ERADist := {|
  Name := "normal";
  mean := Fin 0;
  std := Fin 1;
  cdf := sigmoid_cdf;
  icdf := sigmoid_ppf;
  pdf := sigmoid_pdf
|}.

Definition standardnormal01 : ERADist := {|
  Name := "standardnormal";
  mean := Fin 0;
  std := Fin 1;
  cdf := sigmoid_cdf;
  icdf := sigmoid_ppf;
  pdf := sigmoid_pdf
|}.

(** Correlation matrices for the concrete runs: off-diagonal entries of
    1e-6, of 0.6, of 0.5, and three marginals of which only the first and
    the last are correlated. *)
Definition C_near : mat := [[1; 0.000001]; [0.000001; 1]].
Definition C_06 : mat := [[1; 0.6]; [0.6; 1]].
Definition C_05 : mat := [[1; 0.5]; [0.5; 1]].
Definition C_13 : mat := [[1; 0; 0.6]; [0; 1; 0]; [0.6; 0; 1]].

(** A marginal named [poisson], whatever its functions. *)
Definition poisson (c i p : R -> R) : ERADist := {|
  Name := "poisson";
  mean := Fin 3;
  std := Fin (sqrt 3);
  cdf := c;
  icdf := i;
  pdf := p
|}.

(** A marginal named [lognormal] with mean 1 and standard deviation 1. *)
Definition lognormal11 : ERADist := {|
  Name := "lognormal";
  mean := Fin 1;
  std := Fin 1;
  cdf := fun x => sigmoid_cdf (ln x);
  icdf := fun p => exp (sigmoid_ppf p);
  pdf := fun x => sigmoid_pdf (ln x) / x
|}.

(** The library of a scenario, with a stand-in for scipy's multivariate
    normal density and distribution function that returns a number at one
    point and an array at several. *)
Definition lib_with_mvn (s : scenario) : NumLib := {|
  cholesky := cholesky_R;
  solve := solve_R;
  leggauss := fun n => (replicate n 0, replicate n 0);
  norm_cdf := sigmoid_cdf;
  norm_ppf := sigmoid_ppf;
  norm_pdf := sigmoid_pdf;
  brentq := s_brentq s;
  fsolve := s_fsolve s;
  rand := s_rand s;
  randn := fun _ d n => replicate d (replicate n 0);
  mvn_pdf := fun U _ _ =>
    if (dim0 U =? 1)%nat then Scalar (Rprod (map sigmoid_pdf (row U 0)))
    else Vec (map (fun r => Rprod (map sigmoid_pdf r)) (rows U));
  mvn_cdf := fun U _ _ =>
    if (dim0 U =? 1)%nat then Scalar (Rprod (map sigmoid_cdf (row U 0)))
    else Vec (map (fun r => Rprod (map sigmoid_cdf r)) (rows U))
|}.

(** No root finder converges. *)
Definition never_converges : scenario := {|
  s_brentq := fun f a b => ret (0, false);
  s_fsolve := fun f x0 => (x0, 0%Z);
  s_rand := fun _ => 0.5
|}.

End RealLib.

(** * Properties *)

(** ** Tests on reals *)

Lemma Reqb_true x y : Reqb x y = true <-> x = y.
Proof. unfold Reqb. destruct (Req_dec_T x y); split; congruence. Qed.

Lemma Reqb_false x y : Reqb x y = false <-> x <> y.
Proof. unfold Reqb. destruct (Req_dec_T x y); split; congruence. Qed.

Lemma Rleb_true x y : Rleb x y = true <-> x <= y.
Proof. unfold Rleb. destruct (Rle_dec x y); split; congruence. Qed.

Lemma Rleb_false x y : Rleb x y = false <-> y < x.
Proof. unfold Rleb. destruct (Rle_dec x y); split; try congruence; lra. Qed.

Lemma Rltb_true x y : Rltb x y = true <-> x < y.
Proof. unfold Rltb. destruct (Rlt_dec x y); split; congruence. Qed.

Lemma Rltb_false x y : Rltb x y = false <-> y <= x.
Proof. unfold Rltb. destruct (Rlt_dec x y); split; try congruence; lra. Qed.

(** Decide a test on concrete reals that stands in the goal. *)
Ltac real_test :=
  match goal with
  | |- context [Reqb ?a ?b] =>
      first [ rewrite (proj2 (Reqb_true a b)) by lra
            | rewrite (proj2 (Reqb_false a b)) by lra ]
  | |- context [Rleb ?a ?b] =>
      first [ rewrite (proj2 (Rleb_true a b)) by lra
            | rewrite (proj2 (Rleb_false a b)) by lra ]
  | |- context [Rltb ?a ?b] =>
      first [ rewrite (proj2 (Rltb_true a b)) by lra
            | rewrite (proj2 (Rltb_false a b)) by lra ]
  end.

Lemma np_log_pos x : 0 < x -> np_log x = Fin (ln x).
Proof. intros H. unfold np_log. destruct (Rlt_dec 0 x); [reflexivity | lra]. Qed.

(** ** pdfs.py *)

Module PdfsSpec.

Import Pdfs.

Lemma Uniform_outside lo up x :
  x < Rmin lo up \/ Rmax lo up < x ->
  Uniform_log_pdf_eval (mkUniform lo up) x = ret NegInf.
Proof.
  intros H. unfold Uniform_log_pdf_eval; simpl.
  rewrite (proj2 (Rleb_false _ _)); [reflexivity |].
  unfold Rmin, Rmax in H.
  destruct (Rle_dec lo up); destruct H; nra.
Qed.

Lemma Halfnormal_outside sig x :
  x < 0 -> Halfnormal_log_pdf_eval (mkHalfnormal sig) x = ret NegInf.
Proof.
  intros H. unfold Halfnormal_log_pdf_eval; simpl.
  rewrite (proj2 (Rleb_false _ _)); [reflexivity | lra].
Qed.

(** C9.  On the uniform marginal on (0, 1) the log-density is 0 at 0.5 and
    minus infinity at 1.5.  For every uniform marginal and every [x] below
    the smaller or above the larger bound, and for every half-normal
    marginal and every negative [x], the log-density is returned, not
    raised, and is minus infinity. *)
Theorem C9_log_density_outside_support :
  Uniform_log_pdf_eval (mkUniform 0 1) 0.5 = ret (Fin 0) /\
  Uniform_log_pdf_eval (mkUniform 0 1) 1.5 = ret NegInf /\
  (forall lo up x, x < Rmin lo up \/ Rmax lo up < x ->
     Uniform_log_pdf_eval (mkUniform lo up) x = ret NegInf) /\
  (forall sig x, x < 0 ->
     Halfnormal_log_pdf_eval (mkHalfnormal sig) x = ret NegInf).
Proof.
  split; [| split; [| split]].
  - unfold Uniform_log_pdf_eval; simpl.
    repeat real_test.
    rewrite np_log_pos by lra.
    replace (1 / (1 - 0)) with 1 by lra.
    now rewrite ln_1.
  - apply Uniform_outside. right. unfold Rmax.
    destruct (Rle_dec 0 1); lra.
  - apply Uniform_outside.
  - apply Halfnormal_outside.
Qed.

Lemma C9_witness :
  Uniform_log_pdf_eval (mkUniform 2 5) 7 = ret NegInf /\
  Halfnormal_log_pdf_eval (mkHalfnormal 1) (-1) = ret NegInf.
Proof.
  destruct C9_log_density_outside_support as (_ & _ & Hu & Hh).
  split.
  - apply Hu. right. unfold Rmax. destruct (Rle_dec 2 5); lra.
  - apply Hh. lra.
Defined.

(** C6, as the code has it.  No constructor of a marginal compares its
    bounds: a uniform and a truncated normal marginal are built from any
    parameters and keep them as given, and the truncated exponential one,
    for a rate that is not zero, raises exactly when scipy's
    [stats.truncexpon] does. *)
Theorem C6_constructors_do_not_validate :
  (forall lo up, Uniform_init lo up = ret (mkUniform lo up)) /\
  (forall mu sig a b, TrunNormal_init mu sig a b = ret (mkTrunNormal mu sig a b)) /\
  (forall (frozen : Type) (truncexpon : R -> R -> R -> res frozen) lamda lo up e,
     lamda <> 0 ->
     (TruncatedExponentialDist_init frozen truncexpon lamda lo up = raise e
      <-> truncexpon ((up - lo) / (1 / lamda)) lo (1 / lamda) = raise e)).
Proof.
  split; [reflexivity | split; [reflexivity |]].
  intros frozen truncexpon lamda lo up e Hl.
  unfold TruncatedExponentialDist_init.
  rewrite (proj2 (Reqb_false lamda 0)) by assumption.
  assert (Hs : 1 / lamda <> 0).
  { unfold Rdiv. rewrite Rmult_1_l. now apply Rinv_neq_0_compat. }
  rewrite (proj2 (Reqb_false (1 / lamda) 0)) by assumption.
  unfold bind, ret, raise.
  destruct (truncexpon _ _ _) as [e' | d]; split; intros H;
    first [discriminate H | congruence].
Qed.

Lemma C6_witness :
  TruncatedExponentialDist_init unit (fun _ _ _ => raise ValueError) 2 3 1
    = raise ValueError.
Proof.
  destruct C6_constructors_do_not_validate as (_ & _ & H).
  apply (H unit (fun _ _ _ => raise ValueError) 2 3 1 ValueError); [lra | reflexivity].
Defined.

(** C6 as stated fails: a uniform marginal whose lower bound 2 exceeds its
    upper bound 1, and a truncated normal marginal on the empty range from 2
    to 1, are constructed without an error. *)
Lemma C6_counterexample :
  2 >= 1 /\
  Uniform_init 2 1 = ret (mkUniform 2 1) /\
  ~ raises (Uniform_init 2 1) /\
  TrunNormal_init 0 1 2 1 = ret (mkTrunNormal 0 1 2 1) /\
  ~ raises (TrunNormal_init 0 1 2 1).
Proof.
  split; [lra |].
  repeat split; try reflexivity; intros [e He]; discriminate He.
Qed.

End PdfsSpec.

(** ** ERANataf.py: the methods *)

Module MethodsSpec.

Import Nataf.

Section Methods.

Context {lib : NumLib}.
Implicit Types (self : ERANataf) (X U : ndarray).

(** [X2U] and [pdf] test the names of the marginals before anything else. *)
Lemma X2U_discrete self X jac :
  existsb is_discrete (Marginals self) = true ->
  X2U self X jac = raise (RuntimeError msg_discrete).
Proof. intros H. unfold X2U, check_continuous. now rewrite H. Qed.

Lemma pdf_discrete self X :
  existsb is_discrete (Marginals self) = true ->
  pdf_joint self X = raise (RuntimeError msg_discrete).
Proof. intros H. unfold pdf_joint, check_continuous. now rewrite H. Qed.

(** [cdf] has no such test: it raises on the shape of its argument only. *)
Lemma cdf_joint_checks_shape_only self X :
  cdf_joint self X =
  bind (check_dims self X (msg_ndim "X") (msg_shape "X"))
       (fun a => ret (mvn_cdf
                         (to_normal_cols self a
                            (zeros (dim0 a) (length (Marginals self))))
                         (replicate (length (Marginals self)) 0)
                         (Rho_Z self))).
Proof. reflexivity. Qed.

Lemma cdf_joint_never_unsupported self X e :
  cdf_joint self X = raise e -> ~ unsupported_operation e.
Proof.
  rewrite cdf_joint_checks_shape_only. unfold check_dims.
  destruct (array_ndmin2 X) as [X2 |]; simpl.
  - destruct (negb _); simpl; intros H Hu; red in Hu; subst e;
      [vm_compute in H |]; discriminate H.
  - intros H Hu. red in Hu. subst e. vm_compute in H. discriminate H.
Qed.

(** An array of [n] rows and as many columns as there are marginals passes
    the checks of [U2X] unchanged. *)
Lemma check_dims_matrix self (a : array2) m1 m2 :
  dim1 a = length (Marginals self) ->
  check_dims self (Mat a) m1 m2 = ret a.
Proof.
  intros H. unfold check_dims; simpl. rewrite H.
  destruct (length (Marginals self) =? 1)%nat eqn:E; simpl;
    now rewrite H, Nat.eqb_refl.
Qed.

End Methods.

(** C1, on the code.  On an engine whose only marginal is named [poisson],
    [X2U] and [pdf] raise the unsupported-operation error, and [cdf] at a
    point [x] raises nothing: it returns what scipy's multivariate normal
    CDF gives at the standard normal image of [x]. *)
Theorem C1_cdf_accepts_discrete_marginals :
  forall (lib : NumLib) (c i p : R -> R) (RX RZ L : mat) (x : R) (jac : bool),
    let self := mkNataf [RealLib.poisson c i p] RX RZ L in
    X2U self (Scalar x) jac = raise (RuntimeError msg_discrete) /\
    pdf_joint self (Scalar x) = raise (RuntimeError msg_discrete) /\
    cdf_joint self (Scalar x)
      = ret (mvn_cdf (mkArr 1 1 [[norm_ppf (c x)]]) [0] RZ) /\
    ~ raises (cdf_joint self (Scalar x)).
Proof.
  intros lib c i p RX RZ L x jac self.
  assert (Hc : cdf_joint self (Scalar x)
               = ret (mvn_cdf (mkArr 1 1 [[norm_ppf (c x)]]) [0] RZ))
    by reflexivity.
  split; [| split; [| split]].
  - now apply X2U_discrete.
  - now apply pdf_discrete.
  - exact Hc.
  - rewrite Hc. intros [e He]. discriminate He.
Qed.

(** C8.  For an array [U] of [n] rows and [d] columns, [d] the number of
    marginals, [U2X] without the Jacobian returns what [random] computes
    from the drawn array when that array is the transpose of [U]. *)
Theorem C8_random_is_U2X :
  forall (lib : NumLib) (self : ERANataf) (U : array2),
    dim1 U = length (Marginals self) ->
    U2X self (Mat U) false
      = ret (random_from self (dim0 U) (transpose U), None).
Proof.
  intros lib self U H.
  unfold U2X. rewrite check_dims_matrix by assumption.
  unfold bind, ret, random_from. simpl. now rewrite H.
Qed.

Lemma C8_witness :
  U2X (lib := RealLib.lib_of RealLib.brent_converges)
      (mkNataf [RealLib.normal01; RealLib.uniform01]
               [[1; 0]; [0; 1]] [[1; 0]; [0; 1]] [[1; 0]; [0; 1]])
      (Mat (mkArr 3 2 [[0; 0]; [1; 0]; [0; 1]])) false
  = ret (random_from (lib := RealLib.lib_of RealLib.brent_converges)
           (mkNataf [RealLib.normal01; RealLib.uniform01]
                    [[1; 0]; [0; 1]] [[1; 0]; [0; 1]] [[1; 0]; [0; 1]])
           3 (transpose (mkArr 3 2 [[0; 0]; [1; 0]; [0; 1]])), None).
Proof. apply C8_random_is_U2X. reflexivity. Defined.

End MethodsSpec.

(** ** ERANataf.py: the constructor *)

Module ConstructSpec.

Import Nataf.

(** *** Reading and writing entries *)

Lemma mat_at_lookup (Z : mat) i j :
  mat_at Z i j = default 0 (default [] (Z !! i) !! j).
Proof. unfold mat_at. now rewrite !nth_lookup. Qed.

Lemma mget_ret (Z : mat) i j x : mget Z i j = ret x -> mat_at Z i j = x.
Proof.
  unfold mget. rewrite mat_at_lookup.
  destruct (Z !! i) as [r |]; [| discriminate]; simpl.
  destruct (r !! j); [| discriminate]. now intros [= ->].
Qed.

Lemma mget_lt (Z : mat) i j x : mget Z i j = ret x -> (i < length Z)%nat.
Proof.
  unfold mget. destruct (Z !! i) as [r |] eqn:E; [| discriminate].
  intros _. eapply lookup_lt_Some, E.
Qed.

Lemma mset_at (Z Z' : mat) i j v :
  mset Z i j v = ret Z' ->
  forall a b,
    mat_at Z' a b = if decide (a = i /\ b = j) then v else mat_at Z a b.
Proof.
  unfold mset. destruct (Z !! i) as [r |] eqn:E; [| discriminate].
  destruct (j <? length r)%nat eqn:Hj; [| discriminate].
  apply Nat.ltb_lt in Hj. intros [= <-] a b. rewrite !mat_at_lookup.
  destruct (decide (a = i)) as [-> | Ha].
  - rewrite list_lookup_insert_eq by (eapply lookup_lt_Some, E).
    rewrite E; simpl.
    destruct (decide (b = j)) as [-> | Hb].
    + rewrite list_lookup_insert_eq by assumption.
      now rewrite decide_True.
    + rewrite list_lookup_insert_ne by congruence.
      rewrite decide_False; [reflexivity | tauto].
  - rewrite list_lookup_insert_ne by congruence.
    rewrite decide_False; [reflexivity | tauto].
Qed.

Lemma set_pair_at (Z Z' : mat) i j v :
  set_pair Z i j v = ret Z' ->
  forall a b,
    mat_at Z' a b =
    if decide ((a = i /\ b = j) \/ (a = j /\ b = i)) then v else mat_at Z a b.
Proof.
  unfold set_pair, bind.
  destruct (mset Z i j v) as [e | Z1] eqn:E1; [discriminate |].
  destruct (mget Z1 i j) as [e | x] eqn:E2; [discriminate |].
  intros E3 a b.
  apply mget_ret in E2. rewrite (mset_at _ _ _ _ _ E1), decide_True in E2 by tauto.
  subst x.
  rewrite (mset_at _ _ _ _ _ E3), (mset_at _ _ _ _ _ E1).
  repeat case_decide; try reflexivity; tauto.
Qed.

(** *** Runs without a random restart *)

Lemma frame_refl i j Z : frame i j Z Z.
Proof. now intros a b _ _. Qed.

Lemma frame_set_pair i j v Z Z' : set_pair Z i j v = ret Z' -> frame i j Z Z'.
Proof.
  intros H a b H1 H2. rewrite (set_pair_at _ _ _ _ _ H).
  rewrite decide_False; [reflexivity | tauto].
Qed.

Lemma elem_of_range a b k : k ∈ range a b <-> (a <= k < b)%nat.
Proof. unfold range. rewrite elem_of_seq. lia. Qed.

Lemma NoDup_range a b : NoDup (range a b).
Proof. apply NoDup_seq. Qed.

(** Membership goals over the lists of indices of the loops. *)
Ltac indices :=
  repeat match goal with
         | H : _ ∉ _ :: _ |- _ => apply not_elem_of_cons in H; destruct H
         | H : _ ∈ _ :: _ |- _ => apply elem_of_cons in H
         | H : _ ∈ [] |- _ => apply elem_of_nil in H; contradiction
         end;
  rewrite ?elem_of_cons, ?elem_of_range;
  intuition (try lia; try congruence).

Section Fill.

Context {lib : NumLib}.
Variable M : list ERADist.
Variable C : mat.

Lemma restart_loop_logs j c ks i sol st out :
  restart_loop C j c ks i sol st = ret out ->
  ks <> [] -> ~ clean (calls out.2).
Proof.
  revert i sol st out. induction ks as [| k ks IH]; intros i sol st out H Hne.
  - now contradiction Hne.
  - clear Hne. simpl in H. unfold bind in H.
    destruct (mget C k j) as [e | target]; [discriminate |].
    destruct (_ =? 1)%Z.
    + injection H as <-. simpl. intros Hc. inversion Hc as [| ? ? Hr _].
      discriminate Hr.
    + destruct ks as [| k' ks'].
      * simpl in H. injection H as <-. simpl.
        intros Hc. inversion Hc as [| ? ? Hr _]. discriminate Hr.
      * eapply IH; [exact H | discriminate].
Qed.

Lemma clean_cons c cs : clean (c :: cs) -> clean cs.
Proof. intros H. now inversion H. Qed.

Lemma stored_effect i j v st Z' :
  set_pair (fRho_Z st) i j v = ret Z' ->
  clean (calls st) ->
  body_effect i j st (i, with_Rho_Z st Z').
Proof.
  intros H Hc. split; [reflexivity | split; [| exact Hc]].
  exact (frame_set_pair _ _ _ _ _ H).
Qed.

Lemma solve_pair_clean i j mi mj rij st out :
  solve_pair C i j mi mj rij st = ret out ->
  clean (calls out.2) ->
  body_effect i j st out.
Proof.
  unfold solve_pair, bind.
  destruct (brentq _ _ _) as [e | r]; [discriminate |].
  destruct r.2.
  { destruct (set_pair _ _ _ _) as [e | Z'] eqn:E; [discriminate |].
    intros [= <-] Hc. simpl in *.
    destruct (stored_effect i j _ (log_call st (CallBrentq i j)) Z' E Hc)
      as (H1 & H2 & H3).
    split; [exact H1 | split; [exact H2 | now apply clean_cons in H3]]. }
  destruct (_ =? 1)%Z.
  { destruct (set_pair _ _ _ _) as [e | Z'] eqn:E; [discriminate |].
    intros [= <-] Hc. simpl in *.
    split; [reflexivity | split].
    - exact (frame_set_pair _ _ _ _ _ E).
    - now do 2 apply clean_cons in Hc. }
  destruct (_ =? 1)%Z.
  { destruct (set_pair _ _ _ _) as [e | Z'] eqn:E; [discriminate |].
    intros [= <-] Hc. simpl in *.
    split; [reflexivity | split].
    - exact (frame_set_pair _ _ _ _ _ E).
    - now do 3 apply clean_cons in Hc. }
  destruct (restart_loop _ _ _ _ _ _ _) as [e | out'] eqn:E; [discriminate |].
  destruct (_ =? 1)%Z; [| discriminate].
  destruct (set_pair _ _ _ _) as [e | Z']; [discriminate |].
  intros [= <-] Hc. simpl in Hc.
  apply restart_loop_logs in E; [| discriminate]. contradiction.
Qed.

(** After the loop of random seeds the variable [i] holds a seed index,
    and [self.Rho_Z] is as before. *)
Lemma restart_loop_inv j c ks i sol st out :
  restart_loop C j c ks i sol st = ret out ->
  fRho_Z out.2 = fRho_Z st /\ (ks <> [] -> out.1.1 ∈ ks).
Proof.
  revert i sol st out. induction ks as [| k ks IH]; intros i sol st out H.
  - injection H as <-. now split.
  - simpl in H. unfold bind in H.
    destruct (mget C k j) as [e | target]; [discriminate |].
    destruct (_ =? 1)%Z.
    + injection H as <-. simpl. split; [reflexivity | intros _; left].
    + destruct (IH _ _ _ _ H) as [H1 H2]. simpl in H1.
      split; [exact H1 | intros _].
      destruct ks as [| k' ks'].
      * injection H as <-. left.
      * right. apply H2. discriminate.
Qed.

(** A run that reaches the random seeds at the pair [(i, j)] stores the
    root in the entries [(k, j)] and [(j, k)], where [k] is the index of
    the seed at which the loop was left, and goes on with [k] as the value
    of the variable [i]. *)
Lemma solve_pair_restarted i j mi mj rij st out :
  solve_pair C i j mi mj rij st = ret out ->
  clean (calls st) ->
  ~ clean (calls out.2) ->
  exists x,
    (out.1 < 10)%nat /\
    set_pair (fRho_Z st) out.1 j x = ret (fRho_Z out.2).
Proof.
  unfold solve_pair, bind. intros H Hc Hnc.
  destruct (brentq _ _ _) as [e | r]; [discriminate |].
  destruct r.2.
  { destruct (set_pair _ _ _ _) as [e | Z']; [discriminate |].
    injection H as <-. contradiction Hnc. simpl. now constructor. }
  destruct (_ =? 1)%Z.
  { destruct (set_pair _ _ _ _) as [e | Z']; [discriminate |].
    injection H as <-. contradiction Hnc. simpl. now repeat constructor. }
  destruct (_ =? 1)%Z.
  { destruct (set_pair _ _ _ _) as [e | Z']; [discriminate |].
    injection H as <-. contradiction Hnc. simpl. now repeat constructor. }
  destruct (restart_loop _ _ _ _ _ _ _) as [e | out'] eqn:E; [discriminate |].
  destruct (_ =? 1)%Z; [| discriminate].
  destruct (set_pair _ _ _ _) as [e | Z'] eqn:ES; [discriminate |].
  injection H as <-. simpl.
  destruct (restart_loop_inv _ _ _ _ _ _ _ E) as [HZ Hk].
  simpl in HZ. rewrite HZ in ES.
  exists out'.1.2.1. split; [| exact ES].
  specialize (Hk ltac:(discriminate)). apply elem_of_range in Hk. lia.
Qed.

Lemma fill_body_clean i j st out :
  fill_body M C i j st = ret out ->
  clean (calls out.2) ->
  body_effect i j st out.
Proof.
  unfold fill_body, bind.
  destruct (mget C i j) as [e | rij]; [discriminate |].
  destruct (Reqb rij 0).
  { intros [= <-] Hc. split; [reflexivity | split; [apply frame_refl | exact Hc]]. }
  destruct (marginal M i) as [e | mi]; [discriminate |].
  destruct (marginal M j) as [e | mj]; [discriminate |].
  destruct (both_normal mi mj).
  { destruct (mset (fRho_Z st) i j rij) as [e | Z1] eqn:E1; [discriminate |].
    destruct (mget C j i) as [e | rji]; [discriminate |].
    destruct (mset Z1 j i rji) as [e | Z2] eqn:E2; [discriminate |].
    intros [= <-] Hc. split; [reflexivity | split; [| exact Hc]].
    intros a b H1 H2. simpl.
    rewrite (mset_at _ _ _ _ _ E2), (mset_at _ _ _ _ _ E1).
    rewrite !decide_False by tauto. reflexivity. }
  destruct (_ && _).
  { destruct (set_pair _ _ _ _) as [e | Z'] eqn:E; [discriminate |].
    intros [= <-] Hc. exact (stored_effect _ _ _ _ _ E Hc). }
  destruct (_ && _).
  { destruct (set_pair _ _ _ _) as [e | Z'] eqn:E; [discriminate |].
    intros [= <-] Hc. exact (stored_effect _ _ _ _ _ E Hc). }
  destruct (_ && _).
  { destruct (set_pair _ _ _ _) as [e | Z'] eqn:E; [discriminate |].
    intros [= <-] Hc. exact (stored_effect _ _ _ _ _ E Hc). }
  apply solve_pair_clean.
Qed.

Lemma same_pair_trans a b Z1 Z2 Z3 :
  same_pair a b Z1 Z2 -> same_pair a b Z2 Z3 -> same_pair a b Z1 Z3.
Proof. intros [H1 H2] [H3 H4]. split; congruence. Qed.

Lemma inner_clean_back js i st out :
  inner_loop M C js i st = ret out ->
  clean (calls out.2) ->
  out.1 = i /\ clean (calls st).
Proof.
  revert i st. induction js as [| j js IH]; intros i st H Hc.
  - injection H as <-. now split.
  - simpl in H. unfold bind in H.
    destruct (fill_body M C i j st) as [e | o] eqn:E; [discriminate |].
    destruct (IH _ _ H Hc) as [H1 H2].
    destruct (fill_body_clean _ _ _ _ E H2) as (H3 & _ & H4).
    split; [congruence | exact H4].
Qed.

Lemma inner_frame js i st out :
  inner_loop M C js i st = ret out ->
  clean (calls out.2) ->
  forall a b, ~ (a = i /\ b ∈ js) -> ~ (b = i /\ a ∈ js) ->
              mat_at (fRho_Z out.2) a b = mat_at (fRho_Z st) a b.
Proof.
  revert i st. induction js as [| j js IH]; intros i st H Hc a b Ha Hb.
  - now injection H as <-.
  - simpl in H. unfold bind in H.
    destruct (fill_body M C i j st) as [e | o] eqn:E; [discriminate |].
    destruct (inner_clean_back _ _ _ _ H Hc) as [_ Hc1].
    destruct (fill_body_clean _ _ _ _ E Hc1) as (H3 & Hf & _).
    rewrite H3 in H.
    rewrite (IH _ _ H Hc a b).
    + apply Hf; intros [H1 H2]; [apply Ha | apply Hb]; indices.
    + intros [H1 H2]. apply Ha. indices.
    + intros [H1 H2]. apply Hb. indices.
Qed.

Lemma inner_local js i st out b :
  inner_loop M C js i st = ret out ->
  clean (calls out.2) ->
  NoDup js -> i ∉ js -> b ∈ js ->
  exists st1 out1,
    fill_body M C i b st1 = ret out1 /\ clean (calls out1.2) /\
    same_pair i b (fRho_Z st) (fRho_Z st1) /\
    same_pair i b (fRho_Z out1.2) (fRho_Z out.2).
Proof.
  revert st. induction js as [| j js IH]; intros st H Hc Hnd Hi Hb.
  - indices.
  - simpl in H. unfold bind in H.
    destruct (fill_body M C i j st) as [e | o] eqn:E; [discriminate |].
    destruct (inner_clean_back _ _ _ _ H Hc) as [_ Hc1].
    destruct (fill_body_clean _ _ _ _ E Hc1) as (H3 & Hf & _).
    rewrite H3 in H.
    apply NoDup_cons in Hnd as [Hj Hnd].
    destruct (decide (b = j)) as [-> | Hne].
    + exists st, o. split; [exact E | split; [exact Hc1 | split]].
      * now split.
      * split; apply (inner_frame _ _ _ _ H Hc); indices.
    + destruct (IH o.2 H Hc Hnd) as (st1 & out1 & Hb1 & Hc2 & Hs1 & Hs2);
        [indices | indices |].
      exists st1, out1. split; [exact Hb1 | split; [exact Hc2 | split]];
        [| exact Hs2].
      eapply same_pair_trans; [| exact Hs1].
      split; apply Hf; indices.
Qed.


Lemma outer_clean_back rest st st' :
  outer_loop M C rest st = ret st' ->
  clean (calls st') -> clean (calls st).
Proof.
  revert st. induction rest as [| i rest IH]; intros st H Hc.
  - now injection H as <-.
  - simpl in H. unfold bind in H.
    destruct (inner_loop _ _ _ _ _) as [e | o] eqn:E; [discriminate |].
    now destruct (inner_clean_back _ _ _ _ E (IH _ H Hc)).
Qed.

Lemma outer_frame rest st st' a b :
  outer_loop M C rest st = ret st' ->
  clean (calls st') ->
  (a < b)%nat -> a ∉ rest ->
  same_pair a b (fRho_Z st) (fRho_Z st').
Proof.
  revert st. induction rest as [| i rest IH]; intros st H Hc Hab Ha.
  - injection H as <-. now split.
  - simpl in H. unfold bind in H.
    destruct (inner_loop _ _ _ _ _) as [e | o] eqn:E; [discriminate |].
    pose proof (outer_clean_back _ _ _ H Hc) as Hc1.
    eapply same_pair_trans; [| apply (IH _ H Hc Hab); indices].
    split; apply (inner_frame _ _ _ _ E Hc1); indices.
Qed.

Lemma outer_local rest st st' a b :
  outer_loop M C rest st = ret st' ->
  clean (calls st') ->
  NoDup rest -> a ∈ rest -> (a < b < n_dist M)%nat ->
  exists st1 out1,
    fill_body M C a b st1 = ret out1 /\ clean (calls out1.2) /\
    same_pair a b (fRho_Z st) (fRho_Z st1) /\
    same_pair a b (fRho_Z out1.2) (fRho_Z st').
Proof.
  revert st. induction rest as [| i rest IH]; intros st H Hc Hnd Ha Hab.
  - indices.
  - simpl in H. unfold bind in H.
    destruct (inner_loop _ _ _ _ _) as [e | o] eqn:E; [discriminate |].
    pose proof (outer_clean_back _ _ _ H Hc) as Hc1.
    apply NoDup_cons in Hnd as [Hi Hnd].
    destruct (decide (a = i)) as [-> | Hne].
    + destruct (inner_local _ _ _ _ b E Hc1) as (st1 & out1 & Hb & Hc2 & Hs1 & Hs2).
      * apply NoDup_range.
      * rewrite elem_of_range. lia.
      * rewrite elem_of_range. lia.
      * exists st1, out1. split; [exact Hb | split; [exact Hc2 | split]];
          [exact Hs1 |].
        eapply same_pair_trans; [exact Hs2 |].
        apply (outer_frame _ _ _ _ _ H Hc); [lia | exact Hi].
    + destruct (IH o.2 H Hc Hnd) as (st1 & out1 & Hb & Hc2 & Hs1 & Hs2);
        [indices | exact Hab |].
      exists st1, out1. split; [exact Hb | split; [exact Hc2 | split]];
        [| exact Hs2].
      eapply same_pair_trans; [| exact Hs1].
      split; apply (inner_frame _ _ _ _ E Hc1); indices.
Qed.

(** *** The calls of a clean run *)

Abbreviation calls_nonzero := (calls_for_nonzero C).

Lemma solve_pair_calls i j mi mj rij st out :
  solve_pair C i j mi mj rij st = ret out ->
  clean (calls out.2) ->
  mat_at C i j <> 0 ->
  calls_nonzero (calls st) -> calls_nonzero (calls out.2).
Proof.
  unfold solve_pair, bind. intros H Hc H0 Hst.
  destruct (brentq _ _ _) as [e | r]; [discriminate |].
  destruct r.2.
  { destruct (set_pair _ _ _ _) as [e | Z']; [discriminate |].
    injection H as <-. simpl. now constructor. }
  destruct (_ =? 1)%Z.
  { destruct (set_pair _ _ _ _) as [e | Z']; [discriminate |].
    injection H as <-. simpl. now repeat constructor. }
  destruct (_ =? 1)%Z.
  { destruct (set_pair _ _ _ _) as [e | Z']; [discriminate |].
    injection H as <-. simpl. now repeat constructor. }
  destruct (restart_loop _ _ _ _ _ _ _) as [e | out'] eqn:E; [discriminate |].
  destruct (_ =? 1)%Z; [| discriminate].
  destruct (set_pair _ _ _ _) as [e | Z']; [discriminate |].
  injection H as <-. simpl in Hc.
  apply restart_loop_logs in E; [contradiction | discriminate].
Qed.

Lemma fill_body_calls i j st out :
  fill_body M C i j st = ret out ->
  clean (calls out.2) ->
  calls_nonzero (calls st) -> calls_nonzero (calls out.2).
Proof.
  unfold fill_body, bind. intros H Hc Hst.
  destruct (mget C i j) as [e | rij] eqn:E; [discriminate |].
  apply mget_ret in E.
  destruct (Reqb rij 0) eqn:E0.
  { now injection H as <-. }
  apply Reqb_false in E0.
  destruct (marginal M i) as [e | mi]; [discriminate |].
  destruct (marginal M j) as [e | mj]; [discriminate |].
  destruct (both_normal mi mj).
  { destruct (mset _ _ _ _) as [e | Z1]; [discriminate |].
    destruct (mget C j i) as [e | rji]; [discriminate |].
    destruct (mset Z1 _ _ _) as [e | Z2]; [discriminate |].
    now injection H as <-. }
  destruct (_ && _).
  { destruct (set_pair _ _ _ _) as [e | Z']; [discriminate |].
    now injection H as <-. }
  destruct (_ && _).
  { destruct (set_pair _ _ _ _) as [e | Z']; [discriminate |].
    now injection H as <-. }
  destruct (_ && _).
  { destruct (set_pair _ _ _ _) as [e | Z']; [discriminate |].
    now injection H as <-. }
  apply (solve_pair_calls _ _ _ _ _ _ _ H Hc); [congruence | exact Hst].
Qed.

Lemma inner_loop_calls js i st out :
  inner_loop M C js i st = ret out ->
  clean (calls out.2) ->
  calls_nonzero (calls st) -> calls_nonzero (calls out.2).
Proof.
  revert i st. induction js as [| j js IH]; intros i st H Hc Hst.
  - now injection H as <-.
  - simpl in H. unfold bind in H.
    destruct (fill_body M C i j st) as [e | o] eqn:E; [discriminate |].
    destruct (inner_clean_back _ _ _ _ H Hc) as [_ Hc1].
    apply (IH _ _ H Hc). now apply (fill_body_calls _ _ _ _ E).
Qed.

Lemma outer_loop_calls rest st st' :
  outer_loop M C rest st = ret st' ->
  clean (calls st') ->
  calls_nonzero (calls st) -> calls_nonzero (calls st').
Proof.
  revert st. induction rest as [| i rest IH]; intros st H Hc Hst.
  - now injection H as <-.
  - simpl in H. unfold bind in H.
    destruct (inner_loop _ _ _ _ _) as [e | o] eqn:E; [discriminate |].
    apply (IH _ H Hc).
    apply (inner_loop_calls _ _ _ _ E); [| exact Hst].
    exact (outer_clean_back _ _ _ H Hc).
Qed.

(** *** What a run of the constructor went through *)

Lemma construct_inv rng0 e st :
  construct M C rng0 = ret (e, st) ->
  finite_moments M = true /\
  cholesky C <> None /\
  all_symmetric C = true /\
  unit_diagonal C = true /\
  (if far_from_identity M C
   then outer_loop M C (range 0 (n_dist M))
          (mkFill (identity (n_dist M)) rng0 [])
        = ret st
   else st = mkFill (identity (n_dist M)) rng0 []) /\
  cholesky (fRho_Z st) = Some (A e) /\
  e = mkNataf M C (fRho_Z st) (A e).
Proof.
  unfold construct, init_fill, bind.
  destruct (finite_moments M); simpl; [| discriminate].
  destruct (cholesky C) as [L0 |]; [| discriminate].
  destruct (all_symmetric C); simpl; [| discriminate].
  destruct (unit_diagonal C); simpl; [| discriminate].
  destruct (far_from_identity M C).
  - destruct (outer_loop _ _ _ _) as [e' | st'] eqn:E; [discriminate |].
    destruct (cholesky (fRho_Z st')) as [L |] eqn:EL; [| discriminate].
    intros [= <- <-]. simpl. repeat split; try congruence.
  - simpl. destruct (cholesky (identity (n_dist M))) as [L |] eqn:EL;
      [| discriminate].
    intros [= <- <-]. simpl. repeat split; try congruence.
Qed.

End Fill.

Lemma identity_off_diagonal d a b : a <> b -> mat_at (identity d) a b = 0.
Proof.
  intros Hab. rewrite mat_at_lookup. unfold identity.
  rewrite list_lookup_fmap.
  destruct (decide (a < d)%nat) as [Ha | Ha].
  - rewrite lookup_seq_lt by assumption. simpl.
    rewrite list_lookup_fmap.
    destruct (decide (b < d)%nat) as [Hb | Hb].
    + rewrite lookup_seq_lt by assumption. simpl.
      destruct (a =? b)%nat eqn:E; [apply Nat.eqb_eq in E; lia | reflexivity].
    + rewrite lookup_seq_ge by lia. reflexivity.
  - rewrite lookup_seq_ge by lia. reflexivity.
Qed.

Lemma mat_at_out_of_range (Z : mat) i j :
  (length Z <= i)%nat -> mat_at Z i j = 0.
Proof.
  intros H. rewrite mat_at_lookup.
  now rewrite (lookup_ge_None_2 Z i H).
Qed.

Lemma all_symmetric_at (Z : mat) i j :
  all_symmetric Z = true ->
  (i < length Z)%nat -> (j < length Z)%nat ->
  mat_at Z i j = mat_at Z j i.
Proof.
  unfold all_symmetric. rewrite forallb_forall. intros H Hi Hj.
  specialize (H i). rewrite in_seq in H.
  specialize (H ltac:(lia)). rewrite forallb_forall in H.
  specialize (H j). rewrite in_seq in H. specialize (H ltac:(lia)).
  apply Reqb_true in H. lra.
Qed.

Lemma all_symmetric_false (Z : mat) i j :
  (i < length Z)%nat -> (j < length Z)%nat ->
  mat_at Z i j <> mat_at Z j i ->
  all_symmetric Z = false.
Proof.
  intros Hi Hj Hne. destruct (all_symmetric Z) eqn:E; [| reflexivity].
  contradiction Hne. now apply all_symmetric_at.
Qed.

Lemma unit_diagonal_false (Z : mat) i :
  (i < length Z)%nat -> mat_at Z i i <> 1 -> unit_diagonal Z = false.
Proof.
  intros Hi Hne. destruct (unit_diagonal Z) eqn:E; [| reflexivity].
  contradiction Hne. unfold unit_diagonal in E.
  rewrite forallb_forall in E. specialize (E i).
  rewrite in_seq in E. specialize (E ltac:(lia)). now apply Reqb_true in E.
Qed.

Lemma both_normal_sym mi mj : both_normal mi mj = both_normal mj mi.
Proof.
  unfold both_normal.
  now rewrite (andb_comm (is_name "standardnormal" mi)),
              (andb_comm (is_name "normal" mi)).
Qed.

(** The entries that one pass of the loop body leaves at a pair of
    marginals that passes the test [both_normal]: zeros stay when the
    correlation is zero, the correlations are copied otherwise. *)
Lemma fill_body_both_normal {lib : NumLib} M C i j mi mj st out :
  fill_body M C i j st = ret out ->
  M !! i = Some mi -> M !! j = Some mj -> i <> j ->
  both_normal mi mj = true ->
  (mat_at C i j = 0 /\ out = (i, st)) \/
  (mat_at (fRho_Z out.2) i j = mat_at C i j /\
   mat_at (fRho_Z out.2) j i = mat_at C j i).
Proof.
  intros H Hi Hj Hne Hn. unfold fill_body, bind, marginal in H.
  destruct (mget C i j) as [e | rij] eqn:E; [discriminate |].
  apply mget_ret in E.
  destruct (Reqb rij 0) eqn:E0.
  { apply Reqb_true in E0. left. unfold ret in H. split; congruence. }
  rewrite Hi, Hj in H. unfold ret at 1 2 in H. rewrite Hn in H.
  destruct (mset (fRho_Z st) i j rij) as [e | Z1] eqn:E1; [discriminate |].
  destruct (mget C j i) as [e | rji] eqn:E'; [discriminate |].
  apply mget_ret in E'.
  destruct (mset Z1 j i rji) as [e | Z2] eqn:E2; [discriminate |].
  injection H as <-. right. simpl.
  rewrite !(mset_at _ _ _ _ _ E2), !(mset_at _ _ _ _ _ E1).
  rewrite (decide_False (P := i = j /\ j = i)) by tauto.
  rewrite !decide_True by tauto. split; congruence.
Qed.

(** C3, as the code has it.  When the physical correlation matrix is
    farther than 1e-5 from the identity in Frobenius norm and the fill ran
    without a random restart, every pair of distinct marginals that are
    both named [normal], or both named [standardnormal], has the physical
    correlation as its standard-normal correlation. *)
Theorem C3_normal_pairs_keep_correlation :
  forall (lib : NumLib) (M : list ERADist) (C : mat) (rng0 : nat)
         (e : ERANataf) (st : fill_state) (i j : nat) (mi mj : ERADist),
    construct M C rng0 = ret (e, st) ->
    far_from_identity M C = true ->
    clean (calls st) ->
    M !! i = Some mi -> M !! j = Some mj -> i <> j ->
    both_normal mi mj = true ->
    mat_at (Rho_Z e) i j = mat_at C i j.
Proof.
  intros lib M C rng0 e st i j mi mj Hrun Hfar Hclean Hi Hj Hne Hn.
  destruct (construct_inv _ _ _ _ _ Hrun) as (_ & _ & Hsym & _ & Hfill & _ & ->).
  rewrite Hfar in Hfill. simpl.
  pose proof (lookup_lt_Some _ _ _ Hi) as Hid.
  pose proof (lookup_lt_Some _ _ _ Hj) as Hjd.
  assert (Hseq : forall a, (a < n_dist M)%nat -> a ∈ range 0 (n_dist M)).
  { intros a Ha. apply elem_of_range. lia. }
  destruct (decide (i < j)%nat) as [Hlt | Hge].
  - destruct (outer_local M C _ _ _ i j Hfill Hclean (NoDup_range _ _))
      as (st1 & out1 & Hb & _ & [Hs1 _] & [Hs2 _]);
      [now apply Hseq | unfold n_dist; lia |].
    rewrite Hs2.
    destruct (fill_body_both_normal _ _ _ _ _ _ _ _ Hb Hi Hj Hne Hn)
      as [[H0 ->] | [H1 _]]; [| exact H1].
    simpl. rewrite Hs1, H0. now apply identity_off_diagonal.
  - assert (Hlt : (j < i)%nat) by lia.
    rewrite both_normal_sym in Hn.
    destruct (outer_local M C _ _ _ j i Hfill Hclean (NoDup_range _ _))
      as (st1 & out1 & Hb & _ & [_ Hs1] & [_ Hs2]);
      [now apply Hseq | unfold n_dist; lia |].
    rewrite Hs2.
    destruct (fill_body_both_normal _ _ _ _ _ _ _ _ Hb Hj Hi (not_eq_sym Hne) Hn)
      as [[H0 ->] | [_ H1]]; [| exact H1].
    simpl in Hs1 |- *. rewrite Hs1, identity_off_diagonal by assumption.
    unfold fill_body, bind in Hb.
    destruct (mget C j i) as [e' | rji] eqn:E; [discriminate |].
    apply mget_lt in E.
    destruct (decide (i < length C)%nat) as [Hi' | Hi'].
    + now rewrite (all_symmetric_at C i j Hsym Hi' E).
    + symmetry. apply mat_at_out_of_range. lia.
Qed.


(** The three checks of the constructor: when [np.linalg.cholesky] raises,
    or the test of symmetry or of the diagonal fails, the constructor
    raises, and with finite moments the error is one of the three errors on
    the correlation matrix. *)
Lemma failed_check_raises {lib : NumLib} (M : list ERADist) (C : mat) rng0 :
  cholesky C = None \/ all_symmetric C = false \/ unit_diagonal C = false ->
  exists e, ERANataf_init M C rng0 = raise e /\
            (finite_moments M = true -> invalid_correlation e).
Proof.
  intros Hbad.
  unfold ERANataf_init, construct, init_fill, invalid_correlation.
  destruct (finite_moments M); simpl.
  2:{ eexists. split; [reflexivity | discriminate]. }
  destruct (cholesky C) as [L0 |] eqn:Hch; simpl.
  2:{ eexists. split; [reflexivity | auto]. }
  destruct (all_symmetric C) eqn:Hsym; simpl.
  2:{ eexists. split; [reflexivity | auto]. }
  destruct (unit_diagonal C) eqn:Hdiag; simpl.
  2:{ eexists. split; [reflexivity | auto]. }
  exfalso. destruct Hbad as [Hb | [Hb | Hb]]; discriminate Hb.
Qed.

(** C5.  Let the library's Cholesky factorization succeed on a symmetric
    matrix only if the matrix is positive definite.  When the physical
    correlation matrix has a diagonal entry that is not 1, or two mirrored
    entries that differ, or is not positive definite, the constructor
    raises and returns no object; when the moments of the marginals are
    finite the error is one of the three errors on the correlation
    matrix. *)
Theorem C5_invalid_correlation_rejected :
  forall (lib : NumLib) (M : list ERADist) (C : mat) (rng0 : nat),
    (forall C' L, cholesky C' = Some L -> all_symmetric C' = true ->
                  positive_definite C') ->
    ((exists i, (i < length C)%nat /\ mat_at C i i <> 1) \/
     (exists i j, (i < length C)%nat /\ (j < length C)%nat /\
                  mat_at C i j <> mat_at C j i) \/
     ~ positive_definite C) ->
    raises (ERANataf_init M C rng0) /\
    ~ returns (ERANataf_init M C rng0) /\
    (finite_moments M = true ->
     exists e, ERANataf_init M C rng0 = raise e /\ invalid_correlation e).
Proof.
  intros lib M C rng0 Hlib Hbad.
  destruct (failed_check_raises M C rng0) as (e & He & Hinv).
  { destruct Hbad as [(i & Hi & Hne) | [(i & j & Hi & Hj & Hne) | Hnpd]].
    - right. right. exact (unit_diagonal_false C i Hi Hne).
    - right. left. exact (all_symmetric_false C i j Hi Hj Hne).
    - destruct (cholesky C) as [L |] eqn:Hch; [| now left].
      destruct (all_symmetric C) eqn:Hsym; [| now right; left].
      contradiction Hnpd. exact (Hlib C L Hch Hsym). }
  split; [now exists e | split].
  - intros [a Ha]. rewrite He in Ha. discriminate Ha.
  - intros Hfin. exists e. auto.
Qed.

(** A pass of the loop body at a pair of correlation zero changes
    nothing. *)
Lemma fill_body_zero {lib : NumLib} M C i j st out :
  fill_body M C i j st = ret out ->
  mat_at C i j = 0 ->
  out = (i, st).
Proof.
  unfold fill_body, bind. intros H H0.
  destruct (mget C i j) as [e | rij] eqn:E; [discriminate |].
  apply mget_ret in E. rewrite H0 in E. subst rij.
  rewrite (proj2 (Reqb_true 0 0)) in H by reflexivity.
  now injection H as <-.
Qed.

(** In the runs without a random restart, a pair of distinct marginals
    whose physical correlation is zero has the standard-normal correlation
    zero, and no root finder was called for it. *)
Lemma zero_correlation_kept_in_clean_runs
    (lib : NumLib) (M : list ERADist) (C : mat) (rng0 : nat)
    (e : ERANataf) (st : fill_state) (i j : nat) :
  construct M C rng0 = ret (e, st) ->
  clean (calls st) ->
  length C = n_dist M ->
  (i < n_dist M)%nat -> (j < n_dist M)%nat -> i <> j ->
  mat_at C i j = 0 ->
  mat_at (Rho_Z e) i j = 0 /\
  Forall (fun c => call_pair c <> (i, j)) (calls st).
Proof.
  intros Hrun Hclean Hlen Hi Hj Hne H0.
  destruct (construct_inv _ _ _ _ _ Hrun) as (_ & _ & Hsym & _ & Hfill & _ & ->).
  simpl. destruct (far_from_identity M C).
  2:{ subst st. simpl. split; [now apply identity_off_diagonal | constructor]. }
  split.
  2:{ pose proof (outer_loop_calls M C _ _ _ Hfill Hclean (Forall_nil_2 _)) as Hcs.
      unfold calls_for_nonzero in Hcs. eapply Forall_impl; [exact Hcs |].
      intros c Hc Heq. cbv beta in Hc. rewrite Heq in Hc. simpl in Hc.
      contradiction. }
  assert (Hji : mat_at C j i = 0).
  { rewrite <- H0. apply all_symmetric_at; [exact Hsym | lia | lia]. }
  destruct (decide (i < j)%nat) as [Hlt | Hge].
  - destruct (outer_local M C _ _ _ i j Hfill Hclean (NoDup_range _ _))
      as (st1 & out1 & Hb & _ & [Hs1 _] & [Hs2 _]);
      [apply elem_of_range; lia | lia |].
    rewrite (fill_body_zero _ _ _ _ _ _ Hb H0) in Hs2. simpl in Hs1, Hs2.
    rewrite Hs2, Hs1. now apply identity_off_diagonal.
  - destruct (outer_local M C _ _ _ j i Hfill Hclean (NoDup_range _ _))
      as (st1 & out1 & Hb & _ & [_ Hs1] & [_ Hs2]);
      [apply elem_of_range; lia | lia |].
    rewrite (fill_body_zero _ _ _ _ _ _ Hb Hji) in Hs2. simpl in Hs1, Hs2.
    rewrite Hs2, Hs1. now apply identity_off_diagonal.
Qed.

End ConstructSpec.

(** ** The factorization over the reals

    [cholesky_R] factorizes a symmetric matrix only if the matrix is
    positive definite. *)

Module CholeskySpec.

Import Nataf RealLib ConstructSpec.

(** *** Sums *)

Lemma Rsum_n_ext n f g :
  (forall k, (k < n)%nat -> f k = g k) -> Rsum_n n f = Rsum_n n g.
Proof.
  induction n as [| n IH]; intros H; simpl; [reflexivity |].
  rewrite IH by (intros k Hk; apply H; lia). now rewrite H by lia.
Qed.

Lemma Rsum_n_plus n f g :
  Rsum_n n (fun k => f k + g k) = Rsum_n n f + Rsum_n n g.
Proof. induction n as [| n IH]; simpl; [lra | rewrite IH; lra]. Qed.

Lemma Rsum_n_scal n c f : Rsum_n n (fun k => c * f k) = c * Rsum_n n f.
Proof. induction n as [| n IH]; simpl; [lra | rewrite IH; lra]. Qed.

Lemma Rsum_n_scal2 n a b f :
  a * Rsum_n n f * b = Rsum_n n (fun k => a * f k * b).
Proof. induction n as [| n IH]; simpl; [lra | rewrite <- IH; ring]. Qed.

Lemma Rsum_n_prod n m f g :
  Rsum_n n f * Rsum_n m g
  = Rsum_n n (fun i => Rsum_n m (fun j => f i * g j)).
Proof.
  induction n as [| n IH]; simpl; [lra |].
  rewrite <- IH, Rsum_n_scal. ring.
Qed.

Lemma Rsum_n_zero n : Rsum_n n (fun _ => 0) = 0.
Proof. induction n as [| n IH]; simpl; [reflexivity | rewrite IH; lra]. Qed.

Lemma Rsum_n_swap n m (f : nat -> nat -> R) :
  Rsum_n n (fun i => Rsum_n m (fun j => f i j))
  = Rsum_n m (fun j => Rsum_n n (fun i => f i j)).
Proof.
  induction n as [| n IH]; simpl.
  - now rewrite Rsum_n_zero.
  - now rewrite IH, Rsum_n_plus.
Qed.

Lemma Rsum_n_nonneg n f :
  (forall k, (k < n)%nat -> 0 <= f k) -> 0 <= Rsum_n n f.
Proof.
  induction n as [| n IH]; intros H; simpl; [lra |].
  pose proof (IH (fun k Hk => H k ltac:(lia))). pose proof (H n ltac:(lia)). lra.
Qed.

Lemma Rsum_n_zero_all n f :
  (forall k, (k < n)%nat -> 0 <= f k) -> Rsum_n n f = 0 ->
  forall k, (k < n)%nat -> f k = 0.
Proof.
  induction n as [| n IH]; intros H H0 k Hk; [lia |].
  simpl in H0.
  pose proof (Rsum_n_nonneg n f (fun k Hk => H k ltac:(lia))) as Hs.
  pose proof (H n ltac:(lia)) as Hn.
  destruct (decide (k = n)) as [-> | Hne]; [lra |].
  apply IH; [intros; apply H; lia | lra | lia].
Qed.

Lemma Rsum_n_trunc m n f :
  (m <= n)%nat -> (forall k, (m <= k < n)%nat -> f k = 0) ->
  Rsum_n n f = Rsum_n m f.
Proof.
  intros Hmn. induction n as [| n IH]; intros H.
  - now replace m with 0%nat by lia.
  - destruct (decide (m = S n)) as [-> | Hne]; [reflexivity |].
    simpl. rewrite IH by (try lia; intros; apply H; lia).
    rewrite H by lia. lra.
Qed.

Lemma Rsum_n_single n f i :
  (i < n)%nat -> (forall k, (k < n)%nat -> k <> i -> f k = 0) ->
  Rsum_n n f = f i.
Proof.
  induction n as [| n IH]; intros Hi H; [lia |]. simpl.
  destruct (decide (i = n)) as [-> | Hne].
  - rewrite (Rsum_n_ext n f (fun _ => 0)) by (intros; apply H; lia).
    rewrite Rsum_n_zero. lra.
  - rewrite IH by (try lia; intros; apply H; lia).
    rewrite (H n) by lia. lra.
Qed.

Lemma Rsum_n_shift n f :
  Rsum_n (S n) f = f 0%nat + Rsum_n n (fun k => f (S k)).
Proof.
  induction n as [| n IH]; [simpl; lra |].
  change (Rsum_n (S (S n)) f) with (Rsum_n (S n) f + f (S n)).
  rewrite IH. simpl. lra.
Qed.

Lemma vdot_Rsum_n (a b : vec) :
  (length a <= length b)%nat ->
  vdot a b = Rsum_n (length a) (fun k => nth k a 0 * nth k b 0).
Proof.
  revert b. induction a as [| x a IH]; intros b H; [reflexivity |].
  destruct b as [| y b]; [simpl in H; lia |].
  change (length (x :: a)) with (S (length a)). rewrite Rsum_n_shift.
  unfold vdot in *. simpl. rewrite IH by (simpl in H; lia). reflexivity.
Qed.

Lemma chol_row_prefix Ci Ls :
  forall j acc0, exists new,
    chol_row Ci Ls j acc0 = acc0 ++ new /\ length new = length Ls.
Proof.
  induction Ls as [| Lj Ls IH]; intros j acc0; simpl.
  - exists []. now rewrite app_nil_r.
  - destruct (IH (S j) (acc0 ++ [(nth j Ci 0 - vdot acc0 Lj) / nth j Lj 0]))
      as (new & -> & Hlen).
    eexists. rewrite <- app_assoc. split; [reflexivity |]. simpl. now rewrite Hlen.
Qed.

Lemma mat_at_app_l (L L' : mat) a b :
  (a < length L)%nat -> mat_at (L ++ L') a b = mat_at L a b.
Proof. intros H. unfold mat_at. now rewrite app_nth1 by assumption. Qed.

Lemma mat_at_app_r (L : mat) (r : vec) b :
  mat_at (L ++ [r]) (length L) b = nth b r 0.
Proof.
  unfold mat_at. rewrite app_nth2 by lia. now rewrite Nat.sub_diag.
Qed.

Lemma chol_row_spec Ci Ls :
  forall (Lpre : mat) (acc0 : vec),
    length acc0 = length Lpre ->
    (forall b, (b < length (Lpre ++ Ls))%nat ->
               (b < length (nth b (Lpre ++ Ls) []))%nat /\
               mat_at (Lpre ++ Ls) b b <> 0) ->
    forall b, (length Lpre <= b < length (Lpre ++ Ls))%nat ->
      Rsum_n b (fun k => nth k (chol_row Ci Ls (length Lpre) acc0) 0
                         * mat_at (Lpre ++ Ls) b k)
      + nth b (chol_row Ci Ls (length Lpre) acc0) 0 * mat_at (Lpre ++ Ls) b b
      = nth b Ci 0.
Proof.
  induction Ls as [| Lj Ls IH]; intros Lpre acc0 Hacc HL b Hb.
  - rewrite app_nil_r in Hb. lia.
  - simpl chol_row.
    set (v := (nth (length Lpre) Ci 0 - vdot acc0 Lj) / nth (length Lpre) Lj 0).
    assert (HLeq : Lpre ++ Lj :: Ls = (Lpre ++ [Lj]) ++ Ls)
      by now rewrite <- app_assoc.
    assert (Hlen1 : length (Lpre ++ [Lj]) = S (length Lpre))
      by (rewrite length_app; simpl; lia).
    destruct (decide (b = length Lpre)) as [-> | Hne].
    + destruct (chol_row_prefix Ci Ls (S (length Lpre)) (acc0 ++ [v]))
        as (new & -> & _).
      specialize (HL (length Lpre) ltac:(lia)) as [HLj Hd].
      assert (Hrow : forall k, mat_at (Lpre ++ Lj :: Ls) (length Lpre) k
                               = nth k Lj 0).
      { intros k. unfold mat_at. rewrite app_nth2 by lia.
        now rewrite Nat.sub_diag. }
      unfold mat_at in HLj. rewrite app_nth2, Nat.sub_diag in HLj by lia.
      simpl in HLj. rewrite Hrow in Hd. rewrite !Hrow.
      rewrite (Rsum_n_ext _ _ (fun k => nth k acc0 0 * nth k Lj 0)).
      2:{ intros k Hk. rewrite Hrow. f_equal.
          rewrite <- app_assoc. rewrite app_nth1 by lia. reflexivity. }
      rewrite <- Hacc at 1. rewrite <- vdot_Rsum_n by lia.
      rewrite <- app_assoc, app_nth2 by lia. rewrite Hacc, Nat.sub_diag. simpl.
      unfold v. field. exact Hd.
    + rewrite HLeq. rewrite <- Hlen1.
      apply IH.
      * rewrite !length_app. simpl. lia.
      * rewrite <- HLeq. exact HL.
      * rewrite <- HLeq. rewrite Hlen1. lia.
Qed.

Lemma nth_replicate_zero k n : nth k (replicate n 0) 0 = 0.
Proof.
  revert k. induction n as [| n IH]; intros [| k]; simpl; auto.
Qed.

Lemma chol_rows_spec d (C : mat) :
  length C = d ->
  forall Cs L Lf,
    chol_rows d Cs L = Some Lf ->
    drop (length L) C = Cs ->
    lower_ok d C L ->
    lower_ok d C Lf /\ length Lf = (length L + length Cs)%nat.
Proof.
  intros HC. induction Cs as [| Ci Cs IH]; intros L Lf H Hdrop Hok.
  - injection H as <-. split; [exact Hok | simpl; lia].
  - simpl in H.
    set (i := length L) in *.
    set (acc := chol_row Ci L 0 []) in *.
    set (p := nth i Ci 0 - vdot acc acc) in *.
    destruct (Rltb 0 p) eqn:Hp; [| discriminate].
    apply Rltb_true in Hp.
    assert (Hi : (i < d)%nat).
    { rewrite <- HC. apply (f_equal length) in Hdrop.
      rewrite length_drop in Hdrop. simpl in Hdrop. lia. }
    assert (HCi : forall b, mat_at C i b = nth b Ci 0).
    { intros b. unfold mat_at. f_equal.
      assert (E : C !! i = Some Ci).
      { pose proof (lookup_drop C i 0) as E. rewrite Nat.add_0_r in E.
        rewrite <- E. rewrite Hdrop. reflexivity. }
      now rewrite nth_lookup, E. }
    assert (Hdrop' : drop (S i) C = Cs).
    { replace (S i) with (i + 1)%nat by lia. rewrite <- drop_drop.
      rewrite Hdrop. reflexivity. }
    destruct Hok as [Hlen Hrows].
    assert (Hacc_len : length acc = i).
    { destruct (chol_row_prefix Ci L 0 []) as (new & E & Hn).
      unfold acc. rewrite E. simpl. exact Hn. }
    assert (Hspec : forall b, (b < i)%nat ->
              Rsum_n b (fun k => nth k acc 0 * mat_at L b k)
              + nth b acc 0 * mat_at L b b = nth b Ci 0).
    { intros b Hb.
      apply (chol_row_spec Ci L [] [] eq_refl); simpl; [| fold i; lia].
      intros c Hc. fold i in Hc. split.
      - rewrite Forall_forall in Hlen.
        rewrite (Hlen (nth c L [])); [lia |].
        apply list_elem_of_In, nth_In. exact Hc.
      - destruct (Hrows c Hc) as (_ & Hpos & _). lra. }
    set (r := acc ++ sqrt p :: replicate (d - S i) 0) in *.
    assert (Hr_lt : forall k, (k < i)%nat -> nth k r 0 = nth k acc 0).
    { intros k Hk. unfold r. now rewrite app_nth1 by lia. }
    assert (Hr_i : nth i r 0 = sqrt p).
    { unfold r. rewrite app_nth2 by lia. now rewrite Hacc_len, Nat.sub_diag. }
    assert (Hr_gt : forall k, (i < k)%nat -> nth k r 0 = 0).
    { intros k Hk. unfold r. rewrite app_nth2 by lia. rewrite Hacc_len.
      destruct (k - i)%nat as [| m] eqn:E; [lia |]. simpl.
      apply nth_replicate_zero. }
    assert (Hlen_r : length r = d).
    { unfold r. rewrite length_app. simpl. rewrite length_replicate. lia. }
    destruct (IH (L ++ [r]) Lf H) as [Hok' Hlen'].
    + rewrite length_app. simpl. fold i.
      now replace (i + 1)%nat with (S i) by lia.
    + split.
      * apply Forall_app. split; [exact Hlen | now constructor].
      * intros a Ha. rewrite length_app in Ha. simpl in Ha. fold i in Ha.
        destruct (decide (a < i)%nat) as [Hlt | Hge].
        -- destruct (Hrows a Hlt) as (H1 & H2 & H3).
           split; [| split].
           ++ intros b Hb. rewrite mat_at_app_l by assumption. now apply H1.
           ++ now rewrite mat_at_app_l by assumption.
           ++ intros b Hb. rewrite <- (H3 b Hb).
              apply Rsum_n_ext. intros k Hk.
              rewrite !mat_at_app_l by (fold i; lia). reflexivity.
        -- assert (a = i) by lia. subst a.
           assert (Hrow : forall k, mat_at (L ++ [r]) i k = nth k r 0)
             by (intros k; apply mat_at_app_r).
           split; [| split].
           ++ intros b Hb. rewrite Hrow. now apply Hr_gt.
           ++ rewrite Hrow, Hr_i. now apply sqrt_lt_R0.
           ++ intros b Hb. rewrite HCi.
              destruct (decide (b = i)) as [-> | Hne].
              ** simpl. rewrite !Hrow, Hr_i, sqrt_sqrt by lra.
                 rewrite (Rsum_n_ext _ _ (fun k => nth k acc 0 * nth k acc 0)).
                 2:{ intros k Hk. rewrite Hrow. now rewrite Hr_lt by lia. }
                 rewrite <- Hacc_len at 1. rewrite <- vdot_Rsum_n by lia.
                 unfold p. lra.
              ** simpl. rewrite <- (Hspec b ltac:(lia)).
                 rewrite Hrow, Hr_lt by lia.
                 rewrite (mat_at_app_l L [r] b b) by (fold i; lia).
                 f_equal. apply Rsum_n_ext. intros k Hk.
                 rewrite Hrow, Hr_lt by lia.
                 now rewrite mat_at_app_l by (fold i; lia).
    + split; [exact Hok' |]. rewrite Hlen', length_app. simpl. fold i. lia.
Qed.

Lemma cholesky_R_lower_ok C L :
  cholesky_R C = Some L -> lower_ok (length C) C L /\ length L = length C.
Proof.
  unfold cholesky_R. destruct (is_square C); [| discriminate]. intros H.
  destruct (chol_rows_spec (length C) C eq_refl C [] L H eq_refl) as [H1 H2].
  - split; [constructor | simpl; intros a Ha; lia].
  - split; [exact H1 | simpl in H2; lia].
Qed.

Section Gram.

Variables (C L : mat).
Hypothesis Hchol : cholesky_R C = Some L.
Hypothesis Hsym : all_symmetric C = true.

Let d := length C.

Lemma gram_lower i j :
  (j <= i < d)%nat ->
  Rsum_n d (fun k => mat_at L i k * mat_at L j k) = mat_at C i j.
Proof.
  intros Hij. destruct (cholesky_R_lower_ok C L Hchol) as [[_ Hrows] Hlen].
  fold d in Hlen.
  destruct (Hrows i ltac:(lia)) as (_ & _ & H3).
  rewrite <- (H3 j ltac:(lia)).
  apply Rsum_n_trunc; [lia |]. intros k Hk.
  destruct (Hrows j ltac:(lia)) as (H1 & _ & _).
  rewrite (H1 k) by lia. lra.
Qed.

Lemma gram i j :
  (i < d)%nat -> (j < d)%nat ->
  Rsum_n d (fun k => mat_at L i k * mat_at L j k) = mat_at C i j.
Proof.
  intros Hi Hj. destruct (decide (j <= i)%nat) as [Hle | Hgt].
  - apply gram_lower. lia.
  - rewrite (all_symmetric_at C i j Hsym) by (fold d; lia).
    rewrite <- (gram_lower j i) by lia.
    apply Rsum_n_ext. intros k _. lra.
Qed.

Lemma quad_form_squares x :
  quad_form C x
  = Rsum_n d (fun k => Rsum_n d (fun i => mat_at L i k * x i)
                       * Rsum_n d (fun i => mat_at L i k * x i)).
Proof.
  unfold quad_form. fold d.
  rewrite (Rsum_n_ext d _
             (fun i => Rsum_n d (fun k =>
                Rsum_n d (fun j => (mat_at L i k * x i) * (mat_at L j k * x j))))).
  2:{ intros i Hi. rewrite Rsum_n_swap.
      apply Rsum_n_ext. intros j Hj.
      rewrite <- (gram i j Hi Hj), Rsum_n_scal2.
      apply Rsum_n_ext. intros k _. lra. }
  rewrite Rsum_n_swap.
  apply Rsum_n_ext. intros k Hk. now rewrite Rsum_n_prod.
Qed.

Lemma back_substitution x :
  (forall k, (k < d)%nat -> Rsum_n d (fun i => mat_at L i k * x i) = 0) ->
  forall m, (m <= d)%nat ->
            forall i, (d - m <= i < d)%nat -> x i = 0.
Proof.
  intros Hy. destruct (cholesky_R_lower_ok C L Hchol) as [[_ Hrows] Hlen].
  fold d in Hlen.
  induction m as [| m IH]; intros Hm i Hi; [lia |].
  destruct (decide (d - m <= i)%nat) as [Hge | Hlt]; [apply IH; lia |].
  specialize (IH ltac:(lia)).
  pose proof (Hy i ltac:(lia)) as Hyi.
  rewrite (Rsum_n_single d _ i) in Hyi; [| lia |].
  - destruct (Hrows i ltac:(lia)) as (_ & Hpos & _). nra.
  - intros r Hr Hne. destruct (decide (r < i)%nat) as [Hri | Hri].
    + destruct (Hrows r ltac:(lia)) as (H1 & _ & _).
      rewrite (H1 i Hri). lra.
    + rewrite (IH r) by lia. lra.
Qed.

Lemma quad_form_positive x :
  (exists i, (i < d)%nat /\ x i <> 0) -> 0 < quad_form C x.
Proof.
  intros (i & Hi & Hx). rewrite quad_form_squares.
  set (y := fun k => Rsum_n d (fun i => mat_at L i k * x i)).
  assert (Hnn : forall k, (k < d)%nat -> 0 <= y k * y k) by (intros; nra).
  pose proof (Rsum_n_nonneg d (fun k => y k * y k) Hnn) as H0.
  destruct (Req_dec (Rsum_n d (fun k => y k * y k)) 0) as [Hz | Hnz];
    [| unfold y in *; lra].
  contradiction Hx. apply (back_substitution x) with (m := d); [| lia | lia].
  intros k Hk.
  pose proof (Rsum_n_zero_all d (fun k => y k * y k) Hnn Hz k Hk) as Hk0.
  simpl in Hk0. fold (y k). nra.
Qed.

End Gram.

Theorem cholesky_R_sound C L :
  cholesky_R C = Some L -> all_symmetric C = true -> positive_definite C.
Proof. intros Hc Hs x Hx. exact (quad_form_positive C L Hc Hs x Hx). Qed.

End CholeskySpec.

(** ** Runs of the constructor on concrete inputs *)

Module Runs.

Import Nataf RealLib ConstructSpec.

Lemma sqrt_val x y : 0 <= y -> y * y = x -> sqrt x = y.
Proof. intros Hy <-. now apply sqrt_square. Qed.

Lemma sqrt_le_bound x y : 0 <= y -> x <= y * y -> sqrt x <= y.
Proof.
  intros Hy Hx. destruct (Rle_dec 0 x) as [H0 | H0].
  - rewrite <- (sqrt_square y) by assumption. now apply sqrt_le_1_alt.
  - rewrite sqrt_neg_0 by lra. exact Hy.
Qed.

Lemma sqrt_gt_bound x y : 0 <= y -> y * y < x -> y < sqrt x.
Proof.
  intros Hy Hx. rewrite <- (sqrt_square y) at 1 by assumption.
  apply sqrt_lt_1_alt. nra.
Qed.

Lemma if_Rltb_true {T} x y (a b : T) :
  x < y -> (if Rltb x y then a else b) = a.
Proof. intros H. now rewrite (proj2 (Rltb_true x y)). Qed.

(** Run the factorization of a concrete matrix: the square roots that are
    1 or 0.8 are computed, the pivots that remain are shown positive. *)
Ltac sqrt_norm :=
  repeat match goal with
         | |- context [sqrt ?x] =>
             first [ rewrite (sqrt_val x 1) by lra
                   | rewrite (sqrt_val x 0.8) by lra ]
         end.

Ltac chol_run :=
  unfold cholesky_R; simpl; unfold vdot, Rsum; simpl;
  sqrt_norm;
  rewrite !if_Rltb_true by lra.

(** Decide the tests on reals of a concrete run, one after the other. *)
Ltac run := repeat (simpl; try real_test).

Lemma chol_C_near : exists L, cholesky_R C_near = Some L.
Proof. unfold C_near. chol_run. now eexists. Qed.

Lemma chol_C_06 : exists L, cholesky_R C_06 = Some L.
Proof. unfold C_06. chol_run. now eexists. Qed.

Lemma chol_C_05 : exists L, cholesky_R C_05 = Some L.
Proof. unfold C_05. chol_run. now eexists. Qed.

Lemma chol_C_13 : exists L, cholesky_R C_13 = Some L.
Proof.
  unfold C_13. chol_run. now eexists.
Qed.

Lemma chol_identity_1 : exists L, cholesky_R (identity 1) = Some L.
Proof. chol_run. now eexists. Qed.

Lemma chol_identity_2 : exists L, cholesky_R (identity 2) = Some L.
Proof. chol_run. now eexists. Qed.

Lemma checks_C_near : all_symmetric C_near = true /\ unit_diagonal C_near = true.
Proof. unfold all_symmetric, unit_diagonal, mat_at. now run. Qed.

Lemma checks_C_06 : all_symmetric C_06 = true /\ unit_diagonal C_06 = true.
Proof. unfold all_symmetric, unit_diagonal, mat_at. now run. Qed.

Lemma checks_C_05 : all_symmetric C_05 = true /\ unit_diagonal C_05 = true.
Proof. unfold all_symmetric, unit_diagonal, mat_at. now run. Qed.

Lemma checks_C_13 : all_symmetric C_13 = true /\ unit_diagonal C_13 = true.
Proof. unfold all_symmetric, unit_diagonal, mat_at. now run. Qed.

Lemma near_C_near (M : list ERADist) :
  length M = 2%nat ->
  norm_fro (mat_sub C_near (identity (n_dist M))) <= / 10 ^ 5.
Proof.
  intros H. unfold n_dist. rewrite H. unfold norm_fro. simpl.
  apply sqrt_le_bound; lra.
Qed.

Lemma far_C (M : list ERADist) (c : R) :
  length M = 2%nat -> 0.5 <= c ->
  far_from_identity M [[1; c]; [c; 1]] = true.
Proof.
  intros H Hc. unfold far_from_identity, n_dist. rewrite H.
  unfold norm_fro. simpl. apply Rltb_true, sqrt_gt_bound; nra.
Qed.

Lemma far_C_13 (M : list ERADist) :
  length M = 3%nat -> far_from_identity M C_13 = true.
Proof.
  intros H. unfold far_from_identity, n_dist. rewrite H.
  unfold norm_fro. simpl. apply Rltb_true, sqrt_gt_bound; nra.
Qed.

(** The constructor, once its checks are passed and the matrix is far from
    the identity. *)
Lemma construct_far {lib : NumLib} M C rng0 L0 st L :
  finite_moments M = true ->
  cholesky C = Some L0 ->
  all_symmetric C = true /\ unit_diagonal C = true ->
  far_from_identity M C = true ->
  outer_loop M C (range 0 (n_dist M)) (mkFill (identity (n_dist M)) rng0 [])
  = ret st ->
  cholesky (fRho_Z st) = Some L ->
  construct M C rng0 = ret (mkNataf M C (fRho_Z st) L, st).
Proof.
  intros Hfin Hch [Hsym Hdiag] Hfar Hfill HL.
  unfold construct, init_fill.
  rewrite Hfin, Hch, Hsym, Hdiag, Hfar. simpl. rewrite Hfill. simpl.
  now rewrite HL.
Qed.

(** The constructor on a matrix close to the identity. *)
Lemma construct_near {lib : NumLib} M C rng0 L0 L :
  finite_moments M = true ->
  cholesky C = Some L0 ->
  all_symmetric C = true /\ unit_diagonal C = true ->
  far_from_identity M C = false ->
  cholesky (identity (n_dist M)) = Some L ->
  construct M C rng0
  = ret (mkNataf M C (identity (n_dist M)) L,
         mkFill (identity (n_dist M)) rng0 []).
Proof.
  intros Hfin Hch [Hsym Hdiag] Hnear HL.
  unfold construct, init_fill.
  rewrite Hfin, Hch, Hsym, Hdiag, Hnear. simpl. now rewrite HL.
Qed.

(** Two normal marginals with correlation 0.6, Brent's method converging:
    the fill copies the correlation. *)
Lemma fill_normal_06 :
  outer_loop (lib := lib_of brent_converges) [normal01; normal01] C_06
    (range 0 2) (mkFill (identity 2) 0 [])
  = ret (mkFill C_06 0 []).
Proof. unfold C_06. simpl. unfold fill_body. now run. Qed.

(** Two uniform marginals with correlation 0.5 in the scenario
    [restart_at_1]: the root found at the second random seed is stored on
    the diagonal, in entry (1, 1), and the entries (0, 1) and (1, 0) of the
    pair stay 0. *)
Lemma fill_uniform_05 :
  exists cs,
    outer_loop (lib := lib_of restart_at_1) [uniform01; uniform01] C_05
      (range 0 2) (mkFill (identity 2) 0 [])
    = ret (mkFill [[1; 0]; [0; 0.6]] 2 cs) /\
    ~ clean cs.
Proof.
  unfold C_05. simpl. unfold fill_body. run.
  unfold solve_pair. run. eexists. split; [reflexivity |].
  intros Hc. inversion Hc as [| ? ? Hr _]. discriminate Hr.
Qed.

Lemma chol_Z_05 : exists L, cholesky_R [[1; 0]; [0; 0.6]] = Some L.
Proof. chol_run. now eexists. Qed.

(** A marginal named [normal] and one named [standardnormal] with
    correlation 0.6: the pair goes to the root finder, and the entry is the
    root that Brent's method returns. *)
Lemma fill_mixed_06 :
  outer_loop (lib := lib_of brent_near_06) [normal01; standardnormal01] C_06
    (range 0 2) (mkFill (identity 2) 0 [])
  = ret (mkFill [[1; 0.6000000000001]; [0.6000000000001; 1]] 0
           [CallBrentq 0 1]).
Proof. unfold C_06. simpl. unfold fill_body. run. unfold solve_pair. now run. Qed.

Lemma chol_Z_mixed :
  exists L, cholesky_R [[1; 0.6000000000001]; [0.6000000000001; 1]] = Some L.
Proof. chol_run. now eexists. Qed.

(** A pair of one marginal named [normal] and one named [standardnormal]
    is not copied but solved for: its standard-normal correlation is the
    root returned, here 0.6000000000001 for the physical correlation 0.6. *)
Lemma mixed_normal_pair_is_solved :
  exists e,
    ERANataf_init (lib := lib_of brent_near_06)
      [normal01; standardnormal01] C_06 0
    = ret e /\
    both_normal normal01 standardnormal01 = false /\
    mat_at (Rho_X e) 0 1 = 0.6 /\
    mat_at (Rho_Z e) 0 1 = 0.6000000000001.
Proof.
  destruct chol_C_06 as [L0 H0]. destruct chol_Z_mixed as [L HL].
  exists (mkNataf [normal01; standardnormal01] C_06
            [[1; 0.6000000000001]; [0.6000000000001; 1]] L).
  split; [| repeat split; reflexivity].
  unfold ERANataf_init.
  rewrite (construct_far (lib := lib_of brent_near_06)
             [normal01; standardnormal01] C_06 0 L0
             (mkFill [[1; 0.6000000000001]; [0.6000000000001; 1]] 0
                [CallBrentq 0 1]) L);
    [reflexivity | reflexivity | exact H0 | exact checks_C_06
    | apply far_C; [reflexivity | lra] | exact fill_mixed_06 | exact HL].
Qed.

(** C3 as stated fails: two marginals named [normal] with physical
    correlation 1e-6.  The matrix is within 1e-5 of the identity, the fill
    is skipped, and the standard-normal correlation of the pair is 0. *)
Lemma C3_counterexample :
  exists e,
    ERANataf_init (lib := lib_of brent_converges) [normal01; normal01] C_near 0
    = ret e /\
    both_normal normal01 normal01 = true /\
    mat_at (Rho_X e) 0 1 = 0.000001 /\
    mat_at (Rho_Z e) 0 1 = 0 /\
    mat_at (Rho_Z e) 0 1 <> mat_at (Rho_X e) 0 1.
Proof.
  destruct chol_C_near as [L0 H0]. destruct chol_identity_2 as [L HL].
  exists (mkNataf [normal01; normal01] C_near (identity 2) L).
  split.
  - unfold ERANataf_init.
    rewrite (construct_near (lib := lib_of brent_converges)
               [normal01; normal01] C_near 0 L0 L);
      [reflexivity | reflexivity | exact H0 | exact checks_C_near
      | | exact HL].
    apply Rltb_false. now apply near_C_near.
  - repeat split; try reflexivity. unfold mat_at. simpl. lra.
Qed.

Lemma C3_witness :
  exists e st,
    construct (lib := lib_of brent_converges) [normal01; normal01] C_06 0
    = ret (e, st) /\
    mat_at (Rho_Z e) 0 1 = mat_at C_06 0 1.
Proof.
  destruct chol_C_06 as [L HL].
  assert (Hrun : construct (lib := lib_of brent_converges)
                   [normal01; normal01] C_06 0
                 = ret (mkNataf [normal01; normal01] C_06 C_06 L,
                        mkFill C_06 0 [])).
  { apply (construct_far (lib := lib_of brent_converges)
             [normal01; normal01] C_06 0 L (mkFill C_06 0 []) L);
      [reflexivity | exact HL | exact checks_C_06
      | apply far_C; [reflexivity | lra] | exact fill_normal_06 | exact HL]. }
  eexists _, _. split; [exact Hrun |].
  apply (C3_normal_pairs_keep_correlation (lib_of brent_converges)
           [normal01; normal01] C_06 0 _ _ 0 1 normal01 normal01 Hrun);
    [apply far_C; [reflexivity | lra] | constructor
    | reflexivity | reflexivity | lia | reflexivity].
Defined.


Lemma chol_not_pd : cholesky_R [[1; 2]; [2; 1]] = None.
Proof.
  unfold cholesky_R; simpl; unfold vdot, Rsum; simpl. sqrt_norm.
  rewrite if_Rltb_true by lra.
  now rewrite (proj2 (Rltb_false _ _)) by lra.
Qed.

Lemma not_pd_2 : ~ positive_definite [[1; 2]; [2; 1]].
Proof.
  intros H.
  specialize (H (fun i => if (i =? 0)%nat then 1 else -1)).
  assert (H0 : 0 < quad_form [[1; 2]; [2; 1]]
                     (fun i => if (i =? 0)%nat then 1 else -1)).
  { apply H. exists 0%nat. simpl. split; [lia | lra]. }
  unfold quad_form, mat_at in H0. simpl in H0. lra.
Qed.

(** The three rejections on concrete matrices, with the factorization over
    the reals: one with correlation 2, symmetric with unit diagonal and not
    positive definite; one that is not symmetric; one with a diagonal
    entry 2. *)
Lemma C5_witness :
  (exists e,
      ERANataf_init (lib := lib_of brent_converges)
        [uniform01; uniform01] [[1; 2]; [2; 1]] 0 = raise e /\
      invalid_correlation e) /\
  (exists e,
      ERANataf_init (lib := lib_of brent_converges)
        [uniform01; uniform01] [[1; 0.5]; [0.4; 1]] 0 = raise e /\
      invalid_correlation e) /\
  (exists e,
      ERANataf_init (lib := lib_of brent_converges)
        [uniform01; uniform01] [[1; 0]; [0; 2]] 0 = raise e /\
      invalid_correlation e).
Proof.
  split; [| split];
    apply (C5_invalid_correlation_rejected (lib_of brent_converges));
    try reflexivity; try exact CholeskySpec.cholesky_R_sound.
  - right. right. exact not_pd_2.
  - right. left. exists 0%nat, 1%nat. simpl. unfold mat_at; simpl.
    repeat split; [lia | lia | lra].
  - left. exists 1%nat. simpl. unfold mat_at; simpl.
    split; [lia | lra].
Defined.

End Runs.

(** ** ERANataf.py: the forward and the inverse transform *)

Module RoundTrip.

Import Nataf RealLib ConstructSpec Runs.

(** *** Loops that assign the rows, or the entries of a row, in turn *)

Lemma fold_insert_seq {T B} (g : nat * B -> T) (l : list B) :
  forall (s : nat) (r : list T),
    (s + length l <= length r)%nat ->
    fold_left (fun r im => <[im.1 := g im]> r) (zip (seq s (length l)) l) r
    = take s r ++ map g (zip (seq s (length l)) l) ++ drop (s + length l) r.
Proof.
  induction l as [| b l IH]; intros s r Hlen; simpl.
  - rewrite Nat.add_0_r. now rewrite take_drop.
  - simpl in Hlen. rewrite IH by (rewrite length_insert; lia).
    rewrite (take_S_r _ s (g (s, b))) by (apply list_lookup_insert_eq; lia).
    rewrite take_insert_ge by lia.
    rewrite drop_insert_lt by lia.
    rewrite <- app_assoc. simpl.
    now replace (s + S (length l))%nat with (S (s + length l)) by lia.
Qed.

(** Assigning all the entries of a list by their index leaves the values
    assigned. *)
Lemma fold_insert_all {T B} (g : nat * B -> T) (l : list B) (r : list T) :
  length r = length l ->
  fold_left (fun r im => <[im.1 := g im]> r) (enumerate l) r
  = map g (enumerate l).
Proof.
  intros H. unfold enumerate. rewrite fold_insert_seq by lia.
  simpl. rewrite drop_ge by lia. now rewrite app_nil_r.
Qed.

Lemma fold_set_row (f : nat * ERADist -> vec) ims :
  forall Z0,
    fold_left (fun Z im => set_row Z im.1 (f im)) ims Z0
    = mkArr (dim0 Z0) (dim1 Z0)
        (fold_left (fun R im => <[im.1 := f im]> R) ims (rows Z0)).
Proof.
  induction ims as [| im ims IH]; intros Z0; simpl.
  - now destruct Z0.
  - now rewrite IH.
Qed.

Lemma fold_set_col_point (f : nat * ERADist -> R) ims :
  forall n1 r,
    fold_left (fun X im => set_col X im.1 [f im]) ims (mkArr 1 n1 [r])
    = mkArr 1 n1 [fold_left (fun r im => <[im.1 := f im]> r) ims r].
Proof.
  induction ims as [| im ims IH]; intros n1 r; simpl; [reflexivity |].
  unfold set_col at 2. simpl. apply IH.
Qed.

Lemma fold_left_ext_in {T B} (f g : T -> B -> T) (l : list B) :
  (forall acc x, x ∈ l -> f acc x = g acc x) ->
  forall a, fold_left f l a = fold_left g l a.
Proof.
  induction l as [| x l IH]; intros H a; simpl; [reflexivity |].
  rewrite H by set_solver. apply IH. intros acc y Hy. apply H. set_solver.
Qed.

Lemma lookup_enumerate_from {B} (l : list B) :
  forall s k, zip (seq s (length l)) l !! k = (fun m => ((s + k)%nat, m)) <$> l !! k.
Proof.
  induction l as [| b l IH]; intros s k; simpl; [now destruct k |].
  destruct k as [| k]; simpl.
  - now rewrite Nat.add_0_r.
  - rewrite IH. now replace (S s + k)%nat with (s + S k)%nat by lia.
Qed.

Lemma lookup_enumerate {B} (l : list B) k :
  enumerate l !! k = (fun m => (k, m)) <$> l !! k.
Proof. unfold enumerate. now rewrite lookup_enumerate_from. Qed.

Lemma elem_of_enumerate {B} (l : list B) i m :
  (i, m) ∈ enumerate l -> l !! i = Some m.
Proof.
  intros H. apply list_elem_of_lookup in H as [k Hk].
  rewrite lookup_enumerate in Hk.
  destruct (l !! k) as [m' |] eqn:E; simpl in Hk; [| discriminate].
  injection Hk as <- <-. exact E.
Qed.

Lemma length_enumerate {B} (l : list B) : length (enumerate l) = length l.
Proof.
  unfold enumerate. rewrite length_zip_with, length_seq. lia.
Qed.

Lemma map_nth_seq (u : vec) :
  map (fun k => nth k u 0) (seq 0 (length u)) = u.
Proof.
  apply list_eq. intros k. rewrite list_lookup_fmap.
  destruct (decide (k < length u)%nat) as [Hk | Hk].
  - rewrite lookup_seq_lt by assumption. simpl.
    rewrite nth_lookup. destruct (lookup_lt_is_Some_2 u k Hk) as [x Hx].
    now rewrite Hx.
  - rewrite lookup_seq_ge by lia. simpl.
    symmetry. apply lookup_ge_None. lia.
Qed.

(** *** One point, two marginals or more

    Over the reals, for an engine of at least two continuous marginals and a
    point [x] at whose coordinates the marginals are inverted by their
    [icdf], [U2X] gives back [x] from what [X2U] returns.  What is assumed
    of the libraries: [np.linalg.solve] solves the system for [self.A], and
    [stats.norm.cdf] inverts [stats.norm.ppf] on (0, 1). *)

Section Point.

Context {lib : NumLib}.
Variable self : ERANataf.
Variable x : vec.
Abbreviation Ms := (Marginals self).
Abbreviation d := (length (Marginals self)).

Hypothesis Hd : (2 <= d)%nat.
Hypothesis Hcont : existsb is_discrete Ms = false.
Hypothesis Hx : length x = d.
Hypothesis Hnorm : forall p, 0 < p < 1 -> norm_cdf (norm_ppf p) = p.
Hypothesis Hinv :
  forall i m xi, Ms !! i = Some m -> x !! i = Some xi ->
                 0 < cdf m xi < 1 /\ icdf m (cdf m xi) = xi.

Abbreviation z_of := (normal_image self x).

Lemma length_z_of : length z_of = d.
Proof. unfold normal_image. now rewrite length_map, length_enumerate. Qed.

Lemma check_dims_point (v : vec) m1 m2 :
  length v = d -> check_dims self (Vec v) m1 m2 = ret (mkArr 1 d [v]).
Proof.
  intros Hv. unfold check_dims. simpl. rewrite Hv.
  rewrite (proj2 (Nat.eqb_neq d 1)) by lia. simpl.
  now rewrite Nat.eqb_refl.
Qed.

Lemma to_normal_rows_point :
  to_normal_rows self (mkArr 1 d [x]) (zeros d 1)
  = mkArr d 1 (map (fun t => [t]) z_of).
Proof.
  unfold to_normal_rows. 
  rewrite (fold_set_row
             (fun im => map (fun x0 => norm_ppf (cdf im.2 x0))
                          (col (mkArr 1 d [x]) im.1))).
  simpl. rewrite fold_insert_all by (now rewrite length_replicate).
  unfold normal_image. rewrite map_map. reflexivity.
Qed.

Lemma X2U_point u :
  solve (A self) (Vec z_of) = ret (Vec u) -> length u = d ->
  X2U self (Vec x) false = ret (Vec u, None).
Proof.
  intros Hs Hu. unfold X2U, check_continuous. rewrite Hcont.
  rewrite check_dims_point by assumption. unfold bind, ret.
  cbv beta iota zeta. cbn [dim0 dim1 rows].
  rewrite to_normal_rows_point.
  unfold squeeze2. simpl dim0. simpl dim1.
  rewrite (proj2 (Nat.eqb_neq d 1)) by lia. simpl andb. cbv iota.
  unfold col. simpl rows. rewrite map_map. simpl. rewrite map_id.
  rewrite Hs. simpl. rewrite Hu.
  now rewrite (proj2 (Nat.eqb_neq d 1)) by lia.
Qed.

Lemma U2X_point u :
  length u = d -> matvec (A self) u = z_of ->
  U2X self (Vec u) false = ret (Vec x, None).
Proof.
  intros Hu Hz. unfold U2X. rewrite check_dims_point by assumption.
  unfold bind, ret. cbv beta iota zeta.
  assert (HU : transpose (mkArr 1 d [u]) = mkArr d 1 (map (fun t => [t]) u)).
  { unfold transpose. simpl. f_equal.
    rewrite <- (map_nth_seq u) at 2. now rewrite Hu, map_map. }
  rewrite HU.
  assert (HZ : matmul (A self) (mkArr d 1 (map (fun t => [t]) u))
               = mkArr (length (A self)) 1 (map (fun t => [t]) z_of)).
  { unfold matmul. simpl. f_equal. rewrite <- Hz.
    unfold matvec. rewrite map_map.
    apply map_ext. intros a. unfold col. simpl. rewrite map_map. simpl.
    now rewrite map_id. }
  rewrite HZ. clear HU HZ. cbn [dim0 dim1].
  unfold to_physical_cols.
  rewrite (fold_left_ext_in _
             (fun X im => set_col X im.1 [icdf im.2 (norm_cdf (nth im.1 z_of 0))])).
  2:{ intros acc [i m] Him. simpl. f_equal.
      apply elem_of_enumerate, lookup_lt_Some in Him.
      unfold row. simpl.
      rewrite (nth_indep _ [] [0])
        by (rewrite length_map, length_z_of; exact Him).
      now rewrite (map_nth (fun t => [t])). }
  change (zeros 1 d) with (mkArr 1 d [replicate d 0]).
  pose proof (fold_set_col_point
                (fun im => icdf im.2 (norm_cdf (nth im.1 z_of 0)))
                (enumerate Ms) d (replicate d 0)) as Hf.
  cbv beta in Hf. rewrite Hf. clear Hf.
  rewrite fold_insert_all by (now rewrite length_replicate).
  unfold squeeze2. cbn [dim0 dim1 rows].
  rewrite (proj2 (Nat.eqb_neq d 1)) by lia. simpl.
  do 3 f_equal. unfold row. simpl.
  apply list_eq. intros k. rewrite list_lookup_fmap, lookup_enumerate.
  destruct (Ms !! k) as [m |] eqn:Em; simpl.
  - pose proof (lookup_lt_Some _ _ _ Em) as Hk.
    destruct (lookup_lt_is_Some_2 x k ltac:(lia)) as [xi Hxi].
    rewrite Hxi. f_equal.
    destruct (Hinv k m xi Em Hxi) as [Hp Hi].
    assert (Hzk : nth k z_of 0 = norm_ppf (cdf m xi)).
    { rewrite nth_lookup. unfold normal_image.
      rewrite list_lookup_fmap, lookup_enumerate, Em. simpl.
      now rewrite nth_lookup, Hxi. }
    now rewrite Hzk, Hnorm.
  - symmetry. apply lookup_ge_None. apply lookup_ge_None in Em. lia.
Qed.

Hypothesis Hsolve :
  forall z, length z = d ->
            exists u, solve (A self) (Vec z) = ret (Vec u) /\ length u = d /\
                      matvec (A self) u = z.

Theorem roundtrip_point :
  exists u, X2U self (Vec x) false = ret (Vec u, None) /\
            U2X self (Vec u) false = ret (Vec x, None).
Proof.
  destruct (Hsolve z_of length_z_of) as (u & Hs & Hu & Hz).
  exists u. split; [now apply X2U_point | now apply U2X_point].
Qed.

End Point.

(** *** The library over the reals meets what is assumed *)

Lemma sigmoid_ppf_cdf z : sigmoid_ppf (sigmoid_cdf z) = z.
Proof.
  unfold sigmoid_ppf, sigmoid_cdf.
  destruct (Rle_dec 0 z) as [Hz | Hz].
  - rewrite (Rabs_pos_eq z) by assumption.
    replace (2 * (1 / 2 + z / (2 * (1 + z))) - 1) with (z / (1 + z))
      by (field; lra).
    rewrite Rabs_pos_eq.
    + field. lra.
    + apply Rmult_le_pos; [assumption |].
      left. apply Rinv_0_lt_compat. lra.
  - rewrite (Rabs_left z) by lra.
    replace (2 * (1 / 2 + z / (2 * (1 + - z))) - 1) with (z / (1 - z))
      by (field; lra).
    rewrite Rabs_left.
    + field. lra.
    + assert (H : 0 < / (1 - z)) by (apply Rinv_0_lt_compat; lra).
      unfold Rdiv. nra.
Qed.

Lemma sigmoid_cdf_ppf p : 0 < p < 1 -> sigmoid_cdf (sigmoid_ppf p) = p.
Proof.
  intros Hp. unfold sigmoid_ppf, sigmoid_cdf.
  destruct (Rle_dec 0 (2 * p - 1)) as [Hy | Hy].
  - rewrite (Rabs_pos_eq (2 * p - 1)) by assumption.
    rewrite Rabs_pos_eq.
    + field. lra.
    + apply Rmult_le_pos; [assumption |].
      left. apply Rinv_0_lt_compat. lra.
  - rewrite (Rabs_left (2 * p - 1)) by lra.
    rewrite Rabs_left.
    + field. lra.
    + assert (H : 0 < / (1 - - (2 * p - 1))) by (apply Rinv_0_lt_compat; lra).
      unfold Rdiv. nra.
Qed.

Lemma sigmoid_cdf_range z : 0 < sigmoid_cdf z < 1.
Proof.
  unfold sigmoid_cdf.
  assert (Ha : 0 <= Rabs z) by apply Rabs_pos.
  assert (Hl : - Rabs z <= z <= Rabs z).
  { split; [| apply Rle_abs]. rewrite <- Rabs_Ropp.
    pose proof (Rle_abs (- z)). lra. }
  assert (Ht : 0 < / (2 * (1 + Rabs z))) by (apply Rinv_0_lt_compat; lra).
  assert (H1 : / (2 * (1 + Rabs z)) * (2 * (1 + Rabs z)) = 1)
    by (apply Rinv_l; lra).
  unfold Rdiv. split; nra.
Qed.

Lemma chol_C_06_value : cholesky_R C_06 = Some [[1; 0]; [0.6; 0.8]].
Proof.
  unfold C_06. chol_run. repeat f_equal; lra.
Qed.

(** Forward substitution solves the systems of the factor of [C_06]. *)
Lemma solve_R_C_06 (z : vec) :
  length z = 2%nat ->
  exists u, solve_R [[1; 0]; [0.6; 0.8]] (Vec z) = ret (Vec u) /\
            length u = 2%nat /\ matvec [[1; 0]; [0.6; 0.8]] u = z.
Proof.
  destruct z as [| z0 [| z1 [| ? ?]]]; try discriminate. intros _.
  eexists. unfold solve_R, nonzero_diagonal, mat_at. run.
  split; [reflexivity | split; [reflexivity |]].
  unfold matvec, vdot, Rsum. simpl. repeat f_equal; field; lra.
Qed.

(** The round trip on a constructed object: two normal marginals with
    correlation 0.6 and the point (0, 0.3). *)
Lemma roundtrip_example :
  exists e u,
    ERANataf_init (lib := lib_of brent_converges) [normal01; normal01] C_06 0
    = ret e /\
    X2U (lib := lib_of brent_converges) e (Vec [0; 0.3]) false
    = ret (Vec u, None) /\
    U2X (lib := lib_of brent_converges) e (Vec u) false
    = ret (Vec [0; 0.3], None).
Proof.
  set (e := mkNataf [normal01; normal01] C_06 C_06 [[1; 0]; [0.6; 0.8]]).
  destruct (roundtrip_point (lib := lib_of brent_converges) e [0; 0.3])
    as (u & H1 & H2).
  - simpl. lia.
  - reflexivity.
  - reflexivity.
  - apply sigmoid_cdf_ppf.
  - intros i m xi Hm Hxi.
    destruct i as [| [| i]]; simpl in Hm, Hxi; try discriminate;
      injection Hm as <-; injection Hxi as <-; simpl;
      split; try apply sigmoid_cdf_range; apply sigmoid_ppf_cdf.
  - apply solve_R_C_06.
  - exists e, u. split; [| split; assumption].
    unfold ERANataf_init.
    rewrite (construct_far (lib := lib_of brent_converges)
               [normal01; normal01] C_06 0 [[1; 0]; [0.6; 0.8]]
               (mkFill C_06 0 []) [[1; 0]; [0.6; 0.8]]);
      [reflexivity | reflexivity | exact chol_C_06_value | exact checks_C_06
      | apply far_C; [reflexivity | lra] | exact fill_normal_06
      | exact chol_C_06_value].
Qed.

(** *** One marginal *)

(** With a single marginal the array [Z] has one row; for one point
    [Z.squeeze()] has no dimension left, and that is what [X2U] hands to
    [np.linalg.solve]. *)
Lemma X2U_one_marginal {lib : NumLib} self m x jac e :
  Marginals self = [m] ->
  is_discrete m = false ->
  solve (A self) (Scalar (norm_ppf (cdf m x))) = raise e ->
  X2U self (Scalar x) jac = raise e.
Proof.
  intros HM Hm Hs. unfold X2U, check_continuous, check_dims, to_normal_rows.
  rewrite HM. simpl. rewrite Hm. simpl. unfold squeeze2, mat_at. simpl.
  now rewrite Hs.
Qed.

Lemma chol_one : cholesky_R [[1]] = Some [[1]].
Proof. chol_run. reflexivity. Qed.

(** The constructor accepts a single marginal of any name with the
    correlation matrix [[1]]: the engine of C1 is one that it returns. *)
Lemma one_marginal_constructed (m : ERADist) :
  isfinite (mean m) && isfinite (std m) = true ->
  ERANataf_init (lib := lib_of brent_converges) [m] [[1]] 0
  = ret (mkNataf [m] [[1]] [[1]] [[1]]).
Proof.
  intros Hm. unfold ERANataf_init.
  rewrite (construct_near (lib := lib_of brent_converges)
             [m] [[1]] 0 [[1]] [[1]]);
    [reflexivity | | exact chol_one | | | exact chol_one].
  - unfold finite_moments. simpl. now rewrite Hm.
  - unfold all_symmetric, unit_diagonal, mat_at. now run.
  - apply Rltb_false. unfold norm_fro. simpl.
    apply sqrt_le_bound; lra.
Qed.

Lemma poisson_engine_constructed (c i p : R -> R) :
  ERANataf_init (lib := lib_of brent_converges) [poisson c i p] [[1]] 0
  = ret (mkNataf [poisson c i p] [[1]] [[1]] [[1]]).
Proof. now apply one_marginal_constructed. Qed.

(** C7, on the code.  The engine of the single marginal [normal01], as the
    constructor returns it: [X2U] raises [ValueError] at every point,
    given as a number, as a vector or as an array of one row, because
    [np.linalg.solve] refuses a right-hand side without dimensions; [U2X]
    returns on every number.  So [U2X(X2U(X))] is not [X]: it is not
    computed. *)
Theorem C7_X2U_fails_with_one_marginal :
  let e := mkNataf [normal01] [[1]] [[1]] [[1]] in
  ERANataf_init (lib := lib_of brent_converges) [normal01] [[1]] 0 = ret e /\
  (forall x jac,
      X2U (lib := lib_of brent_converges) e (Scalar x) jac = raise ValueError /\
      X2U (lib := lib_of brent_converges) e (Vec [x]) jac = raise ValueError /\
      X2U (lib := lib_of brent_converges) e (Mat (mkArr 1 1 [[x]])) jac
      = raise ValueError) /\
  (forall u, returns (U2X (lib := lib_of brent_converges) e (Scalar u) false)).
Proof.
  intros e. split; [| split].
  - now apply one_marginal_constructed.
  - intros x jac. repeat split; reflexivity.
  - intros u. eexists. reflexivity.
Qed.

End RoundTrip.

(** ** pdfs.py: the log-densities and the samples *)

Module DensitySpec.
Import Pdfs.

Lemma half : 0.5 = / 2.
Proof. lra. Qed.

Lemma minus_half : -0.5 = - / 2.
Proof. lra. Qed.

(** Bring the decimals of the source to fractions, for [field]. *)
Ltac halves := rewrite ?half, ?minus_half.

Lemma exp_half_ln x : 0 < x -> exp (0.5 * ln x) = sqrt x.
Proof.
  intros Hx. symmetry. apply sqrt_lem_1; [lra | left; apply exp_pos |].
  rewrite <- exp_plus. replace (0.5 * ln x + 0.5 * ln x) with (ln x) by lra.
  now apply exp_ln.
Qed.

Lemma ln_inv_minus a : 0 < a -> ln (1 / a) = - ln a.
Proof. intros Ha. unfold Rdiv. rewrite Rmult_1_l. now apply ln_Rinv. Qed.

(** On its support a uniform marginal with [lower < upper] has the constant
    log-density [-ln (upper - lower)]: the density times the length of the
    support is 1. *)
Theorem Uniform_log_pdf_on_support :
  forall lo up x, lo < up -> lo <= x <= up ->
    Uniform_log_pdf_eval (mkUniform lo up) x = ret (Fin (- ln (up - lo))) /\
    exp (- ln (up - lo)) * (up - lo) = 1.
Proof.
  intros lo up x Hlt Hx. split.
  - unfold Uniform_log_pdf_eval. simpl.
    rewrite (proj2 (Rleb_true _ _)) by nra.
    rewrite (proj2 (Reqb_false _ _)) by lra.
    rewrite np_log_pos.
    + now rewrite ln_inv_minus by lra.
    + apply Rdiv_lt_0_compat; lra.
  - rewrite exp_Ropp, exp_ln by lra. field. lra.
Qed.

Lemma Uniform_log_pdf_on_support_witness :
  Uniform_log_pdf_eval (mkUniform 2 5) 3 = ret (Fin (- ln (5 - 2))) /\
  exp (- ln (5 - 2)) * (5 - 2) = 1.
Proof. apply Uniform_log_pdf_on_support; lra. Defined.

(** A uniform marginal whose bounds are swapped or equal is constructed, and
    fails at use: between swapped bounds the log-density is [nan], and with
    equal bounds its evaluation at the bound raises [ZeroDivisionError]. *)
Theorem Uniform_degenerate_bounds :
  forall lo up x,
    (up < lo -> up <= x <= lo ->
       Uniform_init lo up = ret (mkUniform lo up) /\
       Uniform_log_pdf_eval (mkUniform lo up) x = ret NaN) /\
    (up = lo -> x = lo ->
       Uniform_init lo up = ret (mkUniform lo up) /\
       Uniform_log_pdf_eval (mkUniform lo up) x = raise ZeroDivisionError).
Proof.
  intros lo up x. split.
  - intros Hlt Hx. split; [reflexivity |].
    unfold Uniform_log_pdf_eval. simpl.
    rewrite (proj2 (Rleb_true _ _)) by nra.
    rewrite (proj2 (Reqb_false _ _)) by lra.
    unfold np_log.
    assert (H : 1 / (up - lo) < 0).
    { unfold Rdiv. rewrite Rmult_1_l. apply Rinv_lt_0_compat. lra. }
    destruct (Rlt_dec 0 _); [lra |].
    destruct (Req_dec_T _ 0); [lra | reflexivity].
  - intros -> ->. split; [reflexivity |].
    unfold Uniform_log_pdf_eval. simpl.
    rewrite (proj2 (Rleb_true _ _)) by nra.
    now rewrite (proj2 (Reqb_true _ _)) by lra.
Qed.


Lemma Uniform_degenerate_bounds_witness :
  Uniform_log_pdf_eval (mkUniform 5 2) 3 = ret NaN /\
  Uniform_log_pdf_eval (mkUniform 2 2) 2 = raise ZeroDivisionError.
Proof.
  split.
  - apply (proj1 (Uniform_degenerate_bounds 5 2 3)); lra.
  - apply (proj2 (Uniform_degenerate_bounds 2 2 2)); reflexivity.
Defined.

(** Every sample that [Uniform.generate_rns] returns lies in
    [[lower, upper)] and has the finite log-density of the support, when
    [lower < upper] and [np.random.rand] draws from [[0, 1)]. *)
Theorem Uniform_samples_in_support :
  forall (rand : nat -> list R) lo up N,
    lo < up ->
    length (rand N) = N ->
    Forall (fun r => 0 <= r < 1) (rand N) ->
    length (Uniform_generate_rns rand (mkUniform lo up) N) = N /\
    Forall (fun s =>
              lo <= s < up /\
              Uniform_log_pdf_eval (mkUniform lo up) s
              = ret (Fin (- ln (up - lo))))
           (Uniform_generate_rns rand (mkUniform lo up) N).
Proof.
  intros rand lo up N Hlt Hlen Hr. unfold Uniform_generate_rns. simpl. split.
  - now rewrite length_map.
  - apply Forall_map. eapply Forall_impl; [exact Hr |].
    intros r [H0 H1]. cbv beta.
    assert (Hs : lo <= (up - lo) * r + lo < up) by nra.
    split; [exact Hs |].
    apply Uniform_log_pdf_on_support; lra.
Qed.

Lemma Uniform_samples_in_support_witness :
  length (Uniform_generate_rns (fun n => replicate n 0.25) (mkUniform 2 6) 3)
  = 3%nat /\
  Forall (fun s =>
            2 <= s < 6 /\
            Uniform_log_pdf_eval (mkUniform 2 6) s = ret (Fin (- ln (6 - 2))))
         (Uniform_generate_rns (fun n => replicate n 0.25) (mkUniform 2 6) 3).
Proof.
  apply (Uniform_samples_in_support (fun n => replicate n 0.25) 2 6 3).
  - lra.
  - reflexivity.
  - simpl. repeat constructor; lra.
Defined.

Lemma Halfnormal_log_pdf_value sig x :
  0 < sig -> 0 <= x ->
  Halfnormal_log_pdf_eval (mkHalfnormal sig) x
  = ret (Fin (- ln sig + 0.5 * ln (2 / PI) - x * x / (2 * sig * sig))).
Proof.
  intros Hs Hx. unfold Halfnormal_log_pdf_eval. simpl.
  rewrite (proj2 (Rleb_true 0 _)) by lra.
  rewrite (proj2 (Reqb_false _ _)) by nra.
  now rewrite np_log_pos.
Qed.

(** For [0 < sig] and [0 <= x] the value of [Halfnormal.log_pdf_eval] is the
    logarithm of the half-normal density
    [sqrt(2/pi)/sig * exp(-x^2/(2 sig^2))], and it is largest at [x = 0]. *)
Theorem Halfnormal_log_pdf_is_log_density :
  forall sig x, 0 < sig -> 0 <= x ->
    exists v v0,
      Halfnormal_log_pdf_eval (mkHalfnormal sig) x = ret (Fin v) /\
      Halfnormal_log_pdf_eval (mkHalfnormal sig) 0 = ret (Fin v0) /\
      exp v = sqrt (2 / PI) / sig * exp (- x ^ 2 / (2 * sig ^ 2)) /\
      v <= v0.
Proof.
  intros sig x Hs Hx.
  assert (Hpi := PI_RGT_0).
  assert (H2 : 0 < 2 / PI) by (apply Rdiv_lt_0_compat; lra).
  rewrite !Halfnormal_log_pdf_value by lra.
  eexists. eexists. split; [reflexivity | split; [reflexivity | split]].
  - replace (- ln sig + 0.5 * ln (2 / PI) - x * x / (2 * sig * sig))
      with (- ln sig + (0.5 * ln (2 / PI) + - x ^ 2 / (2 * sig ^ 2)))
      by (halves; field; lra).
    rewrite !exp_plus, exp_Ropp, exp_ln, exp_half_ln by assumption.
    field. lra.
  - assert (0 <= x * x / (2 * sig * sig)).
    { apply Rmult_le_pos; [nra | left; apply Rinv_0_lt_compat; nra]. }
    replace (0 * 0 / (2 * sig * sig)) with 0 by (field; lra). lra.
Qed.

Lemma Halfnormal_log_pdf_is_log_density_witness :
  exists v v0,
    Halfnormal_log_pdf_eval (mkHalfnormal 2) 1 = ret (Fin v) /\
    Halfnormal_log_pdf_eval (mkHalfnormal 2) 0 = ret (Fin v0) /\
    exp v = sqrt (2 / PI) / 2 * exp (- 1 ^ 2 / (2 * 2 ^ 2)) /\
    v <= v0.
Proof. apply (Halfnormal_log_pdf_is_log_density 2 1); lra. Defined.

(** Every sample that [Halfnormal.generate_rns] returns for [0 < sig] is
    non-negative and has a finite log-density. *)
Theorem Halfnormal_samples_in_support :
  forall (randn : nat -> list R) sig N,
    0 < sig ->
    length (randn N) = N ->
    length (Halfnormal_generate_rns randn (mkHalfnormal sig) N) = N /\
    Forall (fun s =>
              0 <= s /\
              exists v,
                Halfnormal_log_pdf_eval (mkHalfnormal sig) s = ret (Fin v))
           (Halfnormal_generate_rns randn (mkHalfnormal sig) N).
Proof.
  intros randn sig N Hs Hlen. unfold Halfnormal_generate_rns. simpl. split.
  - now rewrite length_map.
  - apply Forall_map. apply Forall_forall. intros z _. cbv beta.
    assert (H0 : 0 <= sig * Rabs z).
    { apply Rmult_le_pos; [lra | apply Rabs_pos]. }
    split; [exact H0 |].
    destruct (Halfnormal_log_pdf_is_log_density sig _ Hs H0)
      as (v & _ & Hv & _).
    now exists v.
Qed.

Lemma Halfnormal_samples_in_support_witness :
  length (Halfnormal_generate_rns (fun n => replicate n (-1)) (mkHalfnormal 2) 3)
  = 3%nat /\
  Forall (fun s =>
            0 <= s /\
            exists v, Halfnormal_log_pdf_eval (mkHalfnormal 2) s = ret (Fin v))
         (Halfnormal_generate_rns (fun n => replicate n (-1)) (mkHalfnormal 2) 3).
Proof.
  apply (Halfnormal_samples_in_support (fun n => replicate n (-1)) 2 3);
    [lra | reflexivity].
Defined.

Lemma Normal_log_pdf_value mu sig x :
  0 < sig ->
  Normal_log_pdf_eval (mkNormal mu sig) x
  = ret (Fin (- 0.5 * ln (2 * PI) - ln sig - 0.5 * ((x - mu) / sig) ^ 2)).
Proof.
  intros Hs. unfold Normal_log_pdf_eval. simpl.
  rewrite (proj2 (Reqb_false _ _)) by lra.
  now rewrite np_log_pos.
Qed.

(** For [0 < sig] the value of [Normal.log_pdf_eval] is the logarithm of the
    normal density [1/(sig sqrt(2 pi)) * exp(-(x - mu)^2/(2 sig^2))]. *)
Theorem Normal_log_pdf_is_log_density :
  forall mu sig x, 0 < sig ->
    exists v,
      Normal_log_pdf_eval (mkNormal mu sig) x = ret (Fin v) /\
      exp v = / (sig * sqrt (2 * PI)) * exp (- (x - mu) ^ 2 / (2 * sig ^ 2)).
Proof.
  intros mu sig x Hs.
  assert (Hpi := PI_RGT_0).
  assert (H2 : 0 < 2 * PI) by lra.
  assert (Hq : 0 < sqrt (2 * PI)) by now apply sqrt_lt_R0.
  rewrite Normal_log_pdf_value by assumption.
  eexists. split; [reflexivity |].
  replace (- 0.5 * ln (2 * PI) - ln sig - 0.5 * ((x - mu) / sig) ^ 2)
    with (- (0.5 * ln (2 * PI)) + (- ln sig + - (x - mu) ^ 2 / (2 * sig ^ 2)))
    by (halves; field; lra).
  rewrite !exp_plus, !exp_Ropp, exp_ln, exp_half_ln by assumption.
  field. split; lra.
Qed.

Lemma Normal_log_pdf_is_log_density_witness :
  exists v,
    Normal_log_pdf_eval (mkNormal 1 2) 3 = ret (Fin v) /\
    exp v = / (2 * sqrt (2 * PI)) * exp (- (3 - 1) ^ 2 / (2 * 2 ^ 2)).
Proof. apply (Normal_log_pdf_is_log_density 1 2 3); lra. Defined.

(** For [0 < sig] the log-density of a normal marginal is symmetric about
    [mu] and has its only maximum there. *)
Theorem Normal_log_pdf_symmetric_with_mode :
  forall mu sig h, 0 < sig ->
    Normal_log_pdf_eval (mkNormal mu sig) (mu + h)
    = Normal_log_pdf_eval (mkNormal mu sig) (mu - h) /\
    exists v vm,
      Normal_log_pdf_eval (mkNormal mu sig) (mu + h) = ret (Fin v) /\
      Normal_log_pdf_eval (mkNormal mu sig) mu = ret (Fin vm) /\
      v <= vm /\ (v = vm -> h = 0).
Proof.
  intros mu sig h Hs. rewrite !Normal_log_pdf_value by assumption. split.
  - do 2 f_equal. field. lra.
  - eexists. eexists. split; [reflexivity | split; [reflexivity |]].
    replace ((mu + h - mu) / sig) with (h / sig) by (field; lra).
    replace ((mu - mu) / sig) with 0 by (field; lra).
    assert (Hq : 0 <= (h / sig) ^ 2) by apply pow2_ge_0.
    split; [lra |].
    intros Heq. assert (H0 : (h / sig) ^ 2 = 0) by lra.
    assert (H1 : h / sig = 0) by nra.
    apply (Rmult_eq_compat_r sig) in H1. field_simplify in H1; lra.
Qed.

Lemma Normal_log_pdf_symmetric_with_mode_witness :
  Normal_log_pdf_eval (mkNormal 1 2) (1 + 3)
  = Normal_log_pdf_eval (mkNormal 1 2) (1 - 3) /\
  exists v vm,
    Normal_log_pdf_eval (mkNormal 1 2) (1 + 3) = ret (Fin v) /\
    Normal_log_pdf_eval (mkNormal 1 2) 1 = ret (Fin vm) /\
    v <= vm /\ (v = vm -> 3 = 0).
Proof. apply (Normal_log_pdf_symmetric_with_mode 1 2 3); lra. Defined.

(** The sample that [Normal.generate_rns] makes of a standard normal draw
    [z] is [sig * z + mu], and for [0 < sig] its log-density is the standard
    normal log-density of [z] less [ln sig]. *)
Theorem Normal_samples_location_scale :
  forall (randn : nat -> list R) mu sig N,
    0 < sig ->
    Forall2 (fun z s =>
               s = sig * z + mu /\
               Normal_log_pdf_eval (mkNormal mu sig) s
               = ret (Fin (- 0.5 * ln (2 * PI) - 0.5 * z ^ 2 - ln sig)))
            (randn N) (Normal_generate_rns randn (mkNormal mu sig) N).
Proof.
  intros randn mu sig N Hs. unfold Normal_generate_rns. simpl.
  apply Forall2_fmap_r, Forall_Forall2_diag, Forall_forall. intros z _.
  split; [reflexivity |].
  rewrite Normal_log_pdf_value by assumption. do 2 f_equal.
  halves. field. lra.
Qed.

Lemma Normal_samples_location_scale_witness :
  Forall2 (fun z s =>
             s = 2 * z + 1 /\
             Normal_log_pdf_eval (mkNormal 1 2) s
             = ret (Fin (- 0.5 * ln (2 * PI) - 0.5 * z ^ 2 - ln 2)))
          ((fun n => replicate n 0.5) 3%nat)
          (Normal_generate_rns (fun n => replicate n 0.5) (mkNormal 1 2) 3).
Proof.
  apply (Normal_samples_location_scale (fun n => replicate n 0.5) 1 2 3). lra.
Defined.

(** A normal or half-normal marginal whose [sig] is not positive is
    constructed, and fails at use: a negative [sig] gives [nan] as
    log-density everywhere on the support, a zero [sig] raises
    [ZeroDivisionError]. *)
Theorem nonpositive_sig_fails_at_use :
  forall mu sig x,
    sig <= 0 ->
    Normal_init mu sig = ret (mkNormal mu sig) /\
    Halfnormal_init sig = ret (mkHalfnormal sig) /\
    Normal_log_pdf_eval (mkNormal mu sig) x
    = (if Reqb sig 0 then raise ZeroDivisionError else ret NaN) /\
    (0 <= x ->
     Halfnormal_log_pdf_eval (mkHalfnormal sig) x
     = (if Reqb sig 0 then raise ZeroDivisionError else ret NaN)).
Proof.
  intros mu sig x Hs. split; [reflexivity | split; [reflexivity |]].
  unfold Normal_log_pdf_eval, Halfnormal_log_pdf_eval. simpl.
  destruct (Reqb sig 0) eqn:E.
  - apply Reqb_true in E. subst sig. split; [reflexivity |].
    intros Hx. rewrite (proj2 (Rleb_true 0 x)) by assumption.
    now rewrite (proj2 (Reqb_true _ _)) by lra.
  - apply Reqb_false in E.
    assert (Hlog : np_log sig = NaN).
    { unfold np_log. destruct (Rlt_dec 0 sig); [lra |].
      destruct (Req_dec_T sig 0); [contradiction | reflexivity]. }
    rewrite Hlog. split; [reflexivity |].
    intros Hx. rewrite (proj2 (Rleb_true 0 x)) by assumption.
    now rewrite (proj2 (Reqb_false _ _)) by nra.
Qed.

Lemma nonpositive_sig_fails_at_use_witness :
  Normal_init 0 (-1) = ret (mkNormal 0 (-1)) /\
  Halfnormal_init (-1) = ret (mkHalfnormal (-1)) /\
  Normal_log_pdf_eval (mkNormal 0 (-1)) 2
  = (if Reqb (-1) 0 then raise ZeroDivisionError else ret NaN) /\
  (0 <= 2 ->
   Halfnormal_log_pdf_eval (mkHalfnormal (-1)) 2
   = (if Reqb (-1) 0 then raise ZeroDivisionError else ret NaN)).
Proof. apply (nonpositive_sig_fails_at_use 0 (-1) 2). lra. Defined.

(** [TruncatedExponentialDist.__init__]: a rate of zero raises
    [ZeroDivisionError] before scipy is called; for any other rate an
    object that is returned has the scale [1 / lamda] and the location
    [lower], its truncation parameter [b] is [(upper - lower) * lamda], and
    [loc + b * scale] is [upper]: the bounds are not compared, and bounds
    in the wrong order reach scipy as a negative [b]. *)
Theorem TruncatedExponentialDist_parameters :
  forall (frozen : Type) (truncexpon : R -> R -> R -> res frozen) lamda lo up,
    (lamda = 0 ->
     TruncatedExponentialDist_init frozen truncexpon lamda lo up
     = raise ZeroDivisionError) /\
    (forall d,
        TruncatedExponentialDist_init frozen truncexpon lamda lo up = ret d ->
        lamda <> 0 /\
        te_scale frozen d * lamda = 1 /\
        te_loc frozen d = lo /\
        te_b frozen d = (up - lo) * lamda /\
        te_loc frozen d + te_b frozen d * te_scale frozen d = up /\
        truncexpon (te_b frozen d) (te_loc frozen d) (te_scale frozen d)
        = ret (te_dist frozen d) /\
        (0 < lamda -> up < lo -> te_b frozen d < 0)).
Proof.
  intros frozen truncexpon lamda lo up. split.
  - intros ->. unfold TruncatedExponentialDist_init.
    now rewrite (proj2 (Reqb_true 0 0)).
  - intros d. unfold TruncatedExponentialDist_init, bind.
    destruct (Reqb lamda 0) eqn:E0; [discriminate |].
    apply Reqb_false in E0.
    destruct (Reqb (1 / lamda) 0) eqn:E1; [discriminate |].
    destruct (truncexpon _ _ _) as [e | dist] eqn:Ed; [discriminate |].
    intros [= <-]. simpl.
    assert (Hb : (up - lo) / (1 / lamda) = (up - lo) * lamda)
      by (field; lra).
    repeat split; try assumption.
    + field. exact E0.
    + field. lra.
    + intros Hl Hlt. rewrite Hb. nra.
Qed.

Lemma TruncatedExponentialDist_parameters_witness :
  TruncatedExponentialDist_init unit (fun _ _ _ => ret tt) 0 3 1
  = raise ZeroDivisionError /\
  exists d,
    TruncatedExponentialDist_init unit (fun _ _ _ => ret tt) 2 3 1 = ret d /\
    te_loc unit d + te_b unit d * te_scale unit d = 1 /\
    te_b unit d < 0.
Proof.
  split.
  - now apply (TruncatedExponentialDist_parameters
                 unit (fun _ _ _ => ret tt) 0 3 1).
  - assert (Hrun : exists d,
               TruncatedExponentialDist_init unit (fun _ _ _ => ret tt) 2 3 1
               = ret d).
    { unfold TruncatedExponentialDist_init.
      rewrite (proj2 (Reqb_false 2 0)) by lra.
      rewrite (proj2 (Reqb_false (1 / 2) 0)) by lra.
      eexists. reflexivity. }
    destruct Hrun as [d Hd]. exists d. split; [exact Hd |].
    destruct (proj2 (TruncatedExponentialDist_parameters
                       unit (fun _ _ _ => ret tt) 2 3 1) d Hd)
      as (_ & _ & _ & _ & Hup & _ & Hneg).
    split; [exact Hup | apply Hneg; lra].
Defined.

End DensitySpec.

(** ** pdfs.py: the discrete distribution *)

Module DiscreteSpec.
Import PdfsArrays.

Lemma enumerate_snoc {T} (l : list T) x :
  enumerate (l ++ [x]) = enumerate l ++ [(length l, x)].
Proof.
  unfold enumerate. rewrite length_app. simpl.
  rewrite seq_app. simpl.
  rewrite zip_with_app by now rewrite length_seq. reflexivity.
Qed.

Lemma where_le_snoc a x c :
  where_le (a ++ [x]) c
  = where_le a c ++ (if Rleb x c then [length a] else []).
Proof.
  unfold where_le. rewrite enumerate_snoc, filter_app, map_app. f_equal.
  rewrite filter_cons, filter_nil. simpl.
  destruct (Rleb x c); reflexivity.
Qed.

Lemma where_le_lt a c k : k ∈ where_le a c -> (k < length a)%nat.
Proof.
  induction a as [| x a IH] using rev_ind.
  - intros H. unfold where_le in H. simpl in H. now apply elem_of_nil in H.
  - rewrite where_le_snoc, length_app. simpl. intros H.
    apply elem_of_app in H as [H | H].
    + specialize (IH H). lia.
    + destruct (Rleb x c).
      * apply list_elem_of_singleton in H. lia.
      * now apply elem_of_nil in H.
Qed.

(** The last index that [np.where] returns: an index [i] at which the entry
    is at most [c] while all the later entries exceed [c]. *)
Lemma last_where_le a c i :
  (i < length a)%nat -> nth i a 0 <= c ->
  (forall k, (i < k < length a)%nat -> c < nth k a 0) ->
  last (where_le a c) = Some i.
Proof.
  induction a as [| x a IH] using rev_ind; [simpl; lia |].
  rewrite length_app. simpl. intros Hi Hle Hgt.
  rewrite where_le_snoc.
  destruct (decide (i = length a)) as [-> | Hne].
  - rewrite app_nth2, Nat.sub_diag in Hle by lia. simpl in Hle.
    rewrite (proj2 (Rleb_true _ _)) by assumption. apply last_snoc.
  - assert (Hx : c < x).
    { specialize (Hgt (length a) ltac:(lia)).
      rewrite app_nth2, Nat.sub_diag in Hgt by lia. exact Hgt. }
    rewrite (proj2 (Rleb_false _ _)) by assumption. rewrite app_nil_r.
    apply IH; [lia | |].
    + rewrite app_nth1 in Hle by lia. exact Hle.
    + intros k Hk. specialize (Hgt k ltac:(lia)).
      rewrite app_nth1 in Hgt by lia. exact Hgt.
Qed.

Lemma where_le_head x a c : x <= c -> where_le (x :: a) c <> [].
Proof.
  intros Hx. induction a as [| y a IH] using rev_ind.
  - change [x] with ([] ++ [x]). rewrite where_le_snoc.
    rewrite (proj2 (Rleb_true _ _)) by assumption. discriminate.
  - rewrite app_comm_cons, where_le_snoc. intros H.
    apply app_eq_nil in H as [H _]. contradiction.
Qed.

Lemma length_cumsum_from acc l : length (cumsum_from acc l) = length l.
Proof. revert acc. induction l; intros acc; simpl; [| rewrite IHl]; reflexivity. Qed.

Lemma nth_cumsum_from l : forall acc k,
  (k < length l)%nat ->
  nth k (cumsum_from acc l) 0 = acc + Rsum (take (S k) l).
Proof.
  induction l as [| x l IH]; intros acc k Hk; [simpl in Hk; lia |].
  destruct k as [| k].
  - simpl. unfold Rsum. destruct l; simpl; lra.
  - simpl in Hk. change (nth (S k) (cumsum_from acc (x :: l)) 0)
      with (nth k (cumsum_from (acc + x) l) 0).
    rewrite IH by lia.
    change (take (S (S k)) (x :: l)) with (x :: take (S k) l).
    unfold Rsum. simpl. lra.
Qed.

Section U2X.

Variable norm_cdf : R -> R.

Lemma length_cumsum_prob d :
  length (cumsum_prob d) = length (dd_probabilities d).
Proof.
  unfold cumsum_prob, cumsum. rewrite removelast_firstn_len.
  simpl. rewrite length_cumsum_from.
  rewrite length_take. simpl. rewrite length_cumsum_from. lia.
Qed.

Lemma nth_cumsum_prob d k :
  (k < length (dd_probabilities d))%nat ->
  nth k (cumsum_prob d) 0 = Rsum (take k (dd_probabilities d)).
Proof.
  intros Hk. unfold cumsum_prob, cumsum. rewrite removelast_firstn_len.
  cbn [length Init.Nat.pred]. rewrite length_cumsum_from.
  rewrite nth_lookup, lookup_take_lt by lia. rewrite <- nth_lookup.
  destruct k as [| k]; [reflexivity |].
  cbn [nth]. rewrite nth_cumsum_from by lia. lra.
Qed.

Lemma U2X_loop_total d cp u :
  cp <> [] -> nth 0 cp 0 = 0 ->
  (length cp <= length (dd_values d))%nat ->
  Forall (fun t => 0 <= norm_cdf t) u ->
  exists x, U2X_loop norm_cdf d cp u = ret x /\ length x = length u /\
            Forall (fun v => v ∈ dd_values d) x.
Proof.
  intros Hne H0 Hlen Hu. induction Hu as [| t u Ht Hu IH].
  - exists []. now repeat split.
  - destruct IH as (x & Hx & Hl & Hv). simpl.
    destruct (last (where_le cp (norm_cdf t))) as [k |] eqn:Hk.
    + assert (Hkl : (k < length cp)%nat).
      { apply (where_le_lt cp (norm_cdf t)). now apply last_Some_elem_of. }
      destruct (lookup_lt_is_Some_2 (dd_values d) k ltac:(lia)) as [v Hvk].
      rewrite Hvk, Hx. exists (v :: x). simpl.
      split; [reflexivity | split; [now rewrite Hl |]].
      constructor; [| exact Hv]. now apply list_elem_of_lookup_2 in Hvk.
    + exfalso. apply last_None in Hk.
      destruct cp as [| c0 cp]; [contradiction |]. simpl in H0. subst c0.
      now apply (where_le_head 0 cp (norm_cdf t)) in Hk.
Qed.

End U2X.

Lemma Rsum_map_div l c : Rsum (map (fun w => w / c) l) = Rsum l / c.
Proof.
  unfold Rsum. induction l as [| x l IH]; simpl; [| rewrite IH];
    unfold Rdiv; lra.
Qed.

Lemma Rsum_nonneg l : Forall (fun w => 0 <= w) l -> 0 <= Rsum l.
Proof. unfold Rsum. induction 1; simpl; lra. Qed.

Lemma Rsum_ge_member l w :
  Forall (fun w => 0 <= w) l -> w ∈ l -> w <= Rsum l.
Proof.
  unfold Rsum. induction 1 as [| x l Hx Hl IH]; intros Hin.
  - now apply elem_of_nil in Hin.
  - pose proof (Rsum_nonneg l Hl) as Hs. unfold Rsum in Hs.
    apply elem_of_cons in Hin as [-> | Hin]; simpl; [lra |].
    specialize (IH Hin). lra.
Qed.

Lemma Rsum_take_S l k x :
  l !! k = Some x -> Rsum (take (S k) l) = Rsum (take k l) + x.
Proof.
  intros H. rewrite (take_S_r _ _ _ H). unfold Rsum.
  induction (take k l) as [| y t IH]; simpl; [| rewrite IH]; lra.
Qed.

Lemma Rsum_take_mono l k k' :
  Forall (fun w => 0 <= w) l -> (k <= k')%nat ->
  Rsum (take k l) <= Rsum (take k' l).
Proof.
  intros Hl Hk. induction Hk as [| m Hk IH]; [lra |].
  destruct (l !! m) as [x |] eqn:E.
  - rewrite (Rsum_take_S _ _ _ E).
    assert (0 <= x).
    { rewrite Forall_forall in Hl. apply Hl.
      now apply list_elem_of_lookup_2 in E. }
    lra.
  - apply lookup_ge_None in E.
    rewrite (take_ge l (S m)) by lia.
    rewrite (take_ge l m) in IH by lia. exact IH.
Qed.

(** For positive weights the probabilities that [DiscreteDist.__init__]
    stores lie in (0, 1] and sum to 1, and the log-probabilities stored are
    their logarithms. *)
Theorem DiscreteDist_probabilities_normalised :
  forall values weights d,
    DiscreteDist_init values weights = ret d ->
    weights <> [] ->
    Forall (fun w => 0 < w) weights ->
    Rsum (dd_probabilities d) = 1 /\
    Forall (fun p => 0 < p <= 1) (dd_probabilities d) /\
    Forall2 (fun p lp => lp = Fin (ln p))
            (dd_probabilities d) (dd_log_probabilities d).
Proof.
  intros values weights d [= <-] Hne Hpos. simpl.
  assert (Hnn : Forall (fun w => 0 <= w) weights).
  { eapply Forall_impl; [exact Hpos |]. intros w Hw. simpl in Hw. lra. }
  assert (HS : 0 < Rsum weights).
  { destruct weights as [| w ws]; [contradiction |].
    apply Forall_cons in Hpos as [Hw _].
    apply Forall_cons in Hnn as [_ Hws].
    pose proof (Rsum_nonneg ws Hws) as H. unfold Rsum in *. simpl. lra. }
  split; [| split].
  - rewrite Rsum_map_div. field. lra.
  - apply Forall_map, Forall_forall. intros w Hw. cbv beta.
    pose proof (Rsum_ge_member weights w Hnn Hw) as Hle.
    rewrite Forall_forall in Hpos. specialize (Hpos w Hw). simpl in Hpos.
    split.
    + now apply Rdiv_lt_0_compat.
    + apply (Rmult_le_reg_r (Rsum weights)); [exact HS |].
      unfold Rdiv. rewrite Rmult_assoc, Rinv_l by lra. lra.
  - apply Forall2_fmap, Forall_Forall2_diag, Forall_forall. intros w Hw.
    cbv beta.
    rewrite Forall_forall in Hpos. specialize (Hpos w Hw). simpl in Hpos.
    rewrite !np_log_pos by assumption. simpl. f_equal.
    unfold Rdiv. rewrite ln_mult, ln_Rinv; [lra | lra | lra |].
    now apply Rinv_0_lt_compat.
Qed.

Lemma DiscreteDist_probabilities_normalised_witness :
  exists d,
    DiscreteDist_init [10; 20] [1; 3] = ret d /\
    Rsum (dd_probabilities d) = 1 /\
    Forall (fun p => 0 < p <= 1) (dd_probabilities d) /\
    Forall2 (fun p lp => lp = Fin (ln p))
            (dd_probabilities d) (dd_log_probabilities d).
Proof.
  eexists. split; [reflexivity |].
  apply (DiscreteDist_probabilities_normalised [10; 20] [1; 3]).
  - reflexivity.
  - discriminate.
  - repeat constructor; lra.
Defined.

(** With a value for every weight, on an argument at whose entries
    [stats.norm.cdf] is not negative: when there is at least one weight
    [DiscreteDist.U2X] raises nothing and returns one of the values for
    every entry of the argument; without weights it raises [IndexError]
    unless the argument is empty. *)
Theorem DiscreteDist_U2X_returns_values :
  forall (norm_cdf : R -> R) values weights d u,
    DiscreteDist_init values weights = ret d ->
    (length weights <= length values)%nat ->
    Forall (fun t => 0 <= norm_cdf t) u ->
    (weights <> [] ->
     exists x,
       DiscreteDist_U2X norm_cdf d u = ret x /\
       length x = length u /\
       Forall (fun v => v ∈ values) x) /\
    (weights = [] -> u <> [] ->
     DiscreteDist_U2X norm_cdf d u = raise IndexError).
Proof.
  intros norm_cdf values weights d u [= <-] Hlen Hu. split.
  - intros Hne. unfold DiscreteDist_U2X.
    set (d := mkDiscrete _ _ _ _).
    assert (Hl : length (cumsum_prob d) = length weights).
    { rewrite length_cumsum_prob. simpl. now rewrite length_map. }
    apply (U2X_loop_total norm_cdf d (cumsum_prob d) u).
    + intros H. rewrite H in Hl.
      destruct weights; [contradiction | discriminate].
    + rewrite nth_cumsum_prob; [reflexivity |].
      simpl. rewrite length_map.
      destruct weights; [contradiction | simpl; lia].
    + simpl. lia.
    + exact Hu.
  - intros -> Hne. destruct u as [| t u]; [contradiction | reflexivity].
Qed.

Lemma DiscreteDist_U2X_returns_values_witness :
  exists d x,
    DiscreteDist_init [10; 20] [1; 3] = ret d /\
    DiscreteDist_U2X (fun t => 0.5) d [0; 1; 2] = ret x /\
    length x = length [0; 1; 2] /\
    Forall (fun v => v ∈ [10; 20]) x.
Proof.
  eexists.
  destruct (DiscreteDist_U2X_returns_values (fun t => 0.5)
              [10; 20] [1; 3] _ [0; 1; 2] eq_refl)
    as [H _].
  - simpl. lia.
  - repeat constructor; lra.
  - destruct (H ltac:(discriminate)) as (x & H1 & H2 & H3).
    exists x. split; [reflexivity | now split].
Defined.

(** [DiscreteDist.U2X] inverts the cumulative distribution: for weights
    that are not negative, with a positive sum, an argument [u] whose
    [stats.norm.cdf] is at least the sum of the first [i] probabilities and
    below the sum of the first [i + 1] (when there are more than [i + 1]
    weights) is sent to the value of index [i]. *)
Theorem DiscreteDist_U2X_inverts_cdf :
  forall (norm_cdf : R -> R) values weights d u i v,
    DiscreteDist_init values weights = ret d ->
    Forall (fun w => 0 <= w) weights ->
    0 < Rsum weights ->
    values !! i = Some v ->
    (i < length weights)%nat ->
    Rsum (take i (dd_probabilities d)) <= norm_cdf u ->
    ((S i < length weights)%nat ->
     norm_cdf u < Rsum (take (S i) (dd_probabilities d))) ->
    DiscreteDist_U2X norm_cdf d [u] = ret [v].
Proof.
  intros norm_cdf values weights d u i v [= <-] Hnn Hpos Hv Hi Hlo Hhi.
  unfold DiscreteDist_U2X.
  set (d := mkDiscrete _ _ _ _) in *.
  assert (Hlp : length (dd_probabilities d) = length weights).
  { simpl. now rewrite length_map. }
  assert (Hp : Forall (fun p => 0 <= p) (dd_probabilities d)).
  { simpl. apply Forall_map, Forall_forall. intros w Hw. cbv beta.
    rewrite Forall_forall in Hnn. specialize (Hnn w Hw). simpl in Hnn.
    unfold Rdiv. apply Rmult_le_pos; [exact Hnn |].
    left. now apply Rinv_0_lt_compat. }
  simpl.
  rewrite (last_where_le (cumsum_prob d) (norm_cdf u) i).
  - fold d. simpl. now rewrite Hv.
  - rewrite length_cumsum_prob. lia.
  - rewrite nth_cumsum_prob by lia. exact Hlo.
  - intros k Hk. rewrite length_cumsum_prob in Hk.
    rewrite nth_cumsum_prob by lia.
    eapply Rlt_le_trans; [apply Hhi; lia |].
    apply Rsum_take_mono; [exact Hp | lia].
Qed.

Lemma DiscreteDist_U2X_inverts_cdf_witness :
  exists d,
    DiscreteDist_init [10; 20] [1; 3] = ret d /\
    DiscreteDist_U2X (fun t => 0.5) d [0] = ret [20].
Proof.
  eexists. split; [reflexivity |].
  apply (DiscreteDist_U2X_inverts_cdf (fun t => 0.5) [10; 20] [1; 3] _ 0 1 20).
  - reflexivity.
  - repeat constructor; lra.
  - unfold Rsum. simpl. lra.
  - reflexivity.
  - simpl. lia.
  - unfold Rsum. simpl. lra.
  - simpl. lia.
Defined.

End DiscreteSpec.

(** ** ERANataf.py: more on the constructor *)

Module ConstructMore.
Import Nataf RealLib ConstructSpec Runs.

(** *** The order of the checks *)

(** The constructor reports the first check that fails, in the order of
    the code: the moments of the marginals, the factorization of the
    correlation matrix, its symmetry, its diagonal. *)
Theorem constructor_reports_first_failed_check :
  forall (lib : NumLib) (M : list ERADist) (C : mat) (rng0 : nat),
    ((exists m, m ∈ M /\ (isfinite (mean m) = false \/ isfinite (std m) = false)) ->
     ERANataf_init M C rng0 = raise (RuntimeError msg_moments)) /\
    (finite_moments M = true ->
     (cholesky C = None ->
      ERANataf_init M C rng0 = raise (RuntimeError msg_X_not_pd)) /\
     (cholesky C <> None -> all_symmetric C = false ->
      ERANataf_init M C rng0 = raise (RuntimeError msg_X_not_symmetric)) /\
     (cholesky C <> None -> all_symmetric C = true ->
      unit_diagonal C = false ->
      ERANataf_init M C rng0 = raise (RuntimeError msg_X_diagonal))).
Proof.
  intros lib M C rng0. unfold ERANataf_init, construct, init_fill. split.
  - intros (m & Hm & Hbad).
    assert (Hfin : finite_moments M = false).
    { unfold finite_moments. apply not_true_is_false. intros H.
      rewrite forallb_forall in H. apply list_elem_of_In in Hm.
      specialize (H m Hm). apply andb_prop in H as [H1 H2].
      destruct Hbad; congruence. }
    now rewrite Hfin.
  - intros ->. simpl. split; [| split].
    + now intros ->.
    + intros Hc ->. destruct (cholesky C); [reflexivity | contradiction].
    + intros Hc -> ->. destruct (cholesky C); [reflexivity | contradiction].
Qed.

Lemma constructor_reports_first_failed_check_witness :
  ERANataf_init (lib := lib_of brent_converges)
    [mkDist "cauchy" NaN NaN (fun x => x) (fun x => x) (fun x => x)]
    [[1; 2]; [3; 4]] 0
  = raise (RuntimeError msg_moments) /\
  ERANataf_init (lib := lib_of brent_converges)
    [uniform01; uniform01] [[1; 2]; [2; 1]] 0
  = raise (RuntimeError msg_X_not_pd) /\
  ERANataf_init (lib := lib_of brent_converges)
    [uniform01; uniform01] [[2; 0.5]; [0.4; 1]] 0
  = raise (RuntimeError msg_X_not_symmetric) /\
  ERANataf_init (lib := lib_of brent_converges)
    [uniform01; uniform01] [[1; 0]; [0; 2]] 0
  = raise (RuntimeError msg_X_diagonal).
Proof.
  split; [| split; [| split]].
  - apply (constructor_reports_first_failed_check (lib_of brent_converges)).
    eexists. split; [apply list_elem_of_singleton; reflexivity |].
    left. reflexivity.
  - apply (constructor_reports_first_failed_check (lib_of brent_converges));
      [reflexivity | exact chol_not_pd].
  - apply (constructor_reports_first_failed_check (lib_of brent_converges));
      [reflexivity | |].
    + change (cholesky_R [[2; 0.5]; [0.4; 1]] <> None).
      unfold cholesky_R; simpl; unfold vdot, Rsum; simpl.
      rewrite !if_Rltb_true; [discriminate | | lra].
      replace (2 - 0) with 2 by lra.
      assert (H2 : sqrt 2 * sqrt 2 = 2) by (apply sqrt_sqrt; lra).
      assert (Hs : 0 < sqrt 2) by (apply sqrt_lt_R0; lra).
      assert (Hq : (0.4 - 0) / sqrt 2 * ((0.4 - 0) / sqrt 2) = 0.16 / 2).
      { replace 0.16 with (0.4 * 0.4) by lra. rewrite <- H2 at 3.
        unfold Rdiv. rewrite Rinv_mult. ring. }
      lra.
    + unfold all_symmetric, mat_at. simpl. now run.
  - apply (constructor_reports_first_failed_check (lib_of brent_converges));
      [reflexivity | | |].
    + change (cholesky_R [[1; 0]; [0; 2]] <> None).
      unfold cholesky_R; simpl; unfold vdot, Rsum; simpl.
      replace (1 - 0) with 1 by lra. rewrite sqrt_1.
      rewrite !if_Rltb_true; [discriminate | | lra].
      replace ((0 - 0) / 1 * ((0 - 0) / 1) + 0) with 0 by (field; lra). lra.
    + unfold all_symmetric, mat_at. simpl. now run.
    + unfold unit_diagonal, mat_at. simpl. now run.
Defined.

(** *** The matrix [Rho_Z] of a constructed object *)

Lemma symmetric_identity d : symmetric (identity d).
Proof.
  intros a b. destruct (decide (a = b)) as [-> | Hne]; [reflexivity |].
  now rewrite !identity_off_diagonal by congruence.
Qed.

Lemma symmetric_set_pair Z Z' i j v :
  set_pair Z i j v = ret Z' -> symmetric Z -> symmetric Z'.
Proof.
  intros H Hs a b. rewrite !(set_pair_at _ _ _ _ _ H).
  repeat case_decide; try reflexivity; try tauto. apply Hs.
Qed.

Section Symmetry.

Context {lib : NumLib}.
Variable M : list ERADist.
Variable C : mat.
Hypothesis HC : all_symmetric C = true.

Lemma symmetric_solve_pair i j mi mj rij st out :
  solve_pair C i j mi mj rij st = ret out ->
  symmetric (fRho_Z st) -> symmetric (fRho_Z out.2).
Proof.
  unfold solve_pair, bind. intros H Hs.
  destruct (brentq _ _ _) as [e | r]; [discriminate |].
  destruct r.2.
  { destruct (set_pair _ _ _ _) as [e | Z'] eqn:E; [discriminate |].
    injection H as <-. exact (symmetric_set_pair _ _ _ _ _ E Hs). }
  destruct (_ =? 1)%Z.
  { destruct (set_pair _ _ _ _) as [e | Z'] eqn:E; [discriminate |].
    injection H as <-. exact (symmetric_set_pair _ _ _ _ _ E Hs). }
  destruct (_ =? 1)%Z.
  { destruct (set_pair _ _ _ _) as [e | Z'] eqn:E; [discriminate |].
    injection H as <-. exact (symmetric_set_pair _ _ _ _ _ E Hs). }
  destruct (restart_loop _ _ _ _ _ _ _) as [e | out'] eqn:E; [discriminate |].
  destruct (_ =? 1)%Z; [| discriminate].
  destruct (set_pair _ _ _ _) as [e | Z'] eqn:ES; [discriminate |].
  injection H as <-. simpl.
  destruct (restart_loop_inv _ _ _ _ _ _ _ _ E) as [HZ _].
  simpl in HZ. apply (symmetric_set_pair _ _ _ _ _ ES). now rewrite HZ.
Qed.

Lemma symmetric_fill_body i j st out :
  fill_body M C i j st = ret out ->
  symmetric (fRho_Z st) -> symmetric (fRho_Z out.2).
Proof.
  unfold fill_body, bind. intros H Hs.
  destruct (mget C i j) as [e | rij] eqn:Eij; [discriminate |].
  destruct (Reqb rij 0).
  { now injection H as <-. }
  destruct (marginal M i) as [e | mi]; [discriminate |].
  destruct (marginal M j) as [e | mj]; [discriminate |].
  destruct (both_normal mi mj).
  { destruct (mset (fRho_Z st) i j rij) as [e | Z1] eqn:E1; [discriminate |].
    destruct (mget C j i) as [e | rji] eqn:Eji; [discriminate |].
    destruct (mset Z1 j i rji) as [e | Z2] eqn:E2; [discriminate |].
    injection H as <-. simpl.
    assert (Heq : rij = rji).
    { rewrite <- (mget_ret _ _ _ _ Eij), <- (mget_ret _ _ _ _ Eji).
      apply all_symmetric_at; [exact HC | |].
      - exact (mget_lt _ _ _ _ Eij).
      - exact (mget_lt _ _ _ _ Eji). }
    subst rji. intros a b.
    rewrite !(mset_at _ _ _ _ _ E2), !(mset_at _ _ _ _ _ E1).
    repeat case_decide; try reflexivity; try tauto. apply Hs. }
  destruct (_ && _).
  { destruct (set_pair _ _ _ _) as [e | Z'] eqn:E; [discriminate |].
    injection H as <-. exact (symmetric_set_pair _ _ _ _ _ E Hs). }
  destruct (_ && _).
  { destruct (set_pair _ _ _ _) as [e | Z'] eqn:E; [discriminate |].
    injection H as <-. exact (symmetric_set_pair _ _ _ _ _ E Hs). }
  destruct (_ && _).
  { destruct (set_pair _ _ _ _) as [e | Z'] eqn:E; [discriminate |].
    injection H as <-. exact (symmetric_set_pair _ _ _ _ _ E Hs). }
  exact (symmetric_solve_pair _ _ _ _ _ _ _ H Hs).
Qed.

Lemma symmetric_inner_loop js : forall i st out,
  inner_loop M C js i st = ret out ->
  symmetric (fRho_Z st) -> symmetric (fRho_Z out.2).
Proof.
  induction js as [| j js IH]; intros i st out H Hs.
  - now injection H as <-.
  - simpl in H. unfold bind in H.
    destruct (fill_body M C i j st) as [e | o] eqn:E; [discriminate |].
    apply (IH _ _ _ H). exact (symmetric_fill_body _ _ _ _ E Hs).
Qed.

Lemma symmetric_outer_loop rest : forall st st',
  outer_loop M C rest st = ret st' ->
  symmetric (fRho_Z st) -> symmetric (fRho_Z st').
Proof.
  induction rest as [| i rest IH]; intros st st' H Hs.
  - now injection H as <-.
  - simpl in H. unfold bind in H.
    destruct (inner_loop _ _ _ _ _) as [e | o] eqn:E; [discriminate |].
    apply (IH _ _ H). exact (symmetric_inner_loop _ _ _ _ E Hs).
Qed.

End Symmetry.

Lemma ERANataf_init_construct {lib : NumLib} M C rng0 e :
  ERANataf_init M C rng0 = ret e ->
  exists st, construct M C rng0 = ret (e, st).
Proof.
  unfold ERANataf_init, bind.
  destruct (construct M C rng0) as [x | [e' st]]; [discriminate |].
  intros [= <-]. now exists st.
Qed.

(** In every object that the constructor returns the matrix [Rho_Z] is
    symmetric, in the runs with a random restart too. *)
Theorem Rho_Z_is_symmetric :
  forall (lib : NumLib) (M : list ERADist) (C : mat) (rng0 : nat)
         (e : ERANataf),
    ERANataf_init M C rng0 = ret e ->
    forall a b, mat_at (Rho_Z e) a b = mat_at (Rho_Z e) b a.
Proof.
  intros lib M C rng0 e Hrun.
  destruct (ERANataf_init_construct _ _ _ _ Hrun) as [st Hc].
  destruct (construct_inv _ _ _ _ _ Hc) as (_ & _ & Hsym & _ & Hfill & _ & ->).
  simpl. destruct (far_from_identity M C).
  - apply (symmetric_outer_loop M C Hsym _ _ _ Hfill).
    apply symmetric_identity.
  - subst st. apply symmetric_identity.
Qed.

Lemma run_uniform_05 :
  exists L,
    ERANataf_init (lib := lib_of restart_at_1) [uniform01; uniform01] C_05 0
    = ret (mkNataf [uniform01; uniform01] C_05 [[1; 0]; [0; 0.6]] L).
Proof.
  destruct chol_C_05 as [L0 H0]. destruct chol_Z_05 as [L HL].
  destruct fill_uniform_05 as (cs & Hfill & Hcs).
  exists L. unfold ERANataf_init.
  now rewrite (construct_far (lib := lib_of restart_at_1)
             [uniform01; uniform01] C_05 0 L0
             (mkFill [[1; 0]; [0; 0.6]] 2 cs) L
             eq_refl H0 checks_C_05
             (far_C [uniform01; uniform01] 0.5 eq_refl ltac:(lra)) Hfill HL).
Qed.

Lemma Rho_Z_is_symmetric_witness :
  exists e,
    ERANataf_init (lib := lib_of restart_at_1) [uniform01; uniform01] C_05 0
    = ret e /\
    forall a b, mat_at (Rho_Z e) a b = mat_at (Rho_Z e) b a.
Proof.
  destruct run_uniform_05 as [L HL]. eexists. split; [exact HL |].
  exact (Rho_Z_is_symmetric _ _ _ _ _ HL).
Defined.

Lemma identity_diagonal d a : (a < d)%nat -> mat_at (identity d) a a = 1.
Proof.
  intros Ha. rewrite mat_at_lookup. unfold identity.
  rewrite list_lookup_fmap, lookup_seq_lt by assumption. simpl.
  rewrite list_lookup_fmap, lookup_seq_lt by assumption. simpl.
  now rewrite Nat.eqb_refl.
Qed.

Lemma outer_diagonal {lib : NumLib} M C rest : forall st st' a,
  outer_loop M C rest st = ret st' ->
  clean (calls st') ->
  mat_at (fRho_Z st') a a = mat_at (fRho_Z st) a a.
Proof.
  induction rest as [| i rest IH]; intros st st' a H Hc.
  - now injection H as <-.
  - simpl in H. unfold bind in H.
    destruct (inner_loop _ _ _ _ _) as [e | o] eqn:E; [discriminate |].
    pose proof (outer_clean_back _ _ _ _ _ H Hc) as Hc1.
    rewrite (IH _ _ a H Hc).
    apply (inner_frame _ _ _ _ _ _ E Hc1);
      intros [-> Hin]; apply elem_of_range in Hin; lia.
Qed.

(** In an object that the constructor returns after a fill without a
    random restart, the diagonal of [Rho_Z] is 1. *)
Theorem Rho_Z_unit_diagonal_in_clean_runs :
  forall (lib : NumLib) (M : list ERADist) (C : mat) (rng0 : nat)
         (e : ERANataf) (st : fill_state) (a : nat),
    construct M C rng0 = ret (e, st) ->
    clean (calls st) ->
    (a < n_dist M)%nat ->
    mat_at (Rho_Z e) a a = 1.
Proof.
  intros lib M C rng0 e st a Hrun Hclean Ha.
  destruct (construct_inv _ _ _ _ _ Hrun) as (_ & _ & _ & _ & Hfill & _ & ->).
  simpl. destruct (far_from_identity M C).
  - rewrite (outer_diagonal _ _ _ _ _ a Hfill Hclean). simpl.
    now apply identity_diagonal.
  - subst st. now apply identity_diagonal.
Qed.

Lemma run_mixed_06 :
  exists L,
    construct (lib := lib_of brent_near_06) [normal01; standardnormal01] C_06 0
    = ret (mkNataf [normal01; standardnormal01] C_06
             [[1; 0.6000000000001]; [0.6000000000001; 1]] L,
           mkFill [[1; 0.6000000000001]; [0.6000000000001; 1]] 0
             [CallBrentq 0 1]).
Proof.
  destruct chol_C_06 as [L0 H0]. destruct chol_Z_mixed as [L HL].
  exists L.
  exact (construct_far (lib := lib_of brent_near_06)
           [normal01; standardnormal01] C_06 0 L0
           (mkFill [[1; 0.6000000000001]; [0.6000000000001; 1]] 0
              [CallBrentq 0 1]) L
           eq_refl H0 checks_C_06
           (far_C [normal01; standardnormal01] 0.6 eq_refl ltac:(lra))
           fill_mixed_06 HL).
Qed.

Lemma Rho_Z_unit_diagonal_in_clean_runs_witness :
  exists e st,
    construct (lib := lib_of brent_near_06) [normal01; standardnormal01] C_06 0
    = ret (e, st) /\
    mat_at (Rho_Z e) 1 1 = 1.
Proof.
  destruct run_mixed_06 as [L HL]. eexists _, _. split; [exact HL |].
  apply (Rho_Z_unit_diagonal_in_clean_runs _ _ _ _ _ _ 1%nat HL).
  - repeat constructor.
  - simpl. lia.
Defined.

(** *** The entries of [Rho_Z] after a fill without a random restart *)

(** The pass of the loop body that made the entries of a pair: it started
    with zeros at the pair, and what it left there is in [Rho_Z]. *)
Lemma pair_of_clean_run {lib : NumLib} M C rng0 e st i j :
  construct M C rng0 = ret (e, st) ->
  far_from_identity M C = true ->
  clean (calls st) ->
  (i < j < n_dist M)%nat ->
  exists st1 out1,
    fill_body M C i j st1 = ret out1 /\
    clean (calls out1.2) /\
    mat_at (fRho_Z st1) i j = 0 /\ mat_at (fRho_Z st1) j i = 0 /\
    mat_at (Rho_Z e) i j = mat_at (fRho_Z out1.2) i j /\
    mat_at (Rho_Z e) j i = mat_at (fRho_Z out1.2) j i.
Proof.
  intros Hrun Hfar Hclean Hij.
  destruct (construct_inv _ _ _ _ _ Hrun) as (_ & _ & _ & _ & Hfill & _ & ->).
  rewrite Hfar in Hfill. simpl.
  destruct (outer_local M C _ _ _ i j Hfill Hclean (NoDup_range _ _))
    as (st1 & out1 & Hb & Hc1 & [Hs1 Hs1'] & [Hs2 Hs2']);
    [apply elem_of_range; lia | lia |].
  exists st1, out1. simpl in Hs1, Hs1'.
  rewrite identity_off_diagonal in Hs1, Hs1' by lia.
  repeat split; assumption.
Qed.

(** A pass of the loop body that stores by [set_pair]. *)
Lemma stored_pair (Z Z' : mat) i j v :
  set_pair Z i j v = ret Z' ->
  mat_at Z' i j = v /\ mat_at Z' j i = v.
Proof.
  intros H. rewrite !(set_pair_at _ _ _ _ _ H).
  now rewrite !decide_True by tauto.
Qed.

Ltac names Hi Hj :=
  unfold both_normal, is_name; rewrite ?Hi, ?Hj; simpl.

(** The entries that one pass of the loop body leaves at a pair of a
    marginal named [normal] and one named [lognormal], in either order, and
    at a pair of two named [lognormal]. *)
Lemma fill_body_normal_lognormal {lib : NumLib} M C i j mi mj st out :
  fill_body M C i j st = ret out ->
  M !! i = Some mi -> M !! j = Some mj ->
  Name mi = "normal" -> Name mj = "lognormal" ->
  let V := fin_val (std mj) / fin_val (mean mj) in
  (mat_at C i j = 0 /\ out = (i, st)) \/
  (mat_at (fRho_Z out.2) i j = mat_at C i j * V / sqrt (ln (1 + V ^ 2)) /\
   mat_at (fRho_Z out.2) j i = mat_at C i j * V / sqrt (ln (1 + V ^ 2))).
Proof.
  intros H Hi Hj Ni Nj V. unfold fill_body, bind, marginal in H.
  destruct (mget C i j) as [e | rij] eqn:E; [discriminate |].
  apply mget_ret in E. rewrite E.
  destruct (Reqb rij 0) eqn:E0.
  { apply Reqb_true in E0. left. unfold ret in H. split; congruence. }
  rewrite Hi, Hj in H. unfold ret at 1 2 in H.
  revert H. names Ni Nj. intros H.
  destruct (set_pair _ _ _ _) as [e | Z'] eqn:ES; [discriminate |].
  injection H as <-. right. exact (stored_pair _ _ _ _ _ ES).
Qed.

Lemma fill_body_lognormal_normal {lib : NumLib} M C i j mi mj st out :
  fill_body M C i j st = ret out ->
  M !! i = Some mi -> M !! j = Some mj ->
  Name mi = "lognormal" -> Name mj = "normal" ->
  let V := fin_val (std mi) / fin_val (mean mi) in
  (mat_at C i j = 0 /\ out = (i, st)) \/
  (mat_at (fRho_Z out.2) i j = mat_at C i j * V / sqrt (ln (1 + V ^ 2)) /\
   mat_at (fRho_Z out.2) j i = mat_at C i j * V / sqrt (ln (1 + V ^ 2))).
Proof.
  intros H Hi Hj Ni Nj V. unfold fill_body, bind, marginal in H.
  destruct (mget C i j) as [e | rij] eqn:E; [discriminate |].
  apply mget_ret in E. rewrite E.
  destruct (Reqb rij 0) eqn:E0.
  { apply Reqb_true in E0. left. unfold ret in H. split; congruence. }
  rewrite Hi, Hj in H. unfold ret at 1 2 in H.
  revert H. names Ni Nj. intros H.
  destruct (set_pair _ _ _ _) as [e | Z'] eqn:ES; [discriminate |].
  injection H as <-. right. exact (stored_pair _ _ _ _ _ ES).
Qed.

Lemma fill_body_lognormal_lognormal {lib : NumLib} M C i j mi mj st out :
  fill_body M C i j st = ret out ->
  M !! i = Some mi -> M !! j = Some mj ->
  Name mi = "lognormal" -> Name mj = "lognormal" ->
  let Vi := fin_val (std mi) / fin_val (mean mi) in
  let Vj := fin_val (std mj) / fin_val (mean mj) in
  let v := ln (1 + mat_at C i j * Vi * Vj)
           / sqrt (ln (1 + Vi ^ 2) * ln (1 + Vj ^ 2)) in
  (mat_at C i j = 0 /\ out = (i, st)) \/
  (mat_at (fRho_Z out.2) i j = v /\ mat_at (fRho_Z out.2) j i = v).
Proof.
  intros H Hi Hj Ni Nj Vi Vj v. unfold fill_body, bind, marginal in H.
  destruct (mget C i j) as [e | rij] eqn:E; [discriminate |].
  apply mget_ret in E. subst v. rewrite E.
  destruct (Reqb rij 0) eqn:E0.
  { apply Reqb_true in E0. left. unfold ret in H. split; congruence. }
  rewrite Hi, Hj in H. unfold ret at 1 2 in H.
  revert H. names Ni Nj. intros H.
  destruct (set_pair _ _ _ _) as [e | Z'] eqn:ES; [discriminate |].
  injection H as <-. right. exact (stored_pair _ _ _ _ _ ES).
Qed.

Lemma symmetric_C {lib : NumLib} M C rng0 e st i j :
  construct M C rng0 = ret (e, st) ->
  length C = n_dist M ->
  (i < n_dist M)%nat -> (j < n_dist M)%nat ->
  mat_at C i j = mat_at C j i.
Proof.
  intros Hrun Hlen Hi Hj.
  destruct (construct_inv _ _ _ _ _ Hrun) as (_ & _ & Hsym & _).
  apply all_symmetric_at; [exact Hsym | lia | lia].
Qed.

(** After a fill without a random restart, on a correlation matrix of the
    shape [d, d] that is farther than 1e-5 from the identity, a pair of a
    marginal named [normal] and one named [lognormal] has the correlation
    [rho_X * V / sqrt(ln(1 + V^2))] in [Rho_Z], where [V] is the
    coefficient of variation [std / mean] of the lognormal marginal. *)
Theorem normal_lognormal_closed_form :
  forall (lib : NumLib) (M : list ERADist) (C : mat) (rng0 : nat)
         (e : ERANataf) (st : fill_state) (i j : nat) (mi mj : ERADist),
    construct M C rng0 = ret (e, st) ->
    far_from_identity M C = true ->
    clean (calls st) ->
    length C = n_dist M ->
    M !! i = Some mi -> M !! j = Some mj ->
    Name mi = "normal" -> Name mj = "lognormal" ->
    let V := fin_val (std mj) / fin_val (mean mj) in
    mat_at (Rho_Z e) i j = mat_at C i j * V / sqrt (ln (1 + V ^ 2)) /\
    mat_at (Rho_Z e) j i = mat_at C i j * V / sqrt (ln (1 + V ^ 2)).
Proof.
  intros lib M C rng0 e st i j mi mj Hrun Hfar Hclean Hlen Hi Hj Ni Nj V.
  pose proof (lookup_lt_Some _ _ _ Hi) as Hid.
  pose proof (lookup_lt_Some _ _ _ Hj) as Hjd.
  assert (Hne : i <> j).
  { intros ->. rewrite Hi in Hj. injection Hj as ->. rewrite Ni in Nj.
    discriminate Nj. }
  assert (Hzero : mat_at C i j = 0 ->
                  0 = mat_at C i j * V / sqrt (ln (1 + V ^ 2))).
  { intros ->. unfold Rdiv. now rewrite !Rmult_0_l. }
  destruct (decide (i < j)%nat) as [Hlt | Hge].
  - destruct (pair_of_clean_run M C rng0 e st i j Hrun Hfar Hclean)
      as (st1 & out1 & Hb & _ & Z1 & Z2 & -> & ->); [unfold n_dist; lia |].
    destruct (fill_body_normal_lognormal _ _ _ _ _ _ _ _ Hb Hi Hj Ni Nj)
      as [[H0 ->] | H]; [| exact H].
    simpl. rewrite Z1, Z2. split; now apply Hzero.
  - destruct (pair_of_clean_run M C rng0 e st j i Hrun Hfar Hclean)
      as (st1 & out1 & Hb & _ & Z1 & Z2 & -> & ->); [unfold n_dist; lia |].
    rewrite (symmetric_C M C rng0 e st i j Hrun Hlen) by (unfold n_dist; lia).
    destruct (fill_body_lognormal_normal _ _ _ _ _ _ _ _ Hb Hj Hi Nj Ni)
      as [[H0 ->] | [H1 H2]]; [| split; assumption].
    simpl. rewrite Z1, Z2.
    rewrite <- (symmetric_C M C rng0 e st i j Hrun Hlen) in *
      by (unfold n_dist; lia).
    split; now apply Hzero.
Qed.

(** After a fill without a random restart, on a correlation matrix of the
    shape [d, d] that is farther than 1e-5 from the identity, a pair of two
    distinct marginals named [lognormal] has the correlation
    [ln(1 + rho_X Vi Vj) / sqrt(ln(1 + Vi^2) ln(1 + Vj^2))] in [Rho_Z],
    where [Vi] and [Vj] are their coefficients of variation. *)
Theorem lognormal_pair_closed_form :
  forall (lib : NumLib) (M : list ERADist) (C : mat) (rng0 : nat)
         (e : ERANataf) (st : fill_state) (i j : nat) (mi mj : ERADist),
    construct M C rng0 = ret (e, st) ->
    far_from_identity M C = true ->
    clean (calls st) ->
    length C = n_dist M ->
    M !! i = Some mi -> M !! j = Some mj -> i <> j ->
    Name mi = "lognormal" -> Name mj = "lognormal" ->
    let Vi := fin_val (std mi) / fin_val (mean mi) in
    let Vj := fin_val (std mj) / fin_val (mean mj) in
    mat_at (Rho_Z e) i j
    = ln (1 + mat_at C i j * Vi * Vj)
      / sqrt (ln (1 + Vi ^ 2) * ln (1 + Vj ^ 2)).
Proof.
  intros lib M C rng0 e st i j mi mj Hrun Hfar Hclean Hlen Hi Hj Hne Ni Nj
         Vi Vj.
  pose proof (lookup_lt_Some _ _ _ Hi) as Hid.
  pose proof (lookup_lt_Some _ _ _ Hj) as Hjd.
  assert (Hzero : forall c, c = 0 ->
            0 = ln (1 + c * Vi * Vj)
                / sqrt (ln (1 + Vi ^ 2) * ln (1 + Vj ^ 2))).
  { intros c ->. rewrite !Rmult_0_l, Rplus_0_r, ln_1. unfold Rdiv.
    now rewrite Rmult_0_l. }
  destruct (decide (i < j)%nat) as [Hlt | Hge].
  - destruct (pair_of_clean_run M C rng0 e st i j Hrun Hfar Hclean)
      as (st1 & out1 & Hb & _ & Z1 & Z2 & -> & _); [unfold n_dist; lia |].
    destruct (fill_body_lognormal_lognormal _ _ _ _ _ _ _ _ Hb Hi Hj Ni Nj)
      as [[H0 ->] | [H _]]; [| exact H].
    simpl. rewrite Z1. now apply Hzero.
  - destruct (pair_of_clean_run M C rng0 e st j i Hrun Hfar Hclean)
      as (st1 & out1 & Hb & _ & Z1 & Z2 & _ & ->); [unfold n_dist; lia |].
    rewrite (symmetric_C M C rng0 e st i j Hrun Hlen) by (unfold n_dist; lia).
    destruct (fill_body_lognormal_lognormal _ _ _ _ _ _ _ _ Hb Hj Hi Nj Ni)
      as [[H0 ->] | [_ H]].
    + simpl. rewrite Z2. now apply Hzero.
    + rewrite H. fold Vi Vj. f_equal; [f_equal; f_equal; ring | f_equal; ring].
Qed.

(** The factorization over the reals of a correlation matrix of two
    marginals. *)
Lemma chol_2x2 v :
  v * v < 1 -> exists L, cholesky_R [[1; v]; [v; 1]] = Some L.
Proof.
  intros Hv. unfold cholesky_R. simpl. unfold vdot, Rsum. simpl.
  replace (1 - 0) with 1 by lra. rewrite sqrt_1.
  rewrite if_Rltb_true by lra. simpl.
  rewrite if_Rltb_true; [now eexists |].
  replace ((v - 0) / 1 * ((v - 0) / 1) + 0) with (v * v) by (field; lra).
  lra.
Qed.

Lemma V11 : fin_val (Fin 1) / fin_val (Fin 1) = 1.
Proof. simpl. field. Qed.

Lemma ln_2_bounds : / 2 < ln 2 < 1.
Proof.
  split; [exact ln_lt_2 |].
  rewrite <- (ln_exp 1). apply ln_increasing; [lra |].
  pose proof exp_ineq1 1 ltac:(lra). lra.
Qed.

Lemma fill_normal_lognormal :
  exists v,
    outer_loop (lib := lib_of brent_converges) [normal01; lognormal11] C_06
      (range 0 2) (mkFill (identity 2) 0 [])
    = ret (mkFill [[1; v]; [v; 1]] 0 []) /\ v * v < 1.
Proof.
  unfold C_06. simpl. unfold fill_body. run. unfold set_pair. run.
  eexists. split; [reflexivity |].
  replace (1 + 1 / 1 * (1 / 1 * 1)) with 2 by (field; lra).
  pose proof ln_2_bounds as [Hl _].
  assert (Hs : 0 < sqrt (ln 2)) by (apply sqrt_lt_R0; lra).
  assert (Hss : sqrt (ln 2) * sqrt (ln 2) = ln 2) by (apply sqrt_sqrt; lra).
  assert (Hi : / sqrt (ln 2) * / sqrt (ln 2) = / ln 2)
    by now rewrite <- Rinv_mult, Hss.
  assert (Hi2 : / ln 2 < 2).
  { assert (H : / ln 2 < / / 2).
    { apply Rinv_lt_contravar; [| lra]. apply Rmult_lt_0_compat; lra. }
    now rewrite Rinv_inv in H. }
  unfold Rdiv. rewrite Rinv_1. nra.
Qed.

Lemma run_normal_lognormal :
  exists e st,
    construct (lib := lib_of brent_converges) [normal01; lognormal11] C_06 0
    = ret (e, st) /\ calls st = [].
Proof.
  destruct chol_C_06 as [L0 H0].
  destruct fill_normal_lognormal as (v & Hfill & Hv).
  destruct (chol_2x2 v Hv) as [L HL].
  eexists _, _. split.
  - exact (construct_far (lib := lib_of brent_converges)
             [normal01; lognormal11] C_06 0 L0 _ L
             eq_refl H0 checks_C_06
             (far_C [normal01; lognormal11] 0.6 eq_refl ltac:(lra))
             Hfill HL).
  - reflexivity.
Qed.

Lemma normal_lognormal_closed_form_witness :
  exists e st,
    construct (lib := lib_of brent_converges) [normal01; lognormal11] C_06 0
    = ret (e, st) /\
    let V := fin_val (std lognormal11) / fin_val (mean lognormal11) in
    mat_at (Rho_Z e) 0 1 = mat_at C_06 0 1 * V / sqrt (ln (1 + V ^ 2)) /\
    mat_at (Rho_Z e) 1 0 = mat_at C_06 0 1 * V / sqrt (ln (1 + V ^ 2)).
Proof.
  destruct run_normal_lognormal as (e & st & Hrun & Hcalls).
  exists e, st. split; [exact Hrun |].
  apply (normal_lognormal_closed_form (lib_of brent_converges)
           [normal01; lognormal11] C_06 0 e st 0 1 normal01 lognormal11 Hrun).
  - apply far_C; [reflexivity | lra].
  - rewrite Hcalls. constructor.
  - reflexivity.
  - reflexivity.
  - reflexivity.
  - reflexivity.
  - reflexivity.
Defined.

Lemma fill_lognormal_pair :
  exists v,
    outer_loop (lib := lib_of brent_converges) [lognormal11; lognormal11] C_06
      (range 0 2) (mkFill (identity 2) 0 [])
    = ret (mkFill [[1; v]; [v; 1]] 0 []) /\ v * v < 1.
Proof.
  unfold C_06. simpl. unfold fill_body. run. unfold set_pair. run.
  eexists. split; [reflexivity |].
  replace (1 + 1 / 1 * (1 / 1 * 1)) with 2 by (field; lra).
  replace (1 + 0.6 * (1 / 1) * (1 / 1)) with 1.6 by lra.
  pose proof ln_2_bounds as [Hl _].
  rewrite sqrt_square by lra.
  assert (H16 : 0 < ln 1.6 < ln 2).
  { split.
    - rewrite <- ln_1. apply ln_increasing; lra.
    - apply ln_increasing; lra. }
  assert (Hq : 0 < ln 1.6 / ln 2 < 1).
  { split.
    - apply Rdiv_lt_0_compat; lra.
    - apply (Rmult_lt_reg_r (ln 2)); [lra |].
      unfold Rdiv. rewrite Rmult_assoc, Rinv_l by lra. lra. }
  nra.
Qed.

Lemma run_lognormal_pair :
  exists e st,
    construct (lib := lib_of brent_converges) [lognormal11; lognormal11] C_06 0
    = ret (e, st) /\ calls st = [].
Proof.
  destruct chol_C_06 as [L0 H0].
  destruct fill_lognormal_pair as (v & Hfill & Hv).
  destruct (chol_2x2 v Hv) as [L HL].
  eexists _, _. split.
  - exact (construct_far (lib := lib_of brent_converges)
             [lognormal11; lognormal11] C_06 0 L0 _ L
             eq_refl H0 checks_C_06
             (far_C [lognormal11; lognormal11] 0.6 eq_refl ltac:(lra))
             Hfill HL).
  - reflexivity.
Qed.

Lemma lognormal_pair_closed_form_witness :
  exists e st,
    construct (lib := lib_of brent_converges) [lognormal11; lognormal11] C_06 0
    = ret (e, st) /\
    let Vi := fin_val (std lognormal11) / fin_val (mean lognormal11) in
    let Vj := fin_val (std lognormal11) / fin_val (mean lognormal11) in
    mat_at (Rho_Z e) 1 0
    = ln (1 + mat_at C_06 1 0 * Vi * Vj)
      / sqrt (ln (1 + Vi ^ 2) * ln (1 + Vj ^ 2)).
Proof.
  destruct run_lognormal_pair as (e & st & Hrun & Hcalls).
  exists e, st. split; [exact Hrun |].
  apply (lognormal_pair_closed_form (lib_of brent_converges)
           [lognormal11; lognormal11] C_06 0 e st 1 0
           lognormal11 lognormal11 Hrun).
  - apply far_C; [reflexivity | lra].
  - rewrite Hcalls. constructor.
  - reflexivity.
  - reflexivity.
  - reflexivity.
  - lia.
  - reflexivity.
  - reflexivity.
Defined.

(** *** Marginals that are all normal *)

Lemma both_normal_of_names M mi mj :
  Forall (fun m => Name m = "normal") M \/
  Forall (fun m => Name m = "standardnormal") M ->
  mi ∈ M -> mj ∈ M -> both_normal mi mj = true.
Proof.
  intros [H | H] Hi Hj; rewrite Forall_forall in H;
    unfold both_normal, is_name; rewrite (H mi Hi), (H mj Hj); reflexivity.
Qed.

Section Normal.

Context {lib : NumLib}.
Variable M : list ERADist.
Variable C : mat.
Hypothesis HM :
  Forall (fun m => Name m = "normal") M \/
  Forall (fun m => Name m = "standardnormal") M.

Lemma fill_body_no_call i j st out :
  fill_body M C i j st = ret out ->
  calls out.2 = calls st /\ rng out.2 = rng st.
Proof.
  unfold fill_body, bind, marginal. intros H.
  destruct (mget C i j) as [e | rij]; [discriminate |].
  destruct (Reqb rij 0).
  { now injection H as <-. }
  destruct (M !! i) as [mi |] eqn:Ei; [| discriminate].
  destruct (M !! j) as [mj |] eqn:Ej; [| discriminate].
  unfold ret at 1 2 in H.
  rewrite (both_normal_of_names M mi mj HM) in H
    by (eapply list_elem_of_lookup_2; eassumption).
  destruct (mset _ _ _ _) as [e | Z1]; [discriminate |].
  destruct (mget C j i) as [e | rji]; [discriminate |].
  destruct (mset Z1 _ _ _) as [e | Z2]; [discriminate |].
  now injection H as <-.
Qed.

Lemma inner_loop_no_call js : forall i st out,
  inner_loop M C js i st = ret out ->
  calls out.2 = calls st /\ rng out.2 = rng st.
Proof.
  induction js as [| j js IH]; intros i st out H.
  - now injection H as <-.
  - simpl in H. unfold bind in H.
    destruct (fill_body M C i j st) as [e | o] eqn:E; [discriminate |].
    destruct (fill_body_no_call _ _ _ _ E) as [H1 H2].
    destruct (IH _ _ _ H) as [H3 H4]. split; congruence.
Qed.

Lemma outer_loop_no_call rest : forall st st',
  outer_loop M C rest st = ret st' ->
  calls st' = calls st /\ rng st' = rng st.
Proof.
  induction rest as [| i rest IH]; intros st st' H.
  - now injection H as <-.
  - simpl in H. unfold bind in H.
    destruct (inner_loop _ _ _ _ _) as [e | o] eqn:E; [discriminate |].
    destruct (inner_loop_no_call _ _ _ _ E) as [H1 H2].
    destruct (IH _ _ H) as [H3 H4]. split; congruence.
Qed.

End Normal.

(** When the marginals are all named [normal], or all named
    [standardnormal], the constructor calls no root finder and draws no
    random value; and when the correlation matrix, of the shape [d, d], is
    farther than 1e-5 from the identity, the entries of [Rho_Z] off the
    diagonal are those of the matrix given. *)
Theorem normal_marginals_copy_correlation :
  forall (lib : NumLib) (M : list ERADist) (C : mat) (rng0 : nat)
         (e : ERANataf) (st : fill_state),
    construct M C rng0 = ret (e, st) ->
    Forall (fun m => Name m = "normal") M \/
    Forall (fun m => Name m = "standardnormal") M ->
    calls st = [] /\ rng st = rng0 /\
    (far_from_identity M C = true -> length C = n_dist M ->
     forall i j, (i < n_dist M)%nat -> (j < n_dist M)%nat -> i <> j ->
                 mat_at (Rho_Z e) i j = mat_at C i j).
Proof.
  intros lib M C rng0 e st Hrun HM.
  assert (Hcalls : calls st = [] /\ rng st = rng0).
  { destruct (construct_inv _ _ _ _ _ Hrun) as (_ & _ & _ & _ & Hfill & _).
    destruct (far_from_identity M C).
    - exact (outer_loop_no_call M C HM _ _ _ Hfill).
    - now subst st. }
  destruct Hcalls as [Hcalls Hrng].
  split; [exact Hcalls | split; [exact Hrng |]].
  intros Hfar Hlen i j Hi Hj Hne.
  assert (Hclean : clean (calls st)) by (rewrite Hcalls; constructor).
  destruct (lookup_lt_is_Some_2 M i Hi) as [mi Hmi].
  destruct (lookup_lt_is_Some_2 M j Hj) as [mj Hmj].
  assert (Hn : both_normal mi mj = true).
  { apply (both_normal_of_names M); [exact HM | |];
      eapply list_elem_of_lookup_2; eassumption. }
  destruct (decide (i < j)%nat) as [Hlt | Hge].
  - destruct (pair_of_clean_run M C rng0 e st i j Hrun Hfar Hclean)
      as (st1 & out1 & Hb & _ & Z1 & Z2 & -> & _); [lia |].
    destruct (fill_body_both_normal _ _ _ _ _ _ _ _ Hb Hmi Hmj Hne Hn)
      as [[H0 ->] | [H1 _]]; [| exact H1].
    simpl. now rewrite Z1, H0.
  - destruct (pair_of_clean_run M C rng0 e st j i Hrun Hfar Hclean)
      as (st1 & out1 & Hb & _ & Z1 & Z2 & _ & ->); [lia |].
    rewrite both_normal_sym in Hn.
    destruct (fill_body_both_normal _ _ _ _ _ _ _ _ Hb Hmj Hmi
                (not_eq_sym Hne) Hn)
      as [[H0 ->] | [_ H1]]; [| exact H1].
    simpl. rewrite Z2.
    now rewrite (symmetric_C M C rng0 e st i j Hrun Hlen Hi Hj), H0.
Qed.

Lemma run_normal_06 :
  exists L,
    construct (lib := lib_of brent_converges) [normal01; normal01] C_06 0
    = ret (mkNataf [normal01; normal01] C_06 C_06 L, mkFill C_06 0 []).
Proof.
  destruct chol_C_06 as [L HL]. exists L.
  exact (construct_far (lib := lib_of brent_converges)
           [normal01; normal01] C_06 0 L (mkFill C_06 0 []) L
           eq_refl HL checks_C_06
           (far_C [normal01; normal01] 0.6 eq_refl ltac:(lra))
           fill_normal_06 HL).
Qed.

Lemma normal_marginals_copy_correlation_witness :
  exists e st,
    construct (lib := lib_of brent_converges) [normal01; normal01] C_06 0
    = ret (e, st) /\
    calls st = [] /\ rng st = 0%nat /\
    mat_at (Rho_Z e) 1 0 = mat_at C_06 1 0.
Proof.
  destruct run_normal_06 as [L HL]. eexists _, _. split; [exact HL |].
  destruct (normal_marginals_copy_correlation (lib_of brent_converges)
              [normal01; normal01] C_06 0 _ _ HL)
    as (H1 & H2 & H3).
  - left. repeat constructor.
  - split; [exact H1 | split; [exact H2 |]].
    apply H3; [apply far_C; [reflexivity | lra] | reflexivity
              | simpl; lia | simpl; lia | lia].
Defined.

(** *** The error of the root finders *)

Lemma mset_error (Z : mat) i j v e : mset Z i j v = raise e -> e = IndexError.
Proof.
  unfold mset. destruct (Z !! i); [| now intros [= <-]].
  destruct (_ <? _)%nat; [discriminate | now intros [= <-]].
Qed.

Lemma mget_error (Z : mat) i j e : mget Z i j = raise e -> e = IndexError.
Proof.
  unfold mget. destruct (Z !! i) as [r |]; [| now intros [= <-]].
  destruct (r !! j); [discriminate | now intros [= <-]].
Qed.

Lemma set_pair_error (Z : mat) i j v e :
  set_pair Z i j v = raise e -> e = IndexError.
Proof.
  unfold set_pair, bind.
  destruct (mset Z i j v) as [e1 | Z1] eqn:E1.
  { intros [= <-]. exact (mset_error _ _ _ _ _ E1). }
  destruct (mget Z1 i j) as [e2 | x] eqn:E2.
  { intros [= <-]. exact (mget_error _ _ _ _ E2). }
  apply mset_error.
Qed.

Section Exhausted.

Context {lib : NumLib}.
Variable M : list ERADist.
Variable C : mat.

Lemma restart_loop_error j c ks : forall i sol st e,
  restart_loop C j c ks i sol st = raise e -> e = IndexError.
Proof.
  induction ks as [| k ks IH]; intros i sol st e H; [discriminate |].
  simpl in H. unfold bind in H.
  destruct (mget C k j) as [e1 | target] eqn:E1.
  { injection H as <-. exact (mget_error _ _ _ _ E1). }
  destruct (_ =? 1)%Z; [discriminate |].
  exact (IH _ _ _ _ H).
Qed.

(** A loop over the seeds that ends without a root has read a row of the
    correlation matrix for every seed. *)
Lemma restart_loop_exhausted j c ks : forall i sol st out,
  restart_loop C j c ks i sol st = ret out ->
  ks <> [] ->
  (out.1.2.2 =? 1)%Z = false ->
  forall k, k ∈ ks -> (k < length C)%nat.
Proof.
  induction ks as [| k ks IH]; intros i sol st out H Hne Hsol k' Hk';
    [contradiction |].
  simpl in H. unfold bind in H.
  destruct (mget C k j) as [e1 | target] eqn:E1; [discriminate |].
  destruct (_ =? 1)%Z eqn:E.
  { injection H as <-. simpl in Hsol. congruence. }
  apply elem_of_cons in Hk' as [-> | Hk'].
  - exact (mget_lt _ _ _ _ E1).
  - destruct ks as [| k2 ks]; [now apply elem_of_nil in Hk' |].
    apply (IH _ _ _ _ H); [discriminate | exact Hsol | exact Hk'].
Qed.

Hypothesis Hbrentq :
  forall f a b, brentq f a b <> raise (RuntimeError msg_no_solution).

Lemma solve_pair_no_solution i j mi mj rij st :
  solve_pair C i j mi mj rij st = raise (RuntimeError msg_no_solution) ->
  (10 <= length C)%nat.
Proof.
  unfold solve_pair, bind. intros H.
  destruct (brentq _ _ _) as [e | r] eqn:Eb.
  { injection H as ->. now apply Hbrentq in Eb. }
  destruct r.2.
  { destruct (set_pair _ _ _ _) as [e | Z'] eqn:E; [| discriminate].
    injection H as ->. now apply set_pair_error in E. }
  destruct (_ =? 1)%Z.
  { destruct (set_pair _ _ _ _) as [e | Z'] eqn:E; [| discriminate].
    injection H as ->. now apply set_pair_error in E. }
  destruct (_ =? 1)%Z.
  { destruct (set_pair _ _ _ _) as [e | Z'] eqn:E; [| discriminate].
    injection H as ->. now apply set_pair_error in E. }
  destruct (restart_loop _ _ _ _ _ _ _) as [e | out'] eqn:E.
  { injection H as ->. now apply restart_loop_error in E. }
  destruct (_ =? 1)%Z eqn:Es.
  { destruct (set_pair _ _ _ _) as [e | Z'] eqn:E'; [| discriminate].
    injection H as ->. now apply set_pair_error in E'. }
  pose proof (restart_loop_exhausted _ _ _ _ _ _ _ E ltac:(discriminate) Es
                9%nat) as H9.
  specialize (H9 ltac:(apply elem_of_range; lia)). lia.
Qed.

Lemma fill_body_no_solution i j st :
  fill_body M C i j st = raise (RuntimeError msg_no_solution) ->
  (10 <= length C)%nat.
Proof.
  unfold fill_body, bind, marginal. intros H.
  destruct (mget C i j) as [e | rij] eqn:E.
  { injection H as ->. now apply mget_error in E. }
  destruct (Reqb rij 0); [discriminate |].
  destruct (M !! i) as [mi |]; [| discriminate].
  destruct (M !! j) as [mj |]; [| discriminate].
  unfold ret at 1 2 in H.
  destruct (both_normal mi mj).
  { destruct (mset (fRho_Z st) i j rij) as [e | Z1] eqn:E1.
    { injection H as ->. now apply mset_error in E1. }
    destruct (mget C j i) as [e | rji] eqn:E2.
    { injection H as ->. now apply mget_error in E2. }
    destruct (mset Z1 j i rji) as [e | Z2] eqn:E3; [| discriminate].
    injection H as ->. now apply mset_error in E3. }
  destruct (_ && _).
  { destruct (set_pair _ _ _ _) as [e | Z'] eqn:E'; [| discriminate].
    injection H as ->. now apply set_pair_error in E'. }
  destruct (_ && _).
  { destruct (set_pair _ _ _ _) as [e | Z'] eqn:E'; [| discriminate].
    injection H as ->. now apply set_pair_error in E'. }
  destruct (_ && _).
  { destruct (set_pair _ _ _ _) as [e | Z'] eqn:E'; [| discriminate].
    injection H as ->. now apply set_pair_error in E'. }
  exact (solve_pair_no_solution _ _ _ _ _ _ H).
Qed.

Lemma inner_loop_no_solution js : forall i st,
  inner_loop M C js i st = raise (RuntimeError msg_no_solution) ->
  (10 <= length C)%nat.
Proof.
  induction js as [| j js IH]; intros i st H; [discriminate |].
  simpl in H. unfold bind in H.
  destruct (fill_body M C i j st) as [e | o] eqn:E.
  - injection H as ->. exact (fill_body_no_solution _ _ _ E).
  - exact (IH _ _ H).
Qed.

Lemma outer_loop_no_solution rest : forall st,
  outer_loop M C rest st = raise (RuntimeError msg_no_solution) ->
  (10 <= length C)%nat.
Proof.
  induction rest as [| i rest IH]; intros st H; [discriminate |].
  simpl in H. unfold bind in H.
  destruct (inner_loop _ _ _ _ _) as [e | o] eqn:E.
  - injection H as ->. exact (inner_loop_no_solution _ _ _ E).
  - exact (IH _ H).
Qed.

End Exhausted.

(** Let [optimize.brentq] itself never raise the error "brentq and fsolve
    could not converge".  On a correlation matrix of fewer than ten rows
    the constructor never raises that error: the loop over the ten random
    seeds reads [self.Rho_X[i, j]] at a seed index past the last row, and
    raises [IndexError], before it can end without a root. *)
Theorem no_solution_error_needs_ten_rows :
  forall (lib : NumLib) (M : list ERADist) (C : mat) (rng0 : nat),
    (forall f a b, brentq f a b <> raise (RuntimeError msg_no_solution)) ->
    (length C < 10)%nat ->
    ERANataf_init M C rng0 <> raise (RuntimeError msg_no_solution).
Proof.
  intros lib M C rng0 Hb Hlen.
  unfold ERANataf_init, construct, init_fill, bind.
  destruct (finite_moments M); simpl; [| discriminate].
  destruct (cholesky C); [| discriminate].
  destruct (all_symmetric C); simpl; [| discriminate].
  destruct (unit_diagonal C); simpl; [| discriminate].
  destruct (far_from_identity M C).
  - destruct (outer_loop _ _ _ _) as [e | st] eqn:E.
    + intros [= ->]. pose proof (outer_loop_no_solution M C Hb _ _ E). lia.
    + destruct (cholesky (fRho_Z st)); discriminate.
  - simpl. destruct (cholesky (identity (n_dist M))); discriminate.
Qed.

(** Two uniform marginals with correlation 0.5 when no root finder
    converges: the third random seed is tried with [i = 2], and
    [self.Rho_X[2, 1]] does not exist. *)
Lemma run_never_converges :
  ERANataf_init (lib := lib_of never_converges) [uniform01; uniform01] C_05 0
  = raise IndexError.
Proof.
  destruct chol_C_05 as [L0 H0].
  unfold ERANataf_init, construct, init_fill.
  change (cholesky C_05) with (cholesky_R C_05). rewrite H0.
  destruct checks_C_05 as [-> ->].
  pose proof (far_C [uniform01; uniform01] 0.5 eq_refl ltac:(lra)) as Hfar.
  fold C_05 in Hfar.
  cbn [finite_moments forallb isfinite mean std uniform01 andb negb].
  rewrite Hfar.
  unfold C_05. simpl. unfold fill_body. run. unfold solve_pair. now run.
Qed.

Lemma no_solution_error_needs_ten_rows_witness :
  ERANataf_init (lib := lib_of never_converges) [uniform01; uniform01] C_05 0
  = raise IndexError /\
  ERANataf_init (lib := lib_of never_converges) [uniform01; uniform01] C_05 0
  <> raise (RuntimeError msg_no_solution).
Proof.
  split; [exact run_never_converges |].
  apply (no_solution_error_needs_ten_rows (lib_of never_converges)).
  - discriminate.
  - simpl. lia.
Defined.

End ConstructMore.

(** ** ERANataf.py: the fill with [optimize.brentq] as it is called *)

Module BrentSpec.
Import Nataf RealLib ConstructSpec Runs.

(** *** No random restart *)

Section Fill.

Context {lib : NumLib}.
Variable M : list ERADist.
Variable C : mat.
Hypothesis Hbrent : brentq_returns_converged lib.

Lemma solve_pair_no_restart i j mi mj rij st out :
  solve_pair C i j mi mj rij st = ret out ->
  clean (calls st) -> clean (calls out.2).
Proof.
  unfold solve_pair, bind. intros H Hc.
  destruct (brentq _ _ _) as [e | [x c]] eqn:E; [discriminate |].
  rewrite (Hbrent _ _ _ _ _ E) in H. simpl in H.
  destruct (set_pair _ _ _ _) as [e | Z']; [discriminate |].
  injection H as <-. simpl. now constructor.
Qed.

Lemma fill_body_no_restart i j st out :
  fill_body M C i j st = ret out ->
  clean (calls st) -> clean (calls out.2).
Proof.
  unfold fill_body, bind. intros H Hc.
  destruct (mget C i j) as [e | rij]; [discriminate |].
  destruct (Reqb rij 0).
  { now injection H as <-. }
  destruct (marginal M i) as [e | mi]; [discriminate |].
  destruct (marginal M j) as [e | mj]; [discriminate |].
  destruct (both_normal mi mj).
  { destruct (mset _ _ _ _) as [e | Z1]; [discriminate |].
    destruct (mget C j i) as [e | rji]; [discriminate |].
    destruct (mset Z1 _ _ _) as [e | Z2]; [discriminate |].
    now injection H as <-. }
  destruct (_ && _).
  { destruct (set_pair _ _ _ _) as [e | Z']; [discriminate |].
    now injection H as <-. }
  destruct (_ && _).
  { destruct (set_pair _ _ _ _) as [e | Z']; [discriminate |].
    now injection H as <-. }
  destruct (_ && _).
  { destruct (set_pair _ _ _ _) as [e | Z']; [discriminate |].
    now injection H as <-. }
  exact (solve_pair_no_restart _ _ _ _ _ _ _ H Hc).
Qed.

Lemma inner_loop_no_restart js i st out :
  inner_loop M C js i st = ret out ->
  clean (calls st) -> clean (calls out.2).
Proof.
  revert i st. induction js as [| j js IH]; intros i st H Hc.
  - now injection H as <-.
  - simpl in H. unfold bind in H.
    destruct (fill_body M C i j st) as [e | o] eqn:E; [discriminate |].
    apply (IH _ _ H). exact (fill_body_no_restart _ _ _ _ E Hc).
Qed.

Lemma outer_loop_no_restart rest st st' :
  outer_loop M C rest st = ret st' ->
  clean (calls st) -> clean (calls st').
Proof.
  revert st. induction rest as [| i rest IH]; intros st H Hc.
  - now injection H as <-.
  - simpl in H. unfold bind in H.
    destruct (inner_loop _ _ _ _ _) as [e | o] eqn:E; [discriminate |].
    apply (IH _ H). exact (inner_loop_no_restart _ _ _ _ E Hc).
Qed.

(** The constructor never reaches the loop of random seeds. *)
Lemma construct_no_restart rng0 e st :
  construct M C rng0 = ret (e, st) -> clean (calls st).
Proof.
  intros Hrun.
  destruct (construct_inv _ _ _ _ _ Hrun) as (_ & _ & _ & _ & Hfill & _).
  destruct (far_from_identity M C).
  - apply (outer_loop_no_restart _ _ _ Hfill). constructor.
  - subst st. constructor.
Qed.

End Fill.

(** *** Pairs without correlation *)

(** C10.  [optimize.brentq] is called without [disp=False], so a call
    that returns has converged.  For every object that the constructor
    returns from a correlation matrix of the shape [d, d], every pair of
    distinct marginals [i], [j] whose physical correlation [Rho_X[i, j]] is
    0 has the standard-normal correlation [Rho_Z[i, j]] equal to 0, and no
    root finder was called for that pair. *)
Theorem C10_zero_correlation_is_kept :
  forall (lib : NumLib) (M : list ERADist) (C : mat) (rng0 : nat)
         (e : ERANataf) (st : fill_state) (i j : nat),
    brentq_returns_converged lib ->
    construct M C rng0 = ret (e, st) ->
    length C = n_dist M ->
    (i < n_dist M)%nat -> (j < n_dist M)%nat -> i <> j ->
    mat_at (Rho_X e) i j = 0 ->
    mat_at (Rho_Z e) i j = 0 /\
    Forall (fun c => call_pair c <> (i, j) /\ call_pair c <> (j, i)) (calls st).
Proof.
  intros lib M C rng0 e st i j Hbrent Hrun Hlen Hi Hj Hne H0.
  pose proof (construct_no_restart M C Hbrent _ _ _ Hrun) as Hclean.
  destruct (construct_inv _ _ _ _ _ Hrun) as (_ & _ & Hsym & _ & _ & _ & He).
  assert (Hij : mat_at C i j = 0).
  { rewrite He in H0. exact H0. }
  assert (Hji : mat_at C j i = 0).
  { rewrite <- Hij. apply all_symmetric_at; [exact Hsym | lia | lia]. }
  destruct (zero_correlation_kept_in_clean_runs
              lib M C rng0 e st i j Hrun Hclean Hlen Hi Hj Hne Hij)
    as [HZ Hcs].
  destruct (zero_correlation_kept_in_clean_runs
              lib M C rng0 e st j i Hrun Hclean Hlen Hj Hi
              (not_eq_sym Hne) Hji)
    as [_ Hcs'].
  split; [exact HZ |].
  rewrite Forall_forall in Hcs, Hcs'. apply Forall_forall.
  intros c Hc. split; [now apply Hcs | now apply Hcs'].
Qed.

(** Three uniform marginals of which only the first and the last are
    correlated (0.6), Brent's method returning 0.6000000000001: the fill
    calls it once, for the pair (0, 2). *)
Lemma fill_uniform_13 :
  outer_loop (lib := lib_of brent_near_06)
    [uniform01; uniform01; uniform01] C_13
    (range 0 3) (mkFill (identity 3) 0 [])
  = ret (mkFill [[1; 0; 0.6000000000001]; [0; 1; 0];
                 [0.6000000000001; 0; 1]] 0 [CallBrentq 0 2]).
Proof. unfold C_13. simpl. unfold fill_body. run. unfold solve_pair. now run. Qed.

Lemma chol_Z_13 :
  exists L,
    cholesky_R [[1; 0; 0.6000000000001]; [0; 1; 0]; [0.6000000000001; 0; 1]]
    = Some L.
Proof. chol_run. now eexists. Qed.

Lemma brent_near_06_converged :
  brentq_returns_converged (lib_of brent_near_06).
Proof. intros f a b x c H. now injection H as _ <-. Qed.

Lemma C10_zero_correlation_is_kept_witness :
  exists e st,
    construct (lib := lib_of brent_near_06)
      [uniform01; uniform01; uniform01] C_13 0
    = ret (e, st) /\
    mat_at (Rho_X e) 0 2 = 0.6 /\
    mat_at (Rho_Z e) 0 2 = 0.6000000000001 /\
    mat_at (Rho_X e) 1 2 = 0 /\
    mat_at (Rho_Z e) 1 2 = 0 /\
    Forall (fun c => call_pair c <> (1%nat, 2%nat) /\
                     call_pair c <> (2%nat, 1%nat)) (calls st).
Proof.
  destruct chol_C_13 as [L0 H0]. destruct chol_Z_13 as [L HL].
  pose (Z := [[1; 0; 0.6000000000001]; [0; 1; 0]; [0.6000000000001; 0; 1]]).
  assert (Hrun : construct (lib := lib_of brent_near_06)
                   [uniform01; uniform01; uniform01] C_13 0
                 = ret (mkNataf [uniform01; uniform01; uniform01] C_13 Z L,
                        mkFill Z 0 [CallBrentq 0 2])).
  { apply (construct_far (lib := lib_of brent_near_06)
             [uniform01; uniform01; uniform01] C_13 0 L0
             (mkFill Z 0 [CallBrentq 0 2]) L);
      [reflexivity | exact H0 | exact checks_C_13
      | now apply far_C_13 | exact fill_uniform_13 | exact HL]. }
  eexists _, _. split; [exact Hrun |].
  split; [reflexivity | split; [reflexivity | split; [reflexivity |]]].
  apply (C10_zero_correlation_is_kept (lib_of brent_near_06)
           [uniform01; uniform01; uniform01] C_13 0 _ _ 1 2
           brent_near_06_converged Hrun);
    [reflexivity | simpl; lia | simpl; lia | lia | reflexivity].
Defined.

End BrentSpec.

(** ** ERANataf.py: the quadrature *)

Module QuadratureSpec.
Import Nataf RealLib.

(** *** The density of the bivariate normal distribution *)

(** [bivariateNormalPdf] is symmetric in its two arguments and even; at
    correlation zero it is the product of two standard normal densities;
    for a correlation between -1 and 1 it is positive. *)
Theorem bivariateNormalPdf_symmetric_positive :
  forall x1 x2 rho,
    bivariateNormalPdf x1 x2 rho = bivariateNormalPdf x2 x1 rho /\
    bivariateNormalPdf (- x1) (- x2) rho = bivariateNormalPdf x1 x2 rho /\
    bivariateNormalPdf x1 x2 0
    = / sqrt (2 * PI) * exp (- x1 ^ 2 / 2)
      * (/ sqrt (2 * PI) * exp (- x2 ^ 2 / 2)) /\
    (-1 < rho < 1 -> 0 < bivariateNormalPdf x1 x2 rho).
Proof.
  intros x1 x2 rho. unfold bivariateNormalPdf.
  assert (Hpi := PI_RGT_0).
  split; [| split; [| split]].
  - do 2 f_equal. ring.
  - do 2 f_equal. ring.
  - replace (1 - 0 ^ 2) with 1 by ring. rewrite sqrt_1.
    replace (-1 / (2 * 1) * (x1 ^ 2 - 2 * 0 * x1 * x2 + x2 ^ 2))
      with (- x1 ^ 2 / 2 + - x2 ^ 2 / 2) by field.
    rewrite exp_plus.
    assert (Hs : sqrt (2 * PI) * sqrt (2 * PI) = 2 * PI)
      by (apply sqrt_sqrt; lra).
    assert (Hq : 0 < sqrt (2 * PI)) by (apply sqrt_lt_R0; lra).
    replace (2 * PI * 1) with (sqrt (2 * PI) * sqrt (2 * PI)) by lra.
    field. lra.
  - intros Hr.
    assert (H1 : 0 < 1 - rho ^ 2) by nra.
    apply Rmult_lt_0_compat; [| apply exp_pos].
    apply Rdiv_lt_0_compat; [lra |].
    apply Rmult_lt_0_compat; [lra | now apply sqrt_lt_R0].
Qed.

Lemma bivariateNormalPdf_symmetric_positive_witness :
  0 < bivariateNormalPdf 1 2 0.5.
Proof.
  apply (bivariateNormalPdf_symmetric_positive 1 2 0.5). lra.
Defined.

(** *** The arrays of the two-dimensional quadrature *)

(** The entry of index [a * n + b] of rows of length [n] put end to end. *)
Lemma nth_concat_rows (n : nat) (R : mat) :
  Forall (fun r => length r = n) R ->
  forall a b, (b < n)%nat ->
    nth (a * n + b) (concat R) 0 = nth b (nth a R []) 0.
Proof.
  induction 1 as [| r R Hr HR IH]; intros a b Hb.
  - replace (nth a (@nil vec) []) with (@nil R) by now destruct a.
    now rewrite !nth_overflow by (simpl; lia).
  - destruct a as [| a]; simpl.
    + rewrite app_nth1 by lia. reflexivity.
    + rewrite app_nth2 by lia.
      replace (n + a * n + b - length r)%nat with (a * n + b)%nat by lia.
      now apply IH.
Qed.

Lemma length_concat_rows (n : nat) (R : mat) :
  Forall (fun r => length r = n) R ->
  length (concat R) = (length R * n)%nat.
Proof. induction 1 as [| r R Hr HR IH]; simpl; [| rewrite length_app]; lia. Qed.

Lemma nth_replicate_lt {T} (x d : T) n k :
  (k < n)%nat -> nth k (replicate n x) d = x.
Proof.
  intros Hk. rewrite nth_lookup, lookup_replicate_2 by assumption.
  reflexivity.
Qed.

Lemma nth_map_seq {T} (f : nat -> T) (d : T) n k :
  (k < n)%nat -> nth k (map f (seq 0 n)) d = f k.
Proof.
  intros Hk. rewrite nth_lookup, list_lookup_fmap, lookup_seq_lt by assumption.
  reflexivity.
Qed.

Section Grid.

Variable n : nat.
Variable v : vec.
Hypothesis Hv : length v = n.

Lemma col_replicate k : col (tile_rows v n) k = replicate n (nth k v 0).
Proof.
  unfold col, tile_rows. simpl. clear Hv.
  induction n as [| m IH]; simpl; [| rewrite IH]; reflexivity.
Qed.

Lemma flatten_F_tile_rows a b :
  (a < n)%nat -> (b < n)%nat ->
  nth (a * n + b) (flatten_F (tile_rows v n)) 0 = nth a v 0.
Proof.
  intros Ha Hb. unfold flatten_F, transpose. cbn [rows].
  rewrite (nth_concat_rows n).
  - cbn [dim1 tile_rows]. rewrite Hv.
    rewrite (nth_map_seq _ []) by assumption.
    rewrite col_replicate. now apply nth_replicate_lt.
  - apply Forall_forall. intros r Hr.
    apply list_elem_of_fmap in Hr as (k & -> & _).
    rewrite col_replicate. apply length_replicate.
  - exact Hb.
Qed.

Lemma length_flatten_F_tile_rows :
  length (flatten_F (tile_rows v n)) = (n * n)%nat.
Proof.
  unfold flatten_F, transpose. cbn [rows].
  rewrite (length_concat_rows n).
  - cbn [dim1 tile_rows]. now rewrite length_map, length_seq, Hv.
  - apply Forall_forall. intros r Hr.
    apply list_elem_of_fmap in Hr as (k & -> & _).
    rewrite col_replicate. apply length_replicate.
Qed.

Lemma Forall_replicate_rows : Forall (fun r : vec => length r = n) (replicate n v).
Proof. apply Forall_forall. intros r Hr. apply elem_of_replicate in Hr as [-> _]. exact Hv. Qed.

Lemma nth_tile a b :
  (a < n)%nat -> (b < n)%nat -> nth (a * n + b) (tile v n) 0 = nth b v 0.
Proof.
  intros Ha Hb. unfold tile.
  rewrite (nth_concat_rows n _ Forall_replicate_rows) by assumption.
  now rewrite nth_replicate_lt.
Qed.

Lemma length_tile : length (tile v n) = (n * n)%nat.
Proof.
  unfold tile. rewrite (length_concat_rows n _ Forall_replicate_rows).
  now rewrite length_replicate.
Qed.

(** Cutting the tiled array into rows of length [n] gives back the copies
    of [v]. *)
Lemma take_drop_concat (R : mat) :
  Forall (fun r => length r = n) R ->
  forall a, (a < length R)%nat ->
    take n (drop (a * n) (concat R)) = nth a R [].
Proof.
  induction 1 as [| r R Hr HR IH]; intros a Ha; [simpl in Ha; lia |].
  destruct a as [| a]; cbn [concat Nat.mul Nat.add nth].
  - rewrite drop_0, take_app_le by lia. now rewrite take_ge by lia.
  - rewrite drop_app_ge by lia.
    replace (n + a * n - length r)%nat with (a * n)%nat by lia.
    apply IH. simpl in Ha. lia.
Qed.

Lemma rows_reshape_tile : rows (reshape2 (tile v n) n n) = replicate n v.
Proof.
  unfold reshape2, tile. cbn [rows].
  apply list_eq. intros a.
  rewrite list_lookup_fmap.
  destruct (decide (a < n)%nat) as [Ha | Ha].
  - rewrite lookup_seq_lt by assumption. simpl.
    rewrite (take_drop_concat _ Forall_replicate_rows)
      by now rewrite length_replicate.
    rewrite nth_replicate_lt by assumption.
    now rewrite lookup_replicate_2.
  - rewrite lookup_seq_ge by lia. simpl.
    symmetry. apply lookup_ge_None. rewrite length_replicate. lia.
Qed.

Lemma col_reshape_tile k :
  col (reshape2 (tile v n) n n) k = replicate n (nth k v 0).
Proof.
  unfold col. rewrite rows_reshape_tile. clear Hv.
  induction n as [| m IH]; simpl; [| rewrite IH]; reflexivity.
Qed.

Lemma zip_with_replicate_r (l : vec) (x : R) :
  (length l <= n)%nat ->
  zip_with Rmult l (replicate n x) = map (fun y => y * x) l.
Proof.
  clear Hv. revert l. induction n as [| m IH]; intros l Hl.
  - destruct l; [reflexivity | simpl in Hl; lia].
  - destruct l as [| y l]; [reflexivity |]. simpl.
    rewrite IH by (simpl in Hl; lia). reflexivity.
Qed.

(** The rows of [weights2d = first * second]. *)
Lemma lookup_weights2d a :
  (a < n)%nat ->
  zip_with (zip_with Rmult)
    (rows (reshape2 (tile v n) n n))
    (rows (transpose (reshape2 (tile v n) n n))) !! a
  = Some (map (fun y => y * nth a v 0) v).
Proof.
  intros Ha. rewrite lookup_zip_with, rows_reshape_tile.
  rewrite lookup_replicate_2 by assumption. cbn [option_bind mbind].
  unfold transpose. cbn [rows dim1 reshape2].
  rewrite list_lookup_fmap, lookup_seq_lt by assumption.
  cbn [fmap option_fmap option_map Nat.add].
  rewrite col_reshape_tile. simpl.
  now rewrite zip_with_replicate_r by lia.
Qed.

Lemma length_weights2d :
  length (zip_with (zip_with Rmult)
            (rows (reshape2 (tile v n) n n))
            (rows (transpose (reshape2 (tile v n) n n)))) = n.
Proof.
  rewrite length_zip_with, rows_reshape_tile, length_replicate.
  unfold transpose. cbn [rows dim1 reshape2].
  rewrite length_map, length_seq. lia.
Qed.

Lemma Forall_weights2d :
  Forall (fun r : vec => length r = n)
    (zip_with (zip_with Rmult)
       (rows (reshape2 (tile v n) n n))
       (rows (transpose (reshape2 (tile v n) n n)))).
Proof.
  apply Forall_lookup. intros a r Hr.
  assert (Ha : (a < n)%nat).
  { apply lookup_lt_Some in Hr. now rewrite length_weights2d in Hr. }
  rewrite (lookup_weights2d a Ha) in Hr. injection Hr as <-.
  now rewrite length_map.
Qed.

Lemma nth_weights2d a b :
  (a < n)%nat -> (b < n)%nat ->
  nth (a * n + b)
    (concat (zip_with (zip_with Rmult)
               (rows (reshape2 (tile v n) n n))
               (rows (transpose (reshape2 (tile v n) n n))))) 0
  = nth a v 0 * nth b v 0.
Proof.
  intros Ha Hb. rewrite (nth_concat_rows n _ Forall_weights2d) by assumption.
  rewrite (nth_lookup _ a), (lookup_weights2d a Ha). cbn [default from_option].
  unfold Datatypes.id.
  rewrite (nth_indep _ 0 ((fun y => y * nth a v 0) 0))
    by (rewrite length_map; lia).
  rewrite (map_nth (fun y => y * nth a v 0)). ring.
Qed.

End Grid.

(** The arrays [xi], [eta] and [w2d] of the constructor list the tensor
    product of the one-dimensional rule: when [leggauss] returns as many
    points and weights as asked for, the three arrays have the square of
    that number of entries, and at the index [a * n + b] stand the pair of
    points of indices [a] and [b] and the product of their weights. *)
Theorem quadrature_grid_is_tensor_product :
  forall (lib : NumLib) (a b : nat),
    length (leggauss quad_n).1 = quad_n ->
    length (leggauss quad_n).2 = quad_n ->
    (a < quad_n)%nat -> (b < quad_n)%nat ->
    nth (a * quad_n + b) xi 0 = nth a points 0 /\
    nth (a * quad_n + b) eta 0 = nth b points 0 /\
    nth (a * quad_n + b) w2d 0 = nth a weights 0 * nth b weights 0 /\
    length xi = (quad_n * quad_n)%nat /\
    length eta = (quad_n * quad_n)%nat /\
    length w2d = (quad_n * quad_n)%nat.
Proof.
  intros lib a b Hp Hw Ha Hb.
  assert (Hpoints : length points = quad_n)
    by (unfold points; now rewrite length_map).
  assert (Hweights : length weights = quad_n)
    by (unfold weights; now rewrite length_map).
  unfold xi, eta, w2d, weights2d, second, first.
  repeat split.
  - now apply flatten_F_tile_rows.
  - now apply nth_tile.
  - now apply nth_weights2d.
  - now apply length_flatten_F_tile_rows.
  - now apply length_tile.
  - rewrite (length_concat_rows quad_n).
    + now rewrite length_weights2d.
    + now apply Forall_weights2d.
Qed.

Lemma quadrature_grid_is_tensor_product_witness :
  nth (1 * quad_n + 2) (xi (lib := lib_of brent_converges)) 0
  = nth 1 (points (lib := lib_of brent_converges)) 0 /\
  nth (1 * quad_n + 2) (eta (lib := lib_of brent_converges)) 0
  = nth 2 (points (lib := lib_of brent_converges)) 0 /\
  nth (1 * quad_n + 2) (w2d (lib := lib_of brent_converges)) 0
  = nth 1 (weights (lib := lib_of brent_converges)) 0
    * nth 2 (weights (lib := lib_of brent_converges)) 0 /\
  length (xi (lib := lib_of brent_converges)) = (quad_n * quad_n)%nat /\
  length (eta (lib := lib_of brent_converges)) = (quad_n * quad_n)%nat /\
  length (w2d (lib := lib_of brent_converges)) = (quad_n * quad_n)%nat.
Proof.
  apply (quadrature_grid_is_tensor_product (lib_of brent_converges) 1 2).
  - apply length_replicate.
  - apply length_replicate.
  - unfold quad_n. lia.
  - unfold quad_n. lia.
Defined.

End QuadratureSpec.

(** ** ERANataf.py: more on the methods *)

Module TransformSpec.
Import Nataf RealLib ConstructSpec Runs RoundTrip.

(** *** Loops that assign the columns of an array in turn *)

Lemma map_nth_seq_rows (R : mat) :
  map (fun k => nth k R []) (seq 0 (length R)) = R.
Proof.
  apply list_eq. intros k. rewrite list_lookup_fmap.
  destruct (decide (k < length R)%nat) as [Hk | Hk].
  - rewrite lookup_seq_lt by assumption. simpl.
    rewrite nth_lookup. destruct (lookup_lt_is_Some_2 R k Hk) as [x Hx].
    now rewrite Hx.
  - rewrite lookup_seq_ge by lia. simpl.
    symmetry. apply lookup_ge_None. lia.
Qed.

Lemma nth_zip_with_insert (R : mat) (v : vec) i k :
  (k < length R)%nat -> (k < length v)%nat ->
  nth k (zip_with (fun r x => <[i := x]> r) R v) []
  = <[i := nth k v 0]> (nth k R []).
Proof.
  intros HR Hv. rewrite !nth_lookup, lookup_zip_with.
  destruct (lookup_lt_is_Some_2 R k HR) as [r ->].
  destruct (lookup_lt_is_Some_2 v k Hv) as [x ->]. reflexivity.
Qed.

(** A loop of assignments [X[:, i] = f i] works row by row: in row [k] it
    assigns the entry [k] of every [f i]. *)
Lemma fold_set_col_rows (f : nat * ERADist -> vec) (n : nat) ims :
  (forall im, im ∈ ims -> length (f im) = n) ->
  forall a b (R : mat), length R = n ->
    fold_left (fun X im => set_col X im.1 (f im)) ims (mkArr a b R)
    = mkArr a b
        (map (fun k =>
                fold_left (fun r im => <[im.1 := nth k (f im) 0]> r) ims
                          (nth k R []))
             (seq 0 n)).
Proof.
  induction ims as [| im ims IH]; intros Hf a b R HR.
  - simpl. now rewrite <- HR, map_nth_seq_rows.
  - cbn [fold_left]. unfold set_col at 2. cbn [dim0 dim1 rows].
    assert (Hl : length (f im) = n) by (apply Hf; left).
    rewrite IH.
    + f_equal. apply map_ext_in. intros k Hk. apply in_seq in Hk.
      now rewrite nth_zip_with_insert by lia.
    + intros im' Him'. apply Hf. now right.
    + rewrite length_zip_with. lia.
Qed.

Lemma nth_replicate_row n d k :
  (k < n)%nat -> nth k (replicate n (replicate d 0)) [] = replicate d 0.
Proof.
  intros Hk. rewrite nth_lookup, lookup_replicate_2 by assumption.
  reflexivity.
Qed.

Section Columns.

Context {lib : NumLib}.
Variable self : ERANataf.
Abbreviation Ms := (Marginals self).
Abbreviation d := (length (Marginals self)).

(** The loop [X[:, i] = self.Marginals[i].icdf(stats.norm.cdf(Z[i, :]))]
    from zeros: row [k] of the result holds, for every marginal, the image
    of entry [k] of its row of [Z]. *)
Lemma to_physical_cols_rows (Z : array2) (n : nat) :
  (forall i, (i < d)%nat -> length (row Z i) = n) ->
  to_physical_cols self Z (zeros n d)
  = mkArr n d
      (map (fun k =>
              map (fun im => icdf im.2 (norm_cdf (nth k (row Z im.1) 0)))
                  (enumerate Ms))
           (seq 0 n)).
Proof.
  intros HZ. unfold to_physical_cols, zeros.
  rewrite (fold_set_col_rows
             (fun im => map (fun z => icdf im.2 (norm_cdf z)) (row Z im.1)) n).
  - f_equal. apply map_ext_in. intros k Hk. apply in_seq in Hk.
    rewrite nth_replicate_row by lia.
    rewrite (fold_left_ext_in _
               (fun r im => <[im.1 := icdf im.2 (norm_cdf (nth k (row Z im.1) 0))]> r)).
    + now rewrite fold_insert_all by now rewrite length_replicate.
    + intros acc [i m] Him. cbn [fst snd]. f_equal.
      apply elem_of_enumerate, lookup_lt_Some in Him.
      rewrite (nth_indep _ 0 (icdf m (norm_cdf 0)))
        by (rewrite length_map, HZ; lia).
      now rewrite (map_nth (fun z => icdf m (norm_cdf z))).
  - intros [i m] Him. cbn [fst snd]. rewrite length_map. apply HZ.
    now apply elem_of_enumerate, lookup_lt_Some in Him.
  - apply length_replicate.
Qed.

Lemma row_matmul (U : array2) i :
  (i < length (A self))%nat ->
  row (matmul (A self) U) i
  = map (fun k => vdot (nth i (A self) []) (col U k)) (seq 0 (dim1 U)).
Proof.
  intros Hi. unfold row, matmul. cbn [rows].
  rewrite (nth_indep _ [] ((fun a => map (fun k => vdot a (col U k))
                                          (seq 0 (dim1 U))) []))
    by now rewrite length_map.
  now rewrite (map_nth (fun a => map (fun k => vdot a (col U k))
                                     (seq 0 (dim1 U)))).
Qed.

(** What [random] and [U2X] compute from the array [U] of shape [d, n]
    whose columns are the points in standard normal space. *)
Lemma physical_of_columns (U : array2) :
  length (A self) = d ->
  to_physical_cols self (matmul (A self) U) (zeros (dim1 U) d)
  = mkArr (dim1 U) d
      (map (fun k =>
              map (fun im =>
                     icdf im.2 (norm_cdf (vdot (nth im.1 (A self) []) (col U k))))
                  (enumerate Ms))
           (seq 0 (dim1 U))).
Proof.
  intros HA. rewrite (to_physical_cols_rows _ (dim1 U)).
  - f_equal. apply map_ext_in. intros k Hk. apply in_seq in Hk.
    apply map_ext_in. intros [i m] Him. cbn [fst snd]. do 2 f_equal.
    apply list_elem_of_In, elem_of_enumerate, lookup_lt_Some in Him.
    rewrite row_matmul by lia.
    rewrite (nth_indep _ 0 (vdot (nth i (A self) []) (col U 0)))
      by (rewrite length_map, length_seq; lia).
    rewrite (map_nth (fun k => vdot (nth i (A self) []) (col U k))).
    now rewrite seq_nth by lia.
  - intros i Hi. rewrite row_matmul by lia.
    now rewrite length_map, length_seq.
Qed.

End Columns.

Lemma col_transpose (U : array2) s :
  (s < length (rows U))%nat ->
  length (nth s (rows U) []) = dim1 U ->
  col (transpose U) s = nth s (rows U) [].
Proof.
  intros Hs Hl. unfold col, transpose. cbn [rows].
  rewrite map_map. rewrite <- (map_nth_seq (nth s (rows U) [])) at 1.
  rewrite Hl. apply map_ext. intros c. unfold col.
  rewrite (nth_indep _ 0 ((fun r => nth c r 0) [])) by now rewrite length_map.
  rewrite (map_nth (fun r => nth c r 0)). reflexivity.
Qed.

(** [U2X] works row by row: for an array [U] of [n] points in its rows, as
    many columns as marginals, the array that it returns (before
    [np.squeeze]) has in row [k] the image of row [k] of [U], whose
    coordinate [i] is [icdf_i(norm.cdf(A[i, :] @ u))]. *)
Theorem U2X_transforms_each_row :
  forall (lib : NumLib) (self : ERANataf) (U : array2),
    length (A self) = length (Marginals self) ->
    dim1 U = length (Marginals self) ->
    dim0 U = length (rows U) ->
    Forall (fun r => length r = length (Marginals self)) (rows U) ->
    U2X self (Mat U) false
    = ret (squeeze2 (mkArr (dim0 U) (length (Marginals self))
                       (map (physical_image self) (rows U))),
           None).
Proof.
  intros lib self U HA H1 H0 HU. unfold U2X.
  rewrite (MethodsSpec.check_dims_matrix self U _ _ H1).
  unfold bind, ret. cbv beta iota zeta.
  change (dim1 (transpose U)) with (dim0 U).
  change (dim0 (transpose U)) with (dim1 U). rewrite H1.
  pose proof (physical_of_columns self (transpose U) HA) as Hp.
  change (dim1 (transpose U)) with (dim0 U) in Hp. rewrite Hp.
  do 3 f_equal. rewrite H0. f_equal.
  rewrite <- (map_nth_seq_rows (rows U)) at 2. rewrite map_map.
  apply map_ext_in. intros k Hk. apply in_seq in Hk.
  unfold physical_image. apply map_ext. intros im. do 3 f_equal.
  apply col_transpose; [lia |].
  rewrite Forall_forall in HU. rewrite H1. apply HU.
  apply list_elem_of_In, nth_In. lia.
Qed.

Lemma U2X_transforms_each_row_witness :
  U2X (lib := lib_of brent_converges)
      (mkNataf [normal01; uniform01] C_06 C_06 [[1; 0]; [0.6; 0.8]])
      (Mat (mkArr 3 2 [[0; 0]; [1; 0]; [0; 1]])) false
  = ret (squeeze2
           (mkArr 3 2
              (map (physical_image (lib := lib_of brent_converges)
                      (mkNataf [normal01; uniform01] C_06 C_06
                         [[1; 0]; [0.6; 0.8]]))
                   [[0; 0]; [1; 0]; [0; 1]])),
         None).
Proof.
  apply (U2X_transforms_each_row (lib_of brent_converges)
           (mkNataf [normal01; uniform01] C_06 C_06 [[1; 0]; [0.6; 0.8]])
           (mkArr 3 2 [[0; 0]; [1; 0]; [0; 1]]));
    [reflexivity | reflexivity | reflexivity | repeat constructor].
Defined.

(** [random] makes sample [k] from column [k] of the array of standard
    normal values drawn: the array that it returns (before [np.squeeze])
    has in row [k] the image of that column. *)
Theorem random_transforms_each_column :
  forall (lib : NumLib) (self : ERANataf) (n k : nat),
    length (A self) = length (Marginals self) ->
    random self n k
    = squeeze2
        (mkArr n (length (Marginals self))
           (map (fun s =>
                   physical_image self
                     (col (mkArr (length (Marginals self)) n
                             (randn k (length (Marginals self)) n)) s))
                (seq 0 n))).
Proof.
  intros lib self n k HA. unfold random, random_from.
  pose proof (physical_of_columns self
                (mkArr (length (Marginals self)) n
                   (randn k (length (Marginals self)) n)) HA) as Hp.
  cbn [dim1] in Hp. now rewrite Hp.
Qed.

Lemma random_transforms_each_column_witness :
  random (lib := lib_of brent_converges)
    (mkNataf [normal01; uniform01] C_06 C_06 [[1; 0]; [0.6; 0.8]]) 3 0
  = squeeze2
      (mkArr 3 2
         (map (fun s =>
                 physical_image (lib := lib_of brent_converges)
                   (mkNataf [normal01; uniform01] C_06 C_06
                      [[1; 0]; [0.6; 0.8]])
                   (col (mkArr 2 3
                           (randn (NumLib := lib_of brent_converges) 0 2 3)) s))
              (seq 0 3))).
Proof.
  apply (random_transforms_each_column (lib_of brent_converges)
           (mkNataf [normal01; uniform01] C_06 C_06 [[1; 0]; [0.6; 0.8]])
           3 0).
  reflexivity.
Defined.

(** *** The checks on the shape of the argument *)

Lemma check_dims_wrong_shape {lib : NumLib} self X m1 m2 :
  wrong_shape (length (Marginals self)) X ->
  check_dims self X m1 m2 = raise (RuntimeError m2).
Proof.
  unfold check_dims, wrong_shape.
  set (d := length (Marginals self)).
  destruct X as [x | v | a |]; cbn [array_ndmin2 dim0 dim1]; [| | | tauto].
  - intros Hd. rewrite Nat.eqb_refl, (proj2 (Nat.eqb_neq d 1)) by assumption.
    cbn [negb andb transpose dim1 dim0].
    now rewrite (proj2 (Nat.eqb_neq 1 d)) by congruence.
  - intros Hv. destruct (length v =? 1)%nat eqn:E1.
    + apply Nat.eqb_eq in E1. rewrite E1 in Hv.
      rewrite (proj2 (Nat.eqb_neq d 1)) by congruence.
      cbn [negb andb transpose dim1 dim0].
      now rewrite (proj2 (Nat.eqb_neq 1 d)) by congruence.
    + cbn [andb dim1]. now rewrite (proj2 (Nat.eqb_neq (length v) d)).
  - intros [H1 Hc]. destruct (dim1 a =? 1)%nat eqn:E1.
    + apply Nat.eqb_eq in E1.
      rewrite (proj2 (Nat.eqb_neq d 1)) by congruence.
      cbn [negb andb transpose dim1 dim0].
      now rewrite (proj2 (Nat.eqb_neq (dim0 a) d)) by tauto.
    + cbn [andb]. now rewrite (proj2 (Nat.eqb_neq (dim1 a) d)).
Qed.

(** Every method refuses an argument of a wrong shape with the error on
    the size of the array ([X2U] and [pdf] when no marginal is discrete),
    and an array of more than two dimensions with the error on the number
    of dimensions.  In particular a one-dimensional array is one point: for
    a single marginal, an array of several values is refused. *)
Theorem methods_reject_wrong_shape :
  forall (lib : NumLib) (self : ERANataf) (X : ndarray) (jac : bool),
    (wrong_shape (length (Marginals self)) X ->
     U2X self X jac = raise (RuntimeError (msg_shape "U")) /\
     cdf_joint self X = raise (RuntimeError (msg_shape "X")) /\
     (existsb is_discrete (Marginals self) = false ->
      X2U self X jac = raise (RuntimeError (msg_shape "X")) /\
      pdf_joint self X = raise (RuntimeError (msg_shape "X")))) /\
    (X = Tensor ->
     U2X self X jac = raise (RuntimeError (msg_ndim "U")) /\
     cdf_joint self X = raise (RuntimeError (msg_ndim "X")) /\
     (existsb is_discrete (Marginals self) = false ->
      X2U self X jac = raise (RuntimeError (msg_ndim "X")) /\
      pdf_joint self X = raise (RuntimeError msg_ndim_pdf))).
Proof.
  intros lib self X jac. split.
  - intros Hw. unfold U2X, cdf_joint, X2U, pdf_joint, check_continuous.
    rewrite !(check_dims_wrong_shape self X _ _ Hw).
    split; [reflexivity | split; [reflexivity |]].
    intros Hc. rewrite Hc. split; reflexivity.
  - intros ->. unfold U2X, cdf_joint, X2U, pdf_joint, check_continuous.
    split; [reflexivity | split; [reflexivity |]].
    intros Hc. rewrite Hc. split; reflexivity.
Qed.

Lemma methods_reject_wrong_shape_witness :
  U2X (lib := lib_of brent_converges)
      (mkNataf [normal01] [[1]] [[1]] [[1]]) (Vec [0; 1; 2]) false
  = raise (RuntimeError (msg_shape "U")) /\
  pdf_joint (lib := lib_of brent_converges)
      (mkNataf [normal01; uniform01] C_06 C_06 [[1; 0]; [0.6; 0.8]])
      (Mat (mkArr 2 3 [[0; 0; 0]; [0; 0; 0]]))
  = raise (RuntimeError (msg_shape "X")).
Proof.
  split.
  - apply (methods_reject_wrong_shape (lib_of brent_converges)
             (mkNataf [normal01] [[1]] [[1]] [[1]]) (Vec [0; 1; 2]) false).
    simpl. lia.
  - apply (methods_reject_wrong_shape (lib_of brent_converges)
             (mkNataf [normal01; uniform01] C_06 C_06 [[1; 0]; [0.6; 0.8]])
             (Mat (mkArr 2 3 [[0; 0; 0]; [0; 0; 0]])) false).
    + simpl. lia.
    + reflexivity.
Defined.

Lemma check_dims_column {lib : NumLib} self (v : vec) m1 m2 :
  (2 <= length (Marginals self))%nat ->
  length v = length (Marginals self) ->
  check_dims self (Mat (mkArr (length v) 1 (map (fun t => [t]) v))) m1 m2
  = check_dims self (Vec v) m1 m2.
Proof.
  intros Hd Hv. unfold check_dims. cbn [array_ndmin2 dim1].
  rewrite Hv.
  rewrite !(proj2 (Nat.eqb_neq (length (Marginals self)) 1)) by lia.
  cbn [Nat.eqb negb andb transpose dim0 dim1 rows seq map].
  rewrite Nat.eqb_refl. cbn [negb]. unfold transpose, col.
  cbn [dim0 dim1 rows seq map]. rewrite map_map. cbn [nth].
  now rewrite map_id.
Qed.

(** One point may be given as a row or as a column: with two marginals or
    more, every method returns for the array of shape [d, 1] what it
    returns for the one-dimensional array of the same [d] values. *)
Theorem point_as_column_or_row :
  forall (lib : NumLib) (self : ERANataf) (v : vec) (jac : bool),
    (2 <= length (Marginals self))%nat ->
    length v = length (Marginals self) ->
    let column := Mat (mkArr (length v) 1 (map (fun t => [t]) v)) in
    X2U self column jac = X2U self (Vec v) jac /\
    U2X self column jac = U2X self (Vec v) jac /\
    pdf_joint self column = pdf_joint self (Vec v) /\
    cdf_joint self column = cdf_joint self (Vec v).
Proof.
  intros lib self v jac Hd Hv column. subst column.
  unfold X2U, U2X, pdf_joint, cdf_joint.
  now rewrite !(check_dims_column self v _ _ Hd Hv).
Qed.

Lemma point_as_column_or_row_witness :
  U2X (lib := lib_of brent_converges)
      (mkNataf [normal01; uniform01] C_06 C_06 [[1; 0]; [0.6; 0.8]])
      (Mat (mkArr 2 1 [[0.5]; [1]])) false
  = U2X (lib := lib_of brent_converges)
      (mkNataf [normal01; uniform01] C_06 C_06 [[1; 0]; [0.6; 0.8]])
      (Vec [0.5; 1]) false.
Proof.
  apply (point_as_column_or_row (lib_of brent_converges)
           (mkNataf [normal01; uniform01] C_06 C_06 [[1; 0]; [0.6; 0.8]])
           [0.5; 1] false); [simpl; lia | reflexivity].
Defined.

(** *** The two round trips at one point *)

(** Over the reals, for two marginals or more, none of them discrete, and
    a point [x] at whose coordinates every marginal is inverted by its
    [icdf]: when [np.linalg.solve] solves the systems of [self.A] and
    [stats.norm.cdf] inverts [stats.norm.ppf] on (0, 1), [U2X] returns [x]
    from what [X2U] returns at [x]. *)
Theorem X2U_then_U2X_at_a_point :
  forall (lib : NumLib) (self : ERANataf) (x : vec),
    (2 <= length (Marginals self))%nat ->
    existsb is_discrete (Marginals self) = false ->
    length x = length (Marginals self) ->
    (forall p, 0 < p < 1 -> norm_cdf (norm_ppf p) = p) ->
    (forall i m xi, Marginals self !! i = Some m -> x !! i = Some xi ->
                    0 < cdf m xi < 1 /\ icdf m (cdf m xi) = xi) ->
    (forall z, length z = length (Marginals self) ->
               exists u, solve (A self) (Vec z) = ret (Vec u) /\
                         length u = length (Marginals self) /\
                         matvec (A self) u = z) ->
    exists u, X2U self (Vec x) false = ret (Vec u, None) /\
              U2X self (Vec u) false = ret (Vec x, None).
Proof.
  intros lib self x Hd Hcont Hx Hnorm Hinv Hsolve.
  exact (roundtrip_point self x Hd Hcont Hx Hnorm Hinv Hsolve).
Qed.

Lemma sigmoid_marginals i m (xi : R) :
  [normal01; normal01] !! i = Some m ->
  0 < cdf m xi < 1 /\ icdf m (cdf m xi) = xi.
Proof.
  intros Hm. destruct i as [| [| i]]; simpl in Hm; try discriminate;
    injection Hm as <-; simpl;
    (split; [apply sigmoid_cdf_range | apply sigmoid_ppf_cdf]).
Qed.

Lemma X2U_then_U2X_at_a_point_witness :
  exists u,
    X2U (lib := lib_of brent_converges)
        (mkNataf [normal01; normal01] C_06 C_06 [[1; 0]; [0.6; 0.8]])
        (Vec [0; 0.3]) false
    = ret (Vec u, None) /\
    U2X (lib := lib_of brent_converges)
        (mkNataf [normal01; normal01] C_06 C_06 [[1; 0]; [0.6; 0.8]])
        (Vec u) false
    = ret (Vec [0; 0.3], None).
Proof.
  apply (X2U_then_U2X_at_a_point (lib_of brent_converges)
           (mkNataf [normal01; normal01] C_06 C_06 [[1; 0]; [0.6; 0.8]])
           [0; 0.3]).
  - simpl. lia.
  - reflexivity.
  - reflexivity.
  - exact sigmoid_cdf_ppf.
  - intros i m xi Hm _. exact (sigmoid_marginals i m xi Hm).
  - exact solve_R_C_06.
Defined.

Lemma nth_enumerate_map {T} (g : nat * ERADist -> T) (dflt : T)
    (Ms : list ERADist) i m :
  Ms !! i = Some m -> nth i (map g (enumerate Ms)) dflt = g (i, m).
Proof.
  intros Hm. rewrite nth_lookup, list_lookup_fmap, lookup_enumerate, Hm.
  reflexivity.
Qed.

(** Over the reals, for two marginals or more, none of them discrete, and
    a point [u] of standard normal space: when [stats.norm.ppf] inverts
    [stats.norm.cdf], whose values lie in (0, 1), every marginal's [cdf]
    inverts its [icdf] on (0, 1), and [np.linalg.solve] gives back [u] from
    [self.A @ u], [X2U] returns [u] from what [U2X] returns at [u]. *)
Theorem U2X_then_X2U_at_a_point :
  forall (lib : NumLib) (self : ERANataf) (u : vec),
    (2 <= length (Marginals self))%nat ->
    existsb is_discrete (Marginals self) = false ->
    length u = length (Marginals self) ->
    length (A self) = length (Marginals self) ->
    (forall z, 0 < norm_cdf z < 1 /\ norm_ppf (norm_cdf z) = z) ->
    (forall p, 0 < p < 1 -> norm_cdf (norm_ppf p) = p) ->
    (forall m p, m ∈ Marginals self -> 0 < p < 1 -> cdf m (icdf m p) = p) ->
    solve (A self) (Vec (matvec (A self) u)) = ret (Vec u) ->
    U2X self (Vec u) false = ret (Vec (physical_image self u), None) /\
    X2U self (Vec (physical_image self u)) false = ret (Vec u, None).
Proof.
  intros lib self u Hd Hcont Hu HA Hppf Hnorm Hcdf Hsolve.
  set (x := physical_image self u).
  assert (Hx : length x = length (Marginals self)).
  { unfold x, physical_image. now rewrite length_map, length_enumerate. }
  assert (Hz : matvec (A self) u = normal_image self x).
  { apply list_eq. intros i. unfold matvec, normal_image.
    rewrite !list_lookup_fmap, lookup_enumerate.
    destruct (Marginals self !! i) as [m |] eqn:Em; simpl.
    - pose proof (lookup_lt_Some _ _ _ Em) as Hi.
      destruct (lookup_lt_is_Some_2 (A self) i ltac:(lia)) as [a Ha].
      rewrite Ha. simpl. f_equal.
      unfold x, physical_image.
      rewrite (nth_enumerate_map _ 0 _ i m Em). cbn [fst snd].
      rewrite (nth_lookup (A self)), Ha. simpl.
      rewrite Hcdf; [now rewrite (proj2 (Hppf _)) | | apply Hppf].
      now apply list_elem_of_lookup_2 in Em.
    - apply lookup_ge_None in Em.
      rewrite (proj2 (lookup_ge_None (A self) i)) by lia. reflexivity. }
  split.
  - apply (U2X_point self x Hd Hx Hnorm); [| exact Hu | exact Hz].
    intros i m xi Hm Hxi.
    assert (Hxi' : xi = icdf m (norm_cdf (vdot (nth i (A self) []) u))).
    { unfold x, physical_image in Hxi.
      rewrite list_lookup_fmap, lookup_enumerate, Hm in Hxi.
      now injection Hxi as <-. }
    assert (Hm' : m ∈ Marginals self) by now apply list_elem_of_lookup_2 in Hm.
    rewrite Hxi', (Hcdf m _ Hm' (proj1 (Hppf _))).
    split; [apply Hppf | reflexivity].
  - apply (X2U_point self x Hd Hcont Hx); [| exact Hu].
    now rewrite <- Hz.
Qed.

Lemma U2X_then_X2U_at_a_point_witness :
  U2X (lib := lib_of brent_converges)
      (mkNataf [normal01; normal01] C_06 C_06 [[1; 0]; [0.6; 0.8]])
      (Vec [1; 0.5]) false
  = ret (Vec (physical_image (lib := lib_of brent_converges)
                (mkNataf [normal01; normal01] C_06 C_06 [[1; 0]; [0.6; 0.8]])
                [1; 0.5]), None) /\
  X2U (lib := lib_of brent_converges)
      (mkNataf [normal01; normal01] C_06 C_06 [[1; 0]; [0.6; 0.8]])
      (Vec (physical_image (lib := lib_of brent_converges)
              (mkNataf [normal01; normal01] C_06 C_06 [[1; 0]; [0.6; 0.8]])
              [1; 0.5])) false
  = ret (Vec [1; 0.5], None).
Proof.
  apply (U2X_then_X2U_at_a_point (lib_of brent_converges)
           (mkNataf [normal01; normal01] C_06 C_06 [[1; 0]; [0.6; 0.8]])
           [1; 0.5]).
  - simpl. lia.
  - reflexivity.
  - reflexivity.
  - reflexivity.
  - intros z. split; [apply sigmoid_cdf_range | apply sigmoid_ppf_cdf].
  - exact sigmoid_cdf_ppf.
  - intros m p Hm Hp.
    apply elem_of_cons in Hm as [-> | Hm];
      [| apply list_elem_of_singleton in Hm; subst m];
      now apply sigmoid_cdf_ppf.
  - unfold solve_R, matvec. simpl.
    unfold nonzero_diagonal, mat_at, vdot, Rsum. run.
    repeat f_equal; lra.
Defined.

(** *** The joint density and distribution function at one point *)

Section Density.

Context {lib : NumLib}.
Variable self : ERANataf.
Variable x : vec.
Abbreviation Ms := (Marginals self).
Abbreviation d := (length (Marginals self)).

Hypothesis Hx : length x = d.

Lemma check_dims_one_point m1 m2 :
  check_dims self (Vec x) m1 m2 = ret (mkArr 1 d [x]).
Proof.
  unfold check_dims. cbn [array_ndmin2 dim1]. rewrite Hx.
  destruct (d =? 1)%nat; cbn [negb andb dim1];
    now rewrite Nat.eqb_refl.
Qed.

Lemma pdf_step_point s m (rU : vec) (Rphi Rf : mat) :
  (s < length rU)%nat ->
  pdf_step (mkArr 1 d [x])
    (mkArr 1 d [rU], mkArr d 1 Rphi, mkArr d 1 Rf) (s, m)
  = (mkArr 1 d [<[s := norm_ppf (cdf m (nth s x 0))]> rU],
     mkArr d 1 (<[s := [norm_pdf (norm_ppf (cdf m (nth s x 0)))]]> Rphi),
     mkArr d 1 (<[s := [pdf m (nth s x 0)]]> Rf)).
Proof.
  intros Hs. unfold pdf_step, set_col, set_row, col.
  cbn [fst snd dim0 dim1 rows map zip_with].
  rewrite (nth_lookup (<[s := _]> rU)), list_lookup_insert_eq by lia.
  reflexivity.
Qed.

(** The first loop of [pdf] at one point, from the marginal of index [s]
    on. *)
Lemma pdf_arrays_from (l : list ERADist) :
  forall (s : nat) (rU : vec) (Rphi Rf : mat),
    (s + length l <= length rU)%nat ->
    fold_left (pdf_step (mkArr 1 d [x])) (zip (seq s (length l)) l)
      (mkArr 1 d [rU], mkArr d 1 Rphi, mkArr d 1 Rf)
    = (mkArr 1 d
         [fold_left (fun r im => <[im.1 := norm_ppf (cdf im.2 (nth im.1 x 0))]> r)
                    (zip (seq s (length l)) l) rU],
       mkArr d 1
         (fold_left
            (fun R im => <[im.1 := [norm_pdf (norm_ppf (cdf im.2 (nth im.1 x 0)))]]> R)
            (zip (seq s (length l)) l) Rphi),
       mkArr d 1
         (fold_left (fun R im => <[im.1 := [pdf im.2 (nth im.1 x 0)]]> R)
                    (zip (seq s (length l)) l) Rf)).
Proof.
  induction l as [| m l IH]; intros s rU Rphi Rf Hlen; [reflexivity |].
  cbn [length seq zip zip_with fold_left]. simpl in Hlen.
  rewrite pdf_step_point by lia.
  apply IH. rewrite length_insert. lia.
Qed.

Lemma pdf_arrays_point :
  pdf_arrays self (mkArr 1 d [x]) (zeros 1 d, zeros d 1, zeros d 1)
  = (mkArr 1 d [normal_image self x],
     mkArr d 1 (map (fun z => [norm_pdf z]) (normal_image self x)),
     mkArr d 1 (map (fun im => [pdf im.2 (nth im.1 x 0)]) (enumerate Ms))).
Proof.
  change (pdf_arrays self (mkArr 1 d [x]) (zeros 1 d, zeros d 1, zeros d 1))
    with (fold_left (pdf_step (mkArr 1 d [x])) (enumerate Ms)
            (mkArr 1 d [replicate d 0],
             mkArr d 1 (replicate d [0]), mkArr d 1 (replicate d [0]))).
  unfold enumerate at 1. rewrite pdf_arrays_from
    by (rewrite length_replicate; lia).
  fold (enumerate Ms).
  rewrite !fold_insert_all by now rewrite length_replicate.
  unfold normal_image. now rewrite map_map.
Qed.

End Density.

(** Over the reals, at one point [x] with as many coordinates as there are
    marginals, none of them discrete: when scipy's multivariate normal
    density at the standard normal image of [x] is the number [p], [pdf]
    returns the product of the marginal densities at the coordinates of
    [x], divided by the product of the standard normal densities at the
    image plus [realmin], times [p]; it is zero when a marginal density is
    zero at its coordinate. *)
Theorem pdf_at_a_point :
  forall (lib : NumLib) (self : ERANataf) (x : vec) (p : R),
    existsb is_discrete (Marginals self) = false ->
    length x = length (Marginals self) ->
    mvn_pdf (mkArr 1 (length (Marginals self)) [normal_image self x])
            (replicate (length (Marginals self)) 0) (Rho_Z self)
    = Scalar p ->
    pdf_joint self (Vec x)
    = ret (Scalar
             (Rprod (map (fun im => pdf im.2 (nth im.1 x 0))
                         (enumerate (Marginals self)))
              / (Rprod (map norm_pdf (normal_image self x)) + realmin)
              * p)) /\
    ((exists i m, Marginals self !! i = Some m /\ pdf m (nth i x 0) = 0) ->
     pdf_joint self (Vec x) = ret (Scalar 0)).
Proof.
  intros lib self x p Hcont Hx Hp.
  assert (Hval : pdf_joint self (Vec x)
    = ret (Scalar
             (Rprod (map (fun im => pdf im.2 (nth im.1 x 0))
                         (enumerate (Marginals self)))
              / (Rprod (map norm_pdf (normal_image self x)) + realmin)
              * p))).
  { unfold pdf_joint, check_continuous. rewrite Hcont.
    rewrite (check_dims_one_point self x Hx). unfold bind, ret.
    cbv beta iota zeta. cbn [dim0].
    rewrite (pdf_arrays_point self x Hx). cbn [fst snd].
    rewrite Hp. cbn [seq jointpdf_loop phi_n_at]. unfold bind, ret.
    cbn [length Nat.eqb nth]. unfold col. cbn [rows].
    now rewrite !map_map. }
  split; [exact Hval |].
  intros (i & m & Hm & H0). rewrite Hval. do 2 f_equal.
  assert (Hprod : Rprod (map (fun im => pdf im.2 (nth im.1 x 0))
                             (enumerate (Marginals self))) = 0).
  { assert (Hin : (i, m) ∈ enumerate (Marginals self)).
    { apply list_elem_of_lookup. exists i.
      now rewrite lookup_enumerate, Hm. }
    revert Hin. generalize (enumerate (Marginals self)).
    induction l as [| im l IH]; intros Hin.
    - now apply elem_of_nil in Hin.
    - unfold Rprod. cbn [map fold_right].
      apply elem_of_cons in Hin as [<- | Hin].
      + cbn [fst snd]. rewrite H0. ring.
      + specialize (IH Hin). unfold Rprod in IH. rewrite IH. ring. }
  rewrite Hprod. unfold Rdiv. ring.
Qed.

Lemma pdf_at_a_point_witness :
  exists v,
    pdf_joint (lib := lib_with_mvn brent_converges)
      (mkNataf [normal01; uniform01] C_06 C_06 [[1; 0]; [0.6; 0.8]])
      (Vec [0.3; 0.5])
    = ret (Scalar v) /\
    pdf_joint (lib := lib_with_mvn brent_converges)
      (mkNataf [normal01; uniform01] C_06 C_06 [[1; 0]; [0.6; 0.8]])
      (Vec [0.3; 2])
    = ret (Scalar 0).
Proof.
  eexists. split.
  - apply (pdf_at_a_point (lib_with_mvn brent_converges)
             (mkNataf [normal01; uniform01] C_06 C_06 [[1; 0]; [0.6; 0.8]])
             [0.3; 0.5]); reflexivity.
  - apply (proj2 (pdf_at_a_point (lib_with_mvn brent_converges)
             (mkNataf [normal01; uniform01] C_06 C_06 [[1; 0]; [0.6; 0.8]])
             [0.3; 2] _ eq_refl eq_refl eq_refl)).
    exists 1%nat, uniform01. split; [reflexivity |].
    simpl. now rewrite (proj2 (Rleb_false 2 1)), andb_false_r by lra.
Defined.

(** At one point [x] with as many coordinates as there are marginals,
    [cdf] returns what scipy's multivariate normal distribution function
    with the correlation matrix [Rho_Z] gives at the standard normal image
    of [x]; the marginals may be discrete. *)
Theorem cdf_at_a_point :
  forall (lib : NumLib) (self : ERANataf) (x : vec),
    length x = length (Marginals self) ->
    cdf_joint self (Vec x)
    = ret (mvn_cdf
             (mkArr 1 (length (Marginals self)) [normal_image self x])
             (replicate (length (Marginals self)) 0) (Rho_Z self)).
Proof.
  intros lib self x Hx. unfold cdf_joint.
  rewrite (check_dims_one_point self x Hx). unfold bind, ret.
  cbv beta iota zeta. cbn [dim0]. do 2 f_equal.
  change (to_normal_cols self (mkArr 1 (length (Marginals self)) [x])
            (zeros 1 (length (Marginals self))))
    with (fold_left
            (fun X im => set_col X im.1 [norm_ppf (cdf im.2 (nth im.1 x 0))])
            (enumerate (Marginals self))
            (mkArr 1 (length (Marginals self))
               [replicate (length (Marginals self)) 0])).
  pose proof (fold_set_col_point
                (fun im => norm_ppf (cdf im.2 (nth im.1 x 0)))
                (enumerate (Marginals self)) (length (Marginals self))
                (replicate (length (Marginals self)) 0)) as Hf.
  cbv beta in Hf. rewrite Hf.
  now rewrite fold_insert_all by now rewrite length_replicate.
Qed.

Lemma cdf_at_a_point_witness :
  cdf_joint (lib := lib_with_mvn brent_converges)
    (mkNataf [normal01; poisson sigmoid_cdf sigmoid_ppf sigmoid_pdf]
             C_06 C_06 [[1; 0]; [0.6; 0.8]])
    (Vec [0.3; 0.5])
  = ret (mvn_cdf (NumLib := lib_with_mvn brent_converges)
           (mkArr 1 2
              [normal_image (lib := lib_with_mvn brent_converges)
                 (mkNataf
                    [normal01; poisson sigmoid_cdf sigmoid_ppf sigmoid_pdf]
                    C_06 C_06 [[1; 0]; [0.6; 0.8]])
                 [0.3; 0.5]])
           [0; 0] C_06).
Proof.
  apply (cdf_at_a_point (lib_with_mvn brent_converges)
           (mkNataf [normal01; poisson sigmoid_cdf sigmoid_ppf sigmoid_pdf]
                    C_06 C_06 [[1; 0]; [0.6; 0.8]])
           [0.3; 0.5]).
  reflexivity.
Defined.

End TransformSpec.
